(** * OpenPSG cpap-downloader: session discovery and multi-file reconciliation

    A shallow embedding of [src/lib/loader/Utils.ts], [ResMedLoader.ts] and
    [SpO2AssistantLoader.ts], and the properties of the reconciliation engine
    proved about it.

    Conventions of the embedding.
    - A JavaScript [number] is a [JS.num]: the value of an IEEE 754 binary64
      number, that is a rational, one of the two infinities, or NaN.  Sums,
      differences, products and quotients are rounded to the nearest
      binary64 number, ties to even, with gradual underflow and overflow to
      the infinities ([JS.round]); remainder, floor, ceiling and comparison
      are exact, as they are in binary64.  Signed zeros are not
      distinguished.
    - A number that the program only reads from its input (a record
      duration, a sample, a physical bound) is given by its value, a rational
      [Q]; a count that it only reads (samples per record, number of signals,
      a byte length) is a [Z].
    - A [Date] is its time value: an integral number of milliseconds or the
      invalid date; [new Date(value)] clips as ECMAScript does (TimeClip).
    - Strings are sequences of bytes (UTF-8); string equality is byte
      equality, and letter case is folded for the ASCII letters only.
    - An [ArrayBuffer] is its bytes, no more than [2^53 - 1] of them.
    - [async]/[await] is sequential here: every file is read to completion
      before the next one, so promises are not modelled.  The optional
      progress callback has no influence on any result and is left out. *)

From Stdlib Require Import ZArith QArith Qround Qpower Qabs Qreduction Lqa Lia
  List Bool String Ascii.
Import ListNotations.

(** ** ECMAScript numbers, dates, arrays and strings *)

Module JS.

Inductive num : Type :=
| Fin (q : Q)
| PInf
| NInf
| NaN.

(** *** Rounding to binary64 *)

Definition pow2 (k : Z) : Q := 2 ^ k.

(** The exponent [e] of a positive rational: [2^e <= q < 2^(e+1)]. *)
Definition ilog2 (q : Q) : Z :=
  let e0 := (Z.log2 (Qnum q) - Z.log2 (Zpos (Qden q)))%Z in
  if Qle_bool (pow2 e0) q then e0 else (e0 - 1)%Z.

(** The nearest integer, the even one of two that are equally near. *)
Definition round_even (x : Q) : Z :=
  let f := Qfloor x in
  match Qcompare (x - inject_Z f) (1 # 2) with
  | Lt => f
  | Gt => (f + 1)%Z
  | Eq => if Z.even f then f else (f + 1)%Z
  end.

(** The nearest binary64 number to a positive rational [a]: a multiple of the
    unit in the last place [2^kexp a], which leaves 53 significant bits and
    is no less than [2^-1074]; [None] is overflow (the nearest number would
    be [2^1024] or more). *)
Definition kexp (a : Q) : Z := Z.max (ilog2 a - 52) (-1074).

Definition rv (a : Q) : Q :=
  inject_Z (round_even (a / pow2 (kexp a))) * pow2 (kexp a).

Definition round_pos (a : Q) : option Q :=
  if Qle_bool (pow2 1024) (rv a) then None else Some (Qred (rv a)).

Definition round (q : Q) : num :=
  match q ?= 0 with
  | Eq => Fin 0
  | Gt => match round_pos q with Some v => Fin v | None => PInf end
  | Lt => match round_pos (- q) with Some v => Fin (- v) | None => NInf end
  end.

(** The binary64 numbers: [m * 2^j] with a significand [m] of at most 53
    bits and [j] no less than -1074, below [2^1024] in absolute value. *)
Definition binary64 (q : Q) : Prop :=
  exists m j : Z,
    (Z.abs m < 2 ^ 53)%Z /\ (-1074 <= j)%Z
    /\ q == inject_Z m * pow2 j /\ Qabs q < pow2 1024.

(** *** Arithmetic *)

(** A whole number as the program reads it. *)
Definition of_Z (z : Z) : num := Fin (inject_Z z).

(** Truncation towards zero ([ToIntegerOrInfinity] on a finite number). *)
Definition Qtrunc (q : Q) : Z := Z.quot (Qnum q) (Zpos (Qden q)).

Definition neg (a : num) : num :=
  match a with
  | Fin q => Fin (- q)
  | PInf => NInf
  | NInf => PInf
  | NaN => NaN
  end.

Definition add (a b : num) : num :=
  match a, b with
  | NaN, _ | _, NaN => NaN
  | Fin x, Fin y => round (x + y)
  | PInf, NInf | NInf, PInf => NaN
  | PInf, _ | _, PInf => PInf
  | NInf, _ | _, NInf => NInf
  end.

Definition sub (a b : num) : num := add a (neg b).

(** An infinity scaled by a finite factor: zero times infinity is NaN. *)
Definition scale_inf (x : Q) (inf : num) : num :=
  match 0 ?= x with
  | Eq => NaN
  | Lt => inf
  | Gt => neg inf
  end.

Definition mul (a b : num) : num :=
  match a, b with
  | NaN, _ | _, NaN => NaN
  | Fin x, Fin y => round (x * y)
  | Fin x, inf | inf, Fin x => scale_inf x inf
  | PInf, PInf | NInf, NInf => PInf
  | PInf, NInf | NInf, PInf => NInf
  end.

Definition div (a b : num) : num :=
  match a, b with
  | NaN, _ | _, NaN => NaN
  | Fin x, Fin y => if Qeq_bool y 0 then scale_inf x PInf else round (x / y)
  | Fin _, _ => Fin 0
  | inf, Fin y => if Qle_bool 0 y then inf else neg inf
  | _, _ => NaN
  end.

(** The [%] operator: the remainder has the sign of the dividend; it is a
    binary64 number whenever its operands are, so nothing is rounded. *)
Definition rem (a b : num) : num :=
  match a, b with
  | Fin x, Fin y =>
      if Qeq_bool y 0 then NaN else Fin (x - y * inject_Z (Qtrunc (x / y)))
  | Fin x, (PInf | NInf) => Fin x
  | _, _ => NaN
  end.

Definition floor (a : num) : num :=
  match a with Fin q => of_Z (Qfloor q) | _ => a end.

Definition ceil (a : num) : num :=
  match a with Fin q => of_Z (Qceiling q) | _ => a end.

(** Comparisons; any comparison with NaN is false. *)
Definition leb (a b : num) : bool :=
  match a, b with
  | NaN, _ | _, NaN => false
  | Fin x, Fin y => Qle_bool x y
  | NInf, _ | _, PInf => true
  | _, _ => false
  end.

Definition geb (a b : num) : bool := leb b a.

Definition ltb (a b : num) : bool :=
  match a, b with
  | NaN, _ | _, NaN => false
  | _, _ => negb (leb b a)
  end.

Definition gtb (a b : num) : bool := ltb b a.

Definition max2 (a b : num) : num :=
  match a, b with
  | NaN, _ | _, NaN => NaN
  | _, _ => if leb a b then b else a
  end.

Definition min2 (a b : num) : num :=
  match a, b with
  | NaN, _ | _, NaN => NaN
  | _, _ => if leb a b then a else b
  end.

(** [Math.max(...xs)] and [Math.min(...xs)]. *)
Definition Math_max (xs : list num) : num := fold_left max2 xs NInf.
Definition Math_min (xs : list num) : num := fold_left min2 xs PInf.

(** Dates. *)
Inductive Date : Type :=
| DateOf (t : Z)
| InvalidDate.

Definition getTime (d : Date) : num :=
  match d with
  | DateOf t => of_Z t
  | InvalidDate => NaN
  end.

(** [new Date(value)]: [TimeClip] makes a time value of more than 8.64e15 ms
    in absolute value the invalid date, and clips any other to an integer. *)
Definition maxTime : Z := 8640000000000000.

Definition new_Date (value : num) : Date :=
  match value with
  | Fin q =>
      if Qle_bool (Qabs q) (inject_Z maxTime) then DateOf (Qtrunc q)
      else InvalidDate
  | _ => InvalidDate
  end.

(** [Array.prototype.slice(start, end)] with both arguments given. *)
Definition relativeIndex (len : Z) (i : num) : Z :=
  match i with
  | NaN | NInf => 0
  | PInf => len
  | Fin q =>
      let r := Qtrunc q in
      if (r <? 0)%Z then Z.max (len + r) 0 else Z.min r len
  end.

Definition slice {A : Type} (l : list A) (s e : num) : list A :=
  let len := Z.of_nat (List.length l) in
  let k := relativeIndex len s in
  let final := relativeIndex len e in
  firstn (Z.to_nat (final - k)) (skipn (Z.to_nat k) l).

(** [Array.prototype.splice(index, 1)] for an index inside the array. *)
Fixpoint splice1 {A : Type} (index : nat) (l : list A) : list A :=
  match l, index with
  | [], _ => []
  | _ :: t, O => t
  | x :: t, S i => x :: splice1 i t
  end.

(** [a ?? b]. *)
Definition nullish {A : Type} (a : option A) (b : A) : A :=
  match a with Some x => x | None => b end.

(** Strings.  [toLowerCase] folds the ASCII letters and keeps every other
    byte: it is [String.prototype.toLowerCase] on the strings whose letters
    outside ASCII have no case, which include the ASCII strings. *)
Definition lower_ascii (c : ascii) : ascii :=
  let n := nat_of_ascii c in
  if (65 <=? n)%nat && (n <=? 90)%nat then ascii_of_nat (n + 32) else c.

Fixpoint toLowerCase (s : string) : string :=
  match s with
  | EmptyString => EmptyString
  | String c t => String (lower_ascii c) (toLowerCase t)
  end.

Definition startsWith (s p : string) : bool := String.prefix p s.

Fixpoint includes (s needle : string) : bool :=
  String.prefix needle s
  || match s with
     | EmptyString => false
     | String _ t => includes t needle
     end.

Definition endsWith (s suffix : string) : bool :=
  let n := String.length s in
  let k := String.length suffix in
  (k <=? n)%nat && String.eqb (String.substring (n - k) k s) suffix.

(** [s.slice(from)] for [0 <= from]. *)
Definition sliceFrom (s : string) (from : nat) : string :=
  String.substring from (String.length s - from) s.

End JS.

Declare Scope js_scope.
Delimit Scope js_scope with js.
Bind Scope js_scope with JS.num.
Infix "+" := JS.add : js_scope.
Infix "-" := JS.sub : js_scope.
Infix "*" := JS.mul : js_scope.
Infix "/" := JS.div : js_scope.
Infix "%%" := JS.rem (at level 40, left associativity) : js_scope.
Infix "<=?" := JS.leb : js_scope.
Infix ">=?" := JS.geb : js_scope.
Infix ">?" := JS.gtb : js_scope.
Notation "a ?? b" := (JS.nullish a b) (at level 45, left associativity).

(** ** The EDF data model ([edf-ts], [Loader.ts], [Utils.ts]) *)

(** Modelled from the spec: [EDFSignal], [EDFAnnotation] and [EDFHeader] are
    types of the library [edf-ts]; the records have the fields of the spec's
    data model, under the names that the loaders and their tests use. *)
Record EDFSignal : Type := mkSignal {
  label : string;
  transducerType : string;
  physicalDimension : string;
  physicalMin : Q;
  physicalMax : Q;
  digitalMin : Q;
  digitalMax : Q;
  prefiltering : string;
  samplesPerRecord : Z;
  sig_reserved : option string
}.

Record EDFAnnotation : Type := mkAnnotation {
  onset : JS.num;
  ann_duration : option JS.num;
  description : string
}.

Record EDFHeader : Type := mkHeader {
  patientId : string;
  recordingId : string;
  startTime : JS.Date;
  dataRecords : JS.num;
  recordDuration : Q;
  signalCount : Z;
  signals : list EDFSignal;
  reserved : option string
}.

(** [EDFFile] of [Loader.ts]; [duration] is the field that
    [EDFFileWithDuration] adds, absent on a plain [EDFFile]. *)
Record EDFFile : Type := mkFile {
  header : EDFHeader;
  values : list (list Q);
  annotations : list EDFAnnotation;
  duration : option JS.num
}.

Record TimeRange : Type := mkRange {
  range_start : JS.Date;
  range_end : JS.Date
}.

(** ** [Utils.ts] *)

(** [findCommonTimeRange(files, recordDuration)]. *)
Definition findCommonTimeRange (files : list EDFFile) (recordDuration : JS.num)
  : TimeRange :=
  let startTimes := map (fun file => JS.getTime (startTime (header file))) files in
  let endTimes :=
    map (fun file =>
           (JS.getTime (startTime (header file))
            + (duration file ?? JS.of_Z 0) * JS.of_Z 1000)%js) files in
  let start := JS.Math_max startTimes in
  let end0 := JS.Math_min endTimes in
  let end1 := (end0 - (end0 - start) %% (recordDuration * JS.of_Z 1000))%js in
  {| range_start := JS.new_Date start; range_end := JS.new_Date end1 |}.

(** [canonicalizeLabels(signals, synonyms)].  The synonym [Map] is iterated in
    insertion order, so it is an association list. *)
Definition Synonyms : Type := list (string * list string).

(** [aliases.some((alias) => alias === label)]. *)
Definition some_alias (aliases : list string) (l : string) : bool :=
  existsb (fun alias => String.eqb alias l) aliases.

(** The [for ... of synonyms.entries()] loop: the first canonical name one of
    whose aliases is the label. *)
Fixpoint findCanonical (synonyms : Synonyms) (l : string) : option string :=
  match synonyms with
  | [] => None
  | (canonical, aliases) :: rest =>
      if some_alias aliases l then Some canonical else findCanonical rest l
  end.

Definition withLabel (signal : EDFSignal) (l : string) : EDFSignal :=
  {| label := l;
     transducerType := transducerType signal;
     physicalDimension := physicalDimension signal;
     physicalMin := physicalMin signal;
     physicalMax := physicalMax signal;
     digitalMin := digitalMin signal;
     digitalMax := digitalMax signal;
     prefiltering := prefiltering signal;
     samplesPerRecord := samplesPerRecord signal;
     sig_reserved := sig_reserved signal |}.

Definition canonicalizeSignal (synonyms : Synonyms) (signal : EDFSignal)
  : EDFSignal :=
  match findCanonical synonyms (label signal) with
  | Some canonical => withLabel signal canonical
  | None => signal
  end.

Definition canonicalizeLabels (signals : list EDFSignal) (synonyms : Synonyms)
  : list EDFSignal :=
  map (canonicalizeSignal synonyms) signals.

(** [filterSignals(signals, values, filter)].  A [Set] of strings is only
    asked for membership.  [values[idx]] past the end of [values] is
    [undefined], which is pushed as it is: the slot is [None]. *)
Record LabelFilter : Type := mkFilter {
  allowedLabels : option (list string);
  disallowedLabels : option (list string)
}.

Definition Set_has (s : list string) (x : string) : bool :=
  existsb (String.eqb x) s.

Definition filterSignals (signals : list EDFSignal) (vals : list (list Q))
    (filter : LabelFilter)
  : list EDFSignal * list (option (list Q)) :=
  let allowedSet := option_map (map JS.toLowerCase) (allowedLabels filter) in
  let disallowedSet := option_map (map JS.toLowerCase) (disallowedLabels filter) in
  let keep (signal : EDFSignal) : bool :=
    let l := JS.toLowerCase (label signal) in
    match allowedSet with
    | Some s => Set_has s l
    | None => true
    end
    && match disallowedSet with
       | Some s => negb (Set_has s l)
       | None => true
       end in
  fold_left
    (fun acc '(idx, signal) =>
       if keep signal
       then (fst acc ++ [signal], snd acc ++ [nth_error vals idx])
       else acc)
    (combine (seq 0 (List.length signals)) signals)
    ([], []).

(** *** [mergeSignals] *)

Record SignalInfo : Type := mkInfo {
  info_signal : EDFSignal;
  info_index : nat;
  info_fileIndex : nat
}.

(** [labelToSignals]: a [Map] from label to the channels that carry it, in
    the order in which the labels were first set. *)
Definition LabelMap : Type := list (string * list SignalInfo).

Fixpoint Map_get (m : LabelMap) (k : string) : option (list SignalInfo) :=
  match m with
  | [] => None
  | (k', v) :: rest => if String.eqb k' k then Some v else Map_get rest k
  end.

Definition Map_has (m : LabelMap) (k : string) : bool :=
  match Map_get m k with Some _ => true | None => false end.

(** [set] keeps the position of a key that is already present. *)
Fixpoint Map_set (m : LabelMap) (k : string) (v : list SignalInfo) : LabelMap :=
  match m with
  | [] => [(k, v)]
  | (k', v') :: rest =>
      if String.eqb k' k then (k', v) :: rest else (k', v') :: Map_set rest k v
  end.

Definition Map_values (m : LabelMap) : list (list SignalInfo) := map snd m.

(** The body of the inner [forEach] of step 1.  [push] mutates the array
    that the map holds, which is a [set] of the extended array. *)
Definition groupSignal (m : LabelMap) (fileIndex signalIndex : nat)
    (signal : EDFSignal) : LabelMap :=
  let m1 := if Map_has m (label signal) then m else Map_set m (label signal) [] in
  match Map_get m1 (label signal) with
  | Some infos =>
      Map_set m1 (label signal)
        (infos ++ [mkInfo signal signalIndex fileIndex])
  | None => m1
  end.

Definition groupFile (m : LabelMap) (fileIndex : nat) (file : EDFFile)
  : LabelMap :=
  fold_left
    (fun acc '(signalIndex, signal) => groupSignal acc fileIndex signalIndex signal)
    (combine (seq 0 (List.length (signals (header file)))) (signals (header file)))
    m.

Definition groupByLabel (overlappingFiles : list EDFFile) : LabelMap :=
  fold_left
    (fun acc '(fileIndex, file) => groupFile acc fileIndex file)
    (combine (seq 0 (List.length overlappingFiles)) overlappingFiles)
    [].

(** [Array.prototype.sort(compare)] is stable; with the consistent comparator
    used here the result is the one of a stable insertion sort.  [compare a b]
    positive puts [a] after [b]. *)
Section Sort.
Context {A : Type} (compare : A -> A -> Z).

Fixpoint sort_insert (x : A) (l : list A) : list A :=
  match l with
  | [] => [x]
  | y :: t =>
      if (0 <? compare x y)%Z then y :: sort_insert x t else x :: y :: t
  end.

Definition sort (l : list A) : list A := fold_right sort_insert [] l.
End Sort.

Definition bySamplesPerRecord (a b : SignalInfo) : Z :=
  (samplesPerRecord (info_signal b) - samplesPerRecord (info_signal a))%Z.

Record Merged : Type := mkMerged {
  mergedSignals : list EDFSignal;
  mergedValues : list (list Q);
  mergedAnnotations : list EDFAnnotation
}.

(** The sample range of step 2 for the selected channel of [file]. *)
Definition extractSamples (start end_ : JS.Date) (file : EDFFile)
    (best : SignalInfo) (vals : list Q) : list Q :=
  let fileStart := JS.getTime (startTime (header file)) in
  let recordDurationMs := (JS.Fin (recordDuration (header file)) * JS.of_Z 1000)%js in
  let samplesPerRecord := JS.of_Z (samplesPerRecord (info_signal best)) in
  let samplesPerMs := (samplesPerRecord / recordDurationMs)%js in
  let startSample := JS.floor ((JS.getTime start - fileStart) * samplesPerMs)%js in
  let endSample := JS.ceil ((JS.getTime end_ - fileStart) * samplesPerMs)%js in
  JS.slice vals startSample endSample.

(** The body of the [for ... of labelToSignals.values()] loop.  [None] is the
    [TypeError] of reading a property of [undefined] (no first element, no
    such file, no sample array at the index). *)
Definition mergeLabel (start end_ : JS.Date) (overlappingFiles : list EDFFile)
    (acc : list EDFSignal * list (list Q)) (signalInfos : list SignalInfo)
  : option (list EDFSignal * list (list Q)) :=
  match sort bySamplesPerRecord signalInfos with
  | [] => None
  | best :: _ =>
      match nth_error overlappingFiles (info_fileIndex best) with
      | None => None
      | Some file =>
          match nth_error (values file) (info_index best) with
          | None => None
          | Some vals =>
              Some (fst acc ++ [info_signal best],
                    snd acc ++ [extractSamples start end_ file best vals])
          end
      end
  end.

Fixpoint mergeLabels (start end_ : JS.Date) (overlappingFiles : list EDFFile)
    (acc : list EDFSignal * list (list Q)) (groups : list (list SignalInfo))
  : option (list EDFSignal * list (list Q)) :=
  match groups with
  | [] => Some acc
  | signalInfos :: rest =>
      match mergeLabel start end_ overlappingFiles acc signalInfos with
      | None => None
      | Some acc' => mergeLabels start end_ overlappingFiles acc' rest
      end
  end.

(** The window test of the annotation loop. *)
Definition inWindow (start end_ : JS.Date) (file : EDFFile) (a : EDFAnnotation)
  : bool :=
  ((JS.getTime (startTime (header file)) + onset a * JS.of_Z 1000
      >=? JS.getTime start)%js
   && (JS.getTime (startTime (header file)) + onset a * JS.of_Z 1000
         <=? JS.getTime end_)%js)%bool.

Definition retime (start : JS.Date) (file : EDFFile) (a : EDFAnnotation)
  : EDFAnnotation :=
  {| onset :=
       (onset a
        + (JS.getTime (startTime (header file)) - JS.getTime start)
          / JS.of_Z 1000)%js;
     ann_duration := ann_duration a;
     description := description a |}.

Definition mergeAnnotations (start end_ : JS.Date)
    (overlappingFiles : list EDFFile) : list EDFAnnotation :=
  fold_left
    (fun acc file =>
       fold_left
         (fun acc' a =>
            if inWindow start end_ file a
            then acc' ++ [retime start file a]
            else acc')
         (annotations file) acc)
    overlappingFiles [].

(** [mergeSignals(start, end, overlappingFiles)]. *)
Definition mergeSignals (start end_ : JS.Date) (overlappingFiles : list EDFFile)
  : option Merged :=
  let labelToSignals := groupByLabel overlappingFiles in
  match mergeLabels start end_ overlappingFiles ([], [])
          (Map_values labelToSignals) with
  | None => None
  | Some (mergedSignals, mergedValues) =>
      Some {| mergedSignals := mergedSignals;
              mergedValues := mergedValues;
              mergedAnnotations :=
                mergeAnnotations start end_ overlappingFiles |}
  end.

(** ** [Loader.ts] *)

(** A therapy session over files of type [F]. *)
Record Session (F : Type) : Type := mkSession {
  session_start : JS.Date;
  session_end : JS.Date;
  files : list (string * F)
}.
Arguments mkSession {F}.
Arguments session_start {F}.
Arguments session_end {F}.
Arguments files {F}.

Inductive Error : Type :=
| UnexpectedRecordDuration (declared : Q)
| InvalidHeader
| TypeError
| RangeError.

(** ** [ResMedLoader.ts] *)

Module ResMedLoader.

Definition CANONICAL_NAMES : Synonyms :=
  [ ("Flow", ["Flow.40ms"]);
    ("MaskPressure", ["Press.40ms"; "MaskPress.2s"]);
    ("RespEvent", ["TrigCycEvt.40ms"]);
    ("InspPressure", ["Press.2s"; "IPAP"; "S.BL.IPAP"; "S.S.IPAP"]);
    ("ExpPressure",
      ["EprPress.2s"; "EPAP"; "S.BL.EPAP"; "EPRPress.2s"; "S.S.EPAP"]);
    ("Leak",
      ["Leck"; "Fuites"; "Fuite"; "Fuga"; "泄漏气"; "Lekk"; "Läck"; "LÃ¤ck";
       "Leak.2s"; "Sızıntı"]);
    ("RespRate", ["AF"; "FR"; "RespRate.2s"]);
    ("MinuteVent", ["VM"; "MinVent.2s"]);
    ("TidalVolume", ["VC"; "TidVol.2s"]);
    ("InspExpRatio", ["IERatio.2s"]);
    ("Snore", ["Snore.2s"]);
    ("FlowLim", ["FlowLim.2s"]);
    ("InspTime", ["Ti.2s"; "B5ITime.2s"]);
    ("ExpTime", ["B5ETime.2s"]);
    ("TgtMinuteVent", ["TgtVent.2s"]);
    ("Pulse", ["Puls"; "Pouls"; "Pols"; "Pulse.1s"; "Nabiz"]);
    ("SpO2", ["SpO2.1s"]) ]%string.

(** A file of the card as the loader sees it: the answers of an [edf-ts]
    [EDFReader] opened on its bytes, in the order in which the loader asks.
    A reader that throws is outside the model. *)
Record File : Type := mkReader {
  readHeader : EDFHeader;
  readSignal : nat -> list Q;
  readAnnotations : list EDFAnnotation;
  getRecordTimestamp : JS.num -> JS.num
}.

(** Modelled from the spec: the interval index (the library
    [node-interval-tree]) is any structure that supports insertion of closed
    spans and overlap queries, here the spans in the order of insertion with
    a linear scan; [search] returns the data of those that meet
    [[low, high]].  An insertion that the library refuses is outside the
    model. *)
Record Interval : Type := mkInterval {
  low : JS.num;
  high : JS.num;
  data : EDFFile
}.

Definition IntervalTree : Type := list Interval.

Definition tree_insert (tree : IntervalTree) (lo hi : JS.num) (d : EDFFile)
  : IntervalTree :=
  tree ++ [mkInterval lo hi d].

Definition tree_search (tree : IntervalTree) (lo hi : JS.num) : list EDFFile :=
  map data (filter (fun i => (low i <=? hi)%js && (lo <=? high i)%js) tree).

Definition recordDuration_fixed : Q := 60.

Definition withSignals (h : EDFHeader) (s : list EDFSignal) : EDFHeader :=
  {| patientId := patientId h;
     recordingId := recordingId h;
     startTime := startTime h;
     dataRecords := dataRecords h;
     recordDuration := recordDuration h;
     signalCount := signalCount h;
     signals := s;
     reserved := reserved h |}.

(** [path.split("/").slice(0, -1).join("/")]. *)
Fixpoint split_slash (s : string) : list string :=
  match s with
  | EmptyString => [EmptyString]
  | String c t =>
      let r := split_slash t in
      if Ascii.eqb c "/" then EmptyString :: r
      else match r with
           | [] => [String c EmptyString]
           | h :: tl => String c h :: tl
           end
  end.

Definition dirPathOf (path : string) : string :=
  String.concat "/" (removelast (split_slash path)).

Definition isEDF (p : string) : bool := JS.endsWith (JS.toLowerCase p) ".edf".

(** The files of the directory of [path], keyed relative to it. *)
Definition siblings (directory : list (string * File)) (path : string)
  : list (string * File) :=
  let dirPath := dirPathOf path in
  map (fun '(p, f) => (JS.sliceFrom p (String.length dirPath + 1), f))
    (filter (fun '(p, _) => JS.startsWith p (dirPath ++ "/") && isEDF p)
       directory).

(** [validateDirectory(directory)]: some key is the summary file [STR.edf],
    in any letter case. *)
Definition validateDirectory (directory : list (string * File)) : bool :=
  existsb (fun path => String.eqb (JS.toLowerCase path) "str.edf")
    (map fst directory).

Definition endOfRecords (h : EDFHeader) (file : File) : JS.num :=
  let endOffset := getRecordTimestamp file (dataRecords h - JS.of_Z 1)%js in
  (JS.getTime (startTime h)
   + (endOffset + JS.Fin (recordDuration h)) * JS.of_Z 1000)%js.

(** The body of the [for] loop of [sessions]; [continue] returns the
    sessions found so far. *)
Definition discover (directory : list (string * File))
    (sessions : list (Session File)) (entry : string * File)
  : list (Session File) :=
  let '(path, file) := entry in
  let h := readHeader file in
  let files := siblings directory path in
  if (dataRecords h <=? JS.of_Z 0)%js then sessions
  else
    sessions
    ++ [ {| session_start := startTime h;
            session_end := JS.new_Date (endOfRecords h file);
            files := files |} ].

(** [sessions(directory)]. *)
Definition sessions (directory : list (string * File)) : list (Session File) :=
  let sessionFiles :=
    filter (fun '(path, _) => JS.endsWith (JS.toLowerCase path) "_brp.edf")
      directory in
  fold_left (discover directory) sessionFiles [].

(** No index kept by [filterSignals] is past the end of the sample arrays that
    [loadSession] reads, so no slot is [undefined]
    ([loadSession_values_defined]) and the default is never taken. *)
Definition definedValues (vals : list (option (list Q))) : list (list Q) :=
  map (fun v => v ?? []) vals.

Definition housekeeping : LabelFilter :=
  {| allowedLabels := None;
     disallowedLabels := Some ["EDF Annotations"; "Crc16"; ""]%string |}.

(** Onset-as-end-time correction of an annotation. *)
Definition correctOnset (ann : EDFAnnotation) : EDFAnnotation :=
  {| onset :=
       JS.Math_max
         [JS.of_Z 0; (onset ann - (ann_duration ann ?? JS.of_Z 0))%js];
     ann_duration := ann_duration ann;
     description := description ann |}.

(** The body of the [for] loop of [loadSession]: the tree after the file, or
    the error thrown. *)
Definition loadFile (session : Session File) (tree : IntervalTree)
    (file : File) : Error + IntervalTree :=
  let h := readHeader file in
  if negb (Qeq_bool (recordDuration h) recordDuration_fixed)
     && negb (Qeq_bool (recordDuration h) 0)
  then inl (UnexpectedRecordDuration (recordDuration h))
  else
    let vals := map (readSignal file) (seq 0 (List.length (signals h))) in
    let '(filteredSignals, filteredValues) :=
      filterSignals (signals h) vals housekeeping in
    let h := withSignals h filteredSignals in
    let vals := definedValues filteredValues in
    let h := withSignals h (canonicalizeLabels (signals h) CANONICAL_NAMES) in
    let anns := map correctOnset (readAnnotations file) in
    let start := JS.getTime (startTime h) in
    if (dataRecords h <=? JS.of_Z 0)%js then inr tree
    else
      let end0 := endOfRecords h file in
      let end1 :=
        match reserved h with
        | Some r => if String.eqb r "EDF+D"
                    then JS.getTime (session_end session) else end0
        | None => end0
        end in
      inr (tree_insert tree start end1
             {| header := h;
                values := vals;
                annotations := anns;
                duration := Some ((end1 - start) / JS.of_Z 1000)%js |}).

Fixpoint loadFiles (session : Session File) (tree : IntervalTree)
    (fs : list File) : Error + IntervalTree :=
  match fs with
  | [] => inr tree
  | file :: rest =>
      match loadFile session tree file with
      | inl e => inl e
      | inr tree' => loadFiles session tree' rest
      end
  end.

(** [find] followed by [indexOf]: the first signal whose lower-cased label
    contains the keyword is also the first element identical to it. *)
Fixpoint indexOfLabel (keyword : string) (sigs : list EDFSignal) : option nat :=
  match sigs with
  | [] => None
  | s :: rest =>
      if JS.includes (JS.toLowerCase (label s)) keyword then Some O
      else option_map S (indexOfLabel keyword rest)
  end.

Definition removeChannel (file : EDFFile) (index : nat) : EDFFile :=
  let h := header file in
  {| header :=
       {| patientId := patientId h;
          recordingId := recordingId h;
          startTime := startTime h;
          dataRecords := dataRecords h;
          recordDuration := recordDuration h;
          signalCount := signalCount h - 1;
          signals := JS.splice1 index (signals h);
          reserved := reserved h |};
     values := JS.splice1 index (values file);
     annotations := annotations file;
     duration := duration file |}.

(** One block of [postProcess], for the keyword ["spo2"] or ["pulse"]. *)
Definition dropUnfitted (keyword : string) (file : EDFFile) : option EDFFile :=
  match indexOfLabel keyword (signals (header file)) with
  | None => Some file
  | Some index =>
      match nth_error (values file) index with
      | None => None
      | Some vals =>
          let hasValidValues := existsb (fun value => negb (Qle_bool value 0)) vals in
          if negb hasValidValues then Some (removeChannel file index)
          else Some file
      end
  end.

(** [postProcess(file)]; [None] is the [TypeError] of [values.some] on a
    missing sample array. *)
Definition postProcess (file : EDFFile) : option EDFFile :=
  match dropUnfitted "spo2" file with
  | None => None
  | Some file1 => dropUnfitted "pulse" file1
  end.

Section Writer.
(** [EDFWriter.patientId({})] and [EDFWriter.recordingId({ startDate })] of
    [edf-ts]. *)
Variable anonymousPatientId : string.
Variable recordingIdOf : JS.Date -> string.

(** [loadSession(session)].  The call of [findCommonTimeRange] passes no
    record duration: the parameter is [undefined], NaN as a number. *)
Definition loadSession (session : Session File) : Error + EDFFile :=
  match loadFiles session [] (map snd (files session)) with
  | inl e => inl e
  | inr tree =>
      let overlappingFiles :=
        tree_search tree (JS.getTime (session_start session))
          (JS.getTime (session_end session)) in
      let range := findCommonTimeRange overlappingFiles JS.NaN in
      let overlappingStart := range_start range in
      let overlappingEnd := range_end range in
      match mergeSignals overlappingStart overlappingEnd overlappingFiles with
      | None => inl TypeError
      | Some merged =>
          let out :=
            {| header :=
                 {| patientId := anonymousPatientId;
                    recordingId := recordingIdOf overlappingStart;
                    startTime := overlappingStart;
                    dataRecords :=
                      JS.ceil
                        ((JS.getTime overlappingEnd
                          - JS.getTime overlappingStart)
                         / (JS.Fin recordDuration_fixed * JS.of_Z 1000))%js;
                    recordDuration := recordDuration_fixed;
                    signalCount :=
                      Z.of_nat (List.length (mergedSignals merged));
                    signals := mergedSignals merged;
                    reserved := None |};
               values := mergedValues merged;
               annotations := mergedAnnotations merged;
               duration := None |} in
          match postProcess out with
          | None => inl TypeError
          | Some f => inr f
          end
      end
  end.
End Writer.

End ResMedLoader.

(** ** [SpO2AssistantLoader.ts] *)

Module SpO2AssistantLoader.

(** ECMAScript allows an [ArrayBuffer] of no more than [2^53 - 1] bytes. *)
Definition maxByteLength : Z := 2 ^ 53 - 1.

(** An [ArrayBuffer] and the [DataView] on it. *)
Record Buffer : Type := mkBuffer {
  bytes : list Byte.byte;
  allocated : (Z.of_nat (List.length bytes) <=? maxByteLength)%Z = true
}.

Definition byteLength (buffer : Buffer) : Z :=
  Z.of_nat (List.length (bytes buffer)).

Definition byteAt (view : Buffer) (i : Z) : option Z :=
  if (i <? 0)%Z then None
  else option_map (fun b => Z.of_N (Byte.to_N b))
         (nth_error (bytes view) (Z.to_nat i)).

(** [ToIndex] of a byte offset: truncated; [None] is a [RangeError]. *)
Definition toIndex (byteOffset : JS.num) : option Z :=
  match byteOffset with
  | JS.Fin q => if (JS.Qtrunc q <? 0)%Z then None else Some (JS.Qtrunc q)
  | JS.NaN => Some 0%Z
  | _ => None
  end.

Definition getUint8 (view : Buffer) (byteOffset : JS.num) : option Z :=
  match toIndex byteOffset with
  | Some i => byteAt view i
  | None => None
  end.

(** Little-endian reads of [n] bytes from an integral offset. *)
Fixpoint getLittleEndian (view : Buffer) (offset : Z) (n : nat) : option Z :=
  match n with
  | O => Some 0%Z
  | S n' =>
      match byteAt view offset, getLittleEndian view (offset + 1) n' with
      | Some b, Some rest => Some (b + 256 * rest)%Z
      | _, _ => None
      end
  end.

Definition getUint16 (view : Buffer) (offset : Z) : option Z :=
  getLittleEndian view offset 2.

Definition getUint32 (view : Buffer) (offset : Z) : option Z :=
  getLittleEndian view offset 4.

Record SpO2AssistantHeaderInfo : Type := mkInfo {
  start : JS.Date;
  samples : Z;
  headerOffset : Z
}.

Record Scan : Type := mkScan {
  cursor : JS.num;
  valuesSpO2 : list Q;
  valuesPulse : list Q
}.

(** The sample loop of [loadSession], [n] iterations from the state [st].
    [None] is a [RangeError] of the view. *)
Fixpoint scan (view : Buffer) (fileSize bytesPerRecord : JS.num) (n : nat)
    (st : Scan) : option Scan :=
  match n with
  | O => Some st
  | S n' =>
      let cursor1 :=
        if (bytesPerRecord >? JS.of_Z 2)%js
        then (cursor st + (bytesPerRecord - JS.of_Z 2))%js
        else cursor st in
      if (cursor1 + JS.of_Z 2 >? fileSize)%js
      then Some {| cursor := cursor1;
                   valuesSpO2 := valuesSpO2 st;
                   valuesPulse := valuesPulse st |}
      else
        match getUint8 view cursor1, getUint8 view (cursor1 + JS.of_Z 1)%js with
        | Some spo2, Some pulse =>
            let '(s, p) :=
              if ((spo2 =? 127) && (pulse =? 255))%Z
              then (0%Z, 0%Z)
              else (spo2, pulse) in
            scan view fileSize bytesPerRecord n'
              {| cursor := (cursor1 + JS.of_Z 2)%js;
                 valuesSpO2 := valuesSpO2 st ++ [inject_Z s];
                 valuesPulse := valuesPulse st ++ [inject_Z p] |}
        | _, _ => None
        end
  end.

Definition oximeterSignal (l transducer dimension : string) (pmax : Q)
  : EDFSignal :=
  {| label := l;
     transducerType := transducer;
     physicalDimension := dimension;
     physicalMin := 0;
     physicalMax := pmax;
     digitalMin := 0;
     digitalMax := 255;
     prefiltering := "";
     samplesPerRecord := 30;
     sig_reserved := None |}.

Section Host.
(** [new Date(year, monthIndex, day, hour, minute, second)] in the time zone
    of the host. *)
Variable localDate : Z -> Z -> Z -> Z -> Z -> Z -> JS.Date.
(** [EDFWriter.patientId({})] and [EDFWriter.recordingId({ startDate })]. *)
Variable anonymousPatientId : string.
Variable recordingIdOf : JS.Date -> string.

(** [parseHeader(buffer)]: [inl] is the [RangeError] of a read outside the
    buffer, [inr None] is [null]. *)
Definition parseHeader (buffer : Buffer)
  : Error + option SpO2AssistantHeaderInfo :=
  match getUint16 buffer 0 with
  | None => inl RangeError
  | Some pos =>
      let headerOffset := pos in
      if (byteLength buffer <? headerOffset + 228)%Z then inr None
      else
        match getUint32 buffer (headerOffset + 200),
              getUint32 buffer (headerOffset + 204),
              getUint32 buffer (headerOffset + 208),
              getUint32 buffer (headerOffset + 212),
              getUint32 buffer (headerOffset + 216),
              getUint32 buffer (headerOffset + 220),
              getUint32 buffer (headerOffset + 224) with
        | Some year, Some month, Some day, Some hour, Some minute,
          Some second, Some samples =>
            inr (Some {| start := localDate year (month - 1) day hour minute second;
                         samples := samples;
                         headerOffset := headerOffset |})
        | _, _, _, _, _, _, _ => inl RangeError
        end
  end.

(** [validateDirectory(directory)]: some key ends in [.spo2], in any letter
    case. *)
Definition validateDirectory (directory : list (string * Buffer)) : bool :=
  existsb (fun path => JS.endsWith (JS.toLowerCase path) ".spo2")
    (map fst directory).

(** The body of the [for] loop of [sessions]: the sessions after the entry,
    or the [RangeError] of [parseHeader]. *)
Definition discover (found : list (Session Buffer)) (entry : string * Buffer)
  : Error + list (Session Buffer) :=
  let '(path, file) := entry in
  if negb (JS.endsWith (JS.toLowerCase path) ".spo2") then inr found
  else
    match parseHeader file with
    | inl e => inl e
    | inr None => inr found
    | inr (Some headerInfo) =>
        let end_ :=
          JS.new_Date
            (JS.getTime (start headerInfo)
             + JS.of_Z (samples headerInfo) * JS.of_Z 1000)%js in
        inr (found
             ++ [ {| session_start := start headerInfo;
                     session_end := end_;
                     files := [(path, file)] |} ])
    end.

Fixpoint discoverAll (found : list (Session Buffer))
    (entries : list (string * Buffer)) : Error + list (Session Buffer) :=
  match entries with
  | [] => inr found
  | entry :: rest =>
      match discover found entry with
      | inl e => inl e
      | inr found' => discoverAll found' rest
      end
  end.

(** [sessions(directory)]. *)
Definition sessions (directory : list (string * Buffer))
  : Error + list (Session Buffer) :=
  discoverAll [] directory.

(** The decoding part of [loadSession]: the two sample arrays. *)
Definition decodeSamples (buffer : Buffer) (info : SpO2AssistantHeaderInfo)
  : option Scan :=
  let cursor0 := JS.of_Z (headerOffset info + 228) in
  let fileSize := JS.of_Z (byteLength buffer) in
  let bytesPerRecord := ((fileSize - cursor0) / JS.of_Z (samples info))%js in
  scan buffer fileSize bytesPerRecord (Z.to_nat (samples info))
    {| cursor := cursor0; valuesSpO2 := []; valuesPulse := [] |}.

(** [loadSession(session)]. *)
Definition loadSession (session : Session Buffer) : Error + EDFFile :=
  match files session with
  | [] => inl TypeError
  | (_, buffer) :: _ =>
      match parseHeader buffer with
      | inl e => inl e
      | inr None => inl InvalidHeader
      | inr (Some info) =>
          match decodeSamples buffer info with
          | None => inl RangeError
          | Some st =>
              inr {| header :=
                       {| patientId := anonymousPatientId;
                          recordingId := recordingIdOf (start info);
                          startTime := start info;
                          dataRecords :=
                            JS.floor (JS.of_Z (samples info) / JS.of_Z 30)%js;
                          recordDuration := 30;
                          signalCount := 2;
                          signals :=
                            [ oximeterSignal "SpO2" "PPG oximeter" "%" 100;
                              oximeterSignal "Pulse" "PPG pulse sensor" "bpm" 250 ];
                          reserved := None |};
                     values := [valuesSpO2 st; valuesPulse st];
                     annotations := [];
                     duration := None |}
          end
      end
  end.
End Host.

End SpO2AssistantLoader.

(** ** Vocabulary of the properties *)

(** *** Aligned window ([findCommonTimeRange]) *)

(** A File Record with a start time and a duration: the start is a valid date
    and the duration a finite number of seconds. *)
Definition fileStart (f : EDFFile) : Z :=
  match startTime (header f) with JS.DateOf t => t | JS.InvalidDate => 0%Z end.

Definition fileDuration (f : EDFFile) : Q :=
  match duration f with Some (JS.Fin d) => d | _ => 0 end.

Definition fileEnd (f : EDFFile) : Q :=
  inject_Z (fileStart f) + fileDuration f * 1000.

Definition timed (f : EDFFile) : Prop :=
  startTime (header f) = JS.DateOf (fileStart f)
  /\ duration f = Some (JS.Fin (fileDuration f)).

(** The remainder of [%] on two finite numbers. *)
Definition Qrem (x y : Q) : Q := x - y * inject_Z (JS.Qtrunc (x / y)).

(** What the window of [files] for a record duration of [rd] seconds is said
    to be: it starts at the latest start [s], ends at the earliest end
    [rawEnd] less the remainder of [rawEnd - s] by the record duration, and,
    when the files overlap, lies inside every file and spans a whole number
    of records. *)
Definition alignedWindow (files : list EDFFile) (rd : Q) : Prop :=
  exists (s e : Z) (rawEnd : Q),
    findCommonTimeRange files (JS.Fin rd)
    = {| range_start := JS.DateOf s; range_end := JS.DateOf e |}
    /\ In s (map fileStart files)
    /\ (forall f, In f files -> (fileStart f <= s)%Z)
    /\ (exists f, In f files /\ rawEnd == fileEnd f)
    /\ (forall f, In f files -> rawEnd <= fileEnd f)
    /\ inject_Z e == rawEnd - Qrem (rawEnd - inject_Z s) (rd * 1000)
    /\ (inject_Z s <= rawEnd ->
        (forall f, In f files ->
           (fileStart f <= s)%Z /\ inject_Z e <= fileEnd f)
        /\ exists k : Z, inject_Z (e - s) == inject_Z k * (rd * 1000)).

(** A record duration that is a whole number of milliseconds, of no more
    than [2^53]: its product with 1000 is computed without rounding. *)
Definition wholeMilliseconds (rd : Q) : Prop :=
  exists m : Z, rd * 1000 == inject_Z m /\ (m <= 2 ^ 53)%Z.

(** The end of the file in whole milliseconds. *)
Definition fileEndZ (f : EDFFile) : Z := Qfloor (fileEnd f).

(** The end of the file is a whole number of milliseconds, and its start and
    its end lie within [2^52] ms of the epoch: then [start + duration * 1000]
    is computed without rounding, and so are the differences of such times. *)
Definition wholeTimes (f : EDFFile) : Prop :=
  fileEnd f == inject_Z (fileEndZ f)
  /\ (Z.abs (fileStart f) <= 2 ^ 52)%Z
  /\ (Z.abs (fileEndZ f) <= 2 ^ 52)%Z.

(** A header with the given start, record duration and signals. *)
Definition emptyHeader (start : Z) (rd : Q) (sigs : list EDFSignal)
  : EDFHeader :=
  {| patientId := "";
     recordingId := "";
     startTime := JS.DateOf start;
     dataRecords := JS.of_Z 1;
     recordDuration := rd;
     signalCount := Z.of_nat (List.length sigs);
     signals := sigs;
     reserved := None |}.

(** One file of a sixteenth of a second, for a record duration of a sixteenth
    of a second (62.5 ms). *)
Definition sixteenth : EDFFile :=
  {| header := emptyHeader 0 (1 # 16) [];
     values := [];
     annotations := [];
     duration := Some (JS.Fin (1 # 16)) |}.

(** Two overlapping records: two minutes from 0 and 120.5 s from 30 s. *)
Definition recordA : EDFFile :=
  {| header := emptyHeader 0 60 [];
     values := [];
     annotations := [];
     duration := Some (JS.Fin 120) |}.

Definition recordB : EDFFile :=
  {| header := emptyHeader 30000 60 [];
     values := [];
     annotations := [];
     duration := Some (JS.Fin (241 # 2)) |}.

(** *** Best channel per label ([mergeSignals]) *)

(** The channels of the candidate files in the order in which step 1 meets
    them: file by file, signal by signal. *)
Definition fileChannels (fileIndex : nat) (file : EDFFile) : list SignalInfo :=
  map (fun '(signalIndex, signal) => mkInfo signal signalIndex fileIndex)
    (combine (seq 0 (List.length (signals (header file))))
       (signals (header file))).

Definition channelsFrom (first : nat) (files : list EDFFile)
  : list SignalInfo :=
  flat_map (fun '(fileIndex, file) => fileChannels fileIndex file)
    (combine (seq first (List.length files)) files).

Definition channels (files : list EDFFile) : list SignalInfo :=
  channelsFrom 0 files.

Definition sameLabel (l : string) (c : SignalInfo) : bool :=
  String.eqb (label (info_signal c)) l.

Definition candidates (l : string) (files : list EDFFile) : list SignalInfo :=
  filter (sameLabel l) (channels files).

Definition rate (c : SignalInfo) : Z := samplesPerRecord (info_signal c).

(** [best] has the highest samples-per-record of [cands] and is the first of
    those that have it. *)
Definition firstHighest (cands : list SignalInfo) (best : SignalInfo) : Prop :=
  exists pre post,
    cands = pre ++ best :: post
    /\ (forall c, In c pre -> (rate c < rate best)%Z)
    /\ (forall c, In c post -> (rate c <= rate best)%Z).

Definition labelPresent (l : string) (files : list EDFFile) : Prop :=
  exists f s, In f files /\ In s (signals (header f)) /\ label s = l.

(** The merged output carries, for each label of the candidates, one channel:
    descriptor and samples of the first channel of highest rate. *)
Definition selectsBest (start end_ : JS.Date) (files : list EDFFile)
    (out : Merged) : Prop :=
  forall l, labelPresent l files ->
    exists j best file vals,
      firstHighest (candidates l files) best
      /\ nth_error (mergedSignals out) j = Some (info_signal best)
      /\ nth_error files (info_fileIndex best) = Some file
      /\ nth_error (values file) (info_index best) = Some vals
      /\ nth_error (mergedValues out) j
         = Some (extractSamples start end_ file best vals)
      /\ (forall j' s', nth_error (mergedSignals out) j' = Some s' ->
                        label s' = l -> j' = j).

(** The scenario of two candidates of one label at 1500 and at 30 samples per
    record, in either order. *)
Definition rates1500and30 (l : string) (files : list EDFFile) : Prop :=
  exists c1 c2,
    candidates l files = [c1; c2]
    /\ ((rate c1 = 1500 /\ rate c2 = 30)%Z \/ (rate c1 = 30 /\ rate c2 = 1500)%Z).

Definition selected (out : Merged) (l : string) (spr : Z) : Prop :=
  exists j s, nth_error (mergedSignals out) j = Some s
              /\ label s = l /\ samplesPerRecord s = spr.

(** Every signal of the file has a sample array. *)
Definition hasArrays (f : EDFFile) : Prop :=
  (List.length (signals (header f)) <= List.length (values f))%nat.

Definition channel (l : string) (spr : Z) : EDFSignal :=
  {| label := l;
     transducerType := "";
     physicalDimension := "";
     physicalMin := 0;
     physicalMax := 1;
     digitalMin := 0;
     digitalMax := 1;
     prefiltering := "";
     samplesPerRecord := spr;
     sig_reserved := None |}.

(** Two one-minute files from the same start, with pressure at 30 and at 1500
    samples per record. *)
Definition slowPress : EDFFile :=
  {| header := emptyHeader 0 60 [channel "Press" 30];
     values := [[1; 2; 3]];
     annotations := [];
     duration := Some (JS.Fin 60) |}.

Definition fastPress : EDFFile :=
  {| header := emptyHeader 0 60 [channel "Flow" 1500; channel "Press" 1500];
     values := [[4; 5]; [6; 7; 8; 9]];
     annotations := [];
     duration := Some (JS.Fin 60) |}.

(** Step 1 of [mergeSignals] for one channel. *)
Definition step (m : LabelMap) (c : SignalInfo) : LabelMap :=
  groupSignal m (info_fileIndex c) (info_index c) (info_signal c).

(** The map after the channels [cs]: every label that occurs holds the
    channels of that label, in order, and no label occurs twice. *)
Definition grouped (m : LabelMap) (cs : list SignalInfo) : Prop :=
  NoDup (map fst m)
  /\ forall l, Map_get m l
               = match filter (sameLabel l) cs with
                 | [] => None
                 | g => Some g
                 end.


(** The choice that step 2 makes for one group: the selected channel, its
    file and its sample array. *)
Definition pick (files : list EDFFile) (signalInfos : list SignalInfo)
  : option (SignalInfo * EDFFile * list Q) :=
  match sort bySamplesPerRecord signalInfos with
  | [] => None
  | best :: _ =>
      match nth_error files (info_fileIndex best) with
      | None => None
      | Some file =>
          match nth_error (values file) (info_index best) with
          | None => None
          | Some vals => Some (best, file, vals)
          end
      end
  end.

Definition pickedSignal (p : SignalInfo * EDFFile * list Q) : EDFSignal :=
  info_signal (fst (fst p)).

Definition pickedSamples (start end_ : JS.Date)
    (p : SignalInfo * EDFFile * list Q) : list Q :=
  extractSamples start end_ (snd (fst p)) (fst (fst p)) (snd p).

(** *** Annotations of the merged output *)

(** The absolute time of the annotation as [mergeSignals] computes it:
    [fileStart + onset * 1000] in binary64 arithmetic. *)
Definition absoluteTime (file : EDFFile) (a : EDFAnnotation) : JS.num :=
  (JS.getTime (startTime (header file)) + onset a * JS.of_Z 1000)%js.

(** The computed absolute time of the annotation lies in the closed window;
    nothing lies in a window with an invalid bound. *)
Definition withinWindow (start end_ : JS.Date) (file : EDFFile)
    (a : EDFAnnotation) : Prop :=
  match start, end_, absoluteTime file a with
  | JS.DateOf ws, JS.DateOf we, JS.Fin t =>
      inject_Z ws <= t /\ t <= inject_Z we
  | _, _, _ => False
  end.

(** [a'] is [a] with its onset moved by the offset of the file from the
    window start, quotient and sum computed in binary64 arithmetic. *)
Definition retimed (start : JS.Date) (file : EDFFile) (a a' : EDFAnnotation)
  : Prop :=
  onset a'
  = (onset a
     + (JS.getTime (startTime (header file)) - JS.getTime start)
       / JS.of_Z 1000)%js
  /\ ann_duration a' = ann_duration a
  /\ description a' = description a.

(** The onset of [a'] is that of [a] plus exactly
    [(fileStart - windowStart) / 1000]. *)
Definition shiftedExactly (start : JS.Date) (file : EDFFile)
    (a a' : EDFAnnotation) : Prop :=
  exists (ws fs : Z) (o o' : Q),
    start = JS.DateOf ws
    /\ startTime (header file) = JS.DateOf fs
    /\ onset a = JS.Fin o
    /\ onset a' = JS.Fin o'
    /\ o' - o == (inject_Z fs - inject_Z ws) / 1000.

(** What is said of the onsets: every annotation of the output is an
    annotation of a candidate moved by exactly the offset of its file. *)
Definition shiftsExactly (start end_ : JS.Date) (files : list EDFFile)
  : Prop :=
  forall out a',
    mergeSignals start end_ files = Some out ->
    In a' (mergedAnnotations out) ->
    exists file a,
      In file files /\ In a (annotations file)
      /\ shiftedExactly start file a a'.

(** The offset of the file from the window start is a binary64 number of
    seconds, and so is the onset of [a] moved by it: nothing is rounded. *)
Definition exactShift (start : JS.Date) (file : EDFFile) (a : EDFAnnotation)
  : Prop :=
  exists (ws fs : Z) (o : Q),
    start = JS.DateOf ws
    /\ startTime (header file) = JS.DateOf fs
    /\ onset a = JS.Fin o
    /\ (Z.abs (fs - ws) <= 2 ^ 53)%Z
    /\ JS.binary64 ((inject_Z fs - inject_Z ws) / 1000)
    /\ JS.binary64 (o + (inject_Z fs - inject_Z ws) / 1000).

Definition note (o : Q) (text : string) : EDFAnnotation :=
  {| onset := JS.Fin o; ann_duration := None; description := text |}.

(** A candidate from 30 s with annotations at 1.5 s and at 45 s after its
    start, for the window from 0 to 60 s. *)
Definition annotated : EDFFile :=
  {| header := emptyHeader 30000 60 [channel "Flow" 1500];
     values := [[1; 2]];
     annotations := [note (3 # 2) "Hypopnea"; note 45 "Arousal"];
     duration := Some (JS.Fin 60) |}.

(** The binary64 number nearest to a tenth. *)
Definition tenth : Q := 3602879701896397 # 36028797018963968.

(** A candidate that starts 200 ms after the window does, with an annotation
    a tenth of a second after its start. *)
Definition lateStart : EDFFile :=
  {| header := emptyHeader 200 60 [channel "Flow" 1500];
     values := [[1; 2]];
     annotations := [note tenth "Hypopnea"];
     duration := Some (JS.Fin 60) |}.

(** The binary64 number nearest to a thousandth. *)
Definition thousandth : Q := 1152921504606847 # 1152921504606846976.

(** A candidate from 0 with an annotation a thousandth of a second after its
    start. *)
Definition earlyNote : EDFFile :=
  {| header := emptyHeader 0 60 [channel "Flow" 1500];
     values := [[1; 2]];
     annotations := [note thousandth "Hypopnea"];
     duration := Some (JS.Fin 60) |}.

(** *** Length of the extracted sample arrays *)

(** The candidates that [loadSession] hands to [mergeSignals]: the files it
    inserted that meet the bounds of the session. *)
Definition candidatesOf (session : Session ResMedLoader.File) : list EDFFile :=
  match ResMedLoader.loadFiles session [] (map snd (files session)) with
  | inr tree =>
      ResMedLoader.tree_search tree (JS.getTime (session_start session))
        (JS.getTime (session_end session))
  | inl _ => []
  end.


(** The window length times the sample rate of the channel. *)
Definition nominalSamples (ws we : Z) (file : EDFFile) (best : SignalInfo) : Q :=
  inject_Z (we - ws) * inject_Z (rate best)
  / (recordDuration (header file) * 1000).






(** A discontinuous (EDF+D) recording of one record of 30 samples, in a
    session of ten minutes: its end is taken from the session. *)
Definition discontinuousFile : ResMedLoader.File :=
  {| ResMedLoader.readHeader :=
       {| patientId := "";
          recordingId := "";
          startTime := JS.DateOf 0;
          dataRecords := JS.of_Z 1;
          recordDuration := 60;
          signalCount := 1;
          signals := [channel "Press.2s" 30];
          reserved := Some "EDF+D"%string |};
     ResMedLoader.readSignal := fun _ => repeat 1 30;
     ResMedLoader.readAnnotations := [];
     ResMedLoader.getRecordTimestamp := fun _ => JS.of_Z 0 |}.

Definition discontinuousSession : Session ResMedLoader.File :=
  {| session_start := JS.DateOf 0;
     session_end := JS.DateOf 600000;
     files := [("20241208_013939_PLD.edf"%string, discontinuousFile)] |}.


(** Eight records of 25 samples each, from 0. *)
Definition eightRecords : EDFFile :=
  {| header := emptyHeader 0 60 [channel "Leak" 25];
     values := [repeat 1 200];
     annotations := [];
     duration := Some (JS.Fin 480) |}.

(** *** Canonical labels *)

(** Every field of the descriptor but the label. *)
Definition sameButLabel (s s' : EDFSignal) : Prop :=
  transducerType s' = transducerType s
  /\ physicalDimension s' = physicalDimension s
  /\ physicalMin s' = physicalMin s
  /\ physicalMax s' = physicalMax s
  /\ digitalMin s' = digitalMin s
  /\ digitalMax s' = digitalMax s
  /\ prefiltering s' = prefiltering s
  /\ samplesPerRecord s' = samplesPerRecord s
  /\ sig_reserved s' = sig_reserved s.

(** The label [l] is, letter for letter, an alias of [canonical], and of no
    entry of the table before it. *)
Definition firstAliasOf (synonyms : Synonyms) (l canonical : string) : Prop :=
  exists before aliases after,
    synonyms = before ++ (canonical, aliases) :: after
    /\ In l aliases
    /\ forall entry, In entry before -> ~ In l (snd entry).

Definition unmatched (synonyms : Synonyms) (l : string) : Prop :=
  forall entry, In entry synonyms -> ~ In l (snd entry).

Definition canonicalized (synonyms : Synonyms) (s s' : EDFSignal) : Prop :=
  sameButLabel s s'
  /\ (firstAliasOf synonyms (label s) (label s')
      \/ (unmatched synonyms (label s) /\ s' = s)).

(** *** Record duration and record count of the files of a session *)

(** The declared record duration is neither the fixed 60 s nor 0. *)
Definition mismatched (d : Q) : Prop := ~ d == 60 /\ ~ d == 0.

Definition declaresMismatch (file : ResMedLoader.File) : Prop :=
  mismatched (recordDuration (ResMedLoader.readHeader file)).

Definition nonPositiveCount (file : ResMedLoader.File) : Prop :=
  (dataRecords (ResMedLoader.readHeader file) <=? JS.of_Z 0)%js = true.

(** The file adds no session to those found, whatever is processed before and
    after it. *)
Definition skippedInDiscovery (file : ResMedLoader.File) : Prop :=
  forall directory path before after found,
    fold_left (ResMedLoader.discover directory)
      (before ++ (path, file) :: after) found
    = fold_left (ResMedLoader.discover directory) (before ++ after) found.

(** The file adds nothing to the interval index and raises no error, whatever
    is processed before and after it. *)
Definition skippedInReconciliation (file : ResMedLoader.File) : Prop :=
  forall session tree before after,
    ResMedLoader.loadFiles session tree (before ++ file :: after)
    = ResMedLoader.loadFiles session tree (before ++ after).

Definition skippedSilently (file : ResMedLoader.File) : Prop :=
  skippedInDiscovery file /\ skippedInReconciliation file.

Definition reader (rd : Q) (records : Z) (sigs : list EDFSignal)
  : ResMedLoader.File :=
  {| ResMedLoader.readHeader :=
       {| patientId := "";
          recordingId := "";
          startTime := JS.DateOf 0;
          dataRecords := JS.of_Z records;
          recordDuration := rd;
          signalCount := Z.of_nat (List.length sigs);
          signals := sigs;
          reserved := None |};
     ResMedLoader.readSignal := fun _ => [];
     ResMedLoader.readAnnotations := [];
     ResMedLoader.getRecordTimestamp := fun _ => JS.of_Z 0 |}.

(** A file of one-second records that holds no record. *)
Definition emptyOneSecond : ResMedLoader.File := reader 1 0 [].

(** A session of a good file and of a file of one-second records. *)
Definition mixedSession : Session ResMedLoader.File :=
  {| session_start := JS.DateOf 0;
     session_end := JS.DateOf 60000;
     files := [("a_BRP.edf"%string, reader 60 1 []);
               ("a_PLD.edf"%string, reader 1 1 [])] |}.

(** *** Channels of unfitted sensors ([postProcess]) *)

(** The lower-cased label contains the keyword. *)
Definition mentions (keyword : string) (s : EDFSignal) : Prop :=
  exists before after,
    JS.toLowerCase (label s) = (before ++ keyword ++ after)%string.

(** The optional channel for the keyword: the first signal that mentions it,
    at [index], with its sample array [vals]. *)
Definition optionalChannel (keyword : string) (file : EDFFile) (index : nat)
    (vals : list Q) : Prop :=
  (exists s, nth_error (signals (header file)) index = Some s
             /\ mentions keyword s)
  /\ (forall i s, (i < index)%nat ->
                  nth_error (signals (header file)) i = Some s ->
                  ~ mentions keyword s)
  /\ nth_error (values file) index = Some vals.

Definition noChannel (keyword : string) (file : EDFFile) : Prop :=
  forall s, In s (signals (header file)) -> ~ mentions keyword s.

Definition someValid (vals : list Q) : Prop := exists v, In v vals /\ 0 < v.

(** [l'] is [l] without its element at [index]. *)
Definition without {A : Type} (index : nat) (l l' : list A) : Prop :=
  l' = firstn index l ++ skipn (S index) l.

(** [file'] is [file] without the channel at [index]: descriptor and sample
    array are gone, the signal count is one less, the rest is as it was. *)
Definition channelRemoved (index : nat) (file file' : EDFFile) : Prop :=
  without index (signals (header file)) (signals (header file'))
  /\ without index (values file) (values file')
  /\ signalCount (header file') = (signalCount (header file) - 1)%Z
  /\ patientId (header file') = patientId (header file)
  /\ recordingId (header file') = recordingId (header file)
  /\ startTime (header file') = startTime (header file)
  /\ dataRecords (header file') = dataRecords (header file)
  /\ recordDuration (header file') = recordDuration (header file)
  /\ reserved (header file') = reserved (header file)
  /\ annotations file' = annotations file
  /\ duration file' = duration file.

(** What one block of [postProcess] does with the optional channel. *)
Definition blockSpec (keyword : string) (file : EDFFile) (index : nat)
    (vals : list Q) : Prop :=
  (ResMedLoader.dropUnfitted keyword file = Some file <-> someValid vals)
  /\ (~ someValid vals ->
      exists file', ResMedLoader.dropUnfitted keyword file = Some file'
                    /\ channelRemoved index file file').

(** What is said of [postProcess], for one file: for each optional label
    whose channel the file has, it returns the file as it is if and only if
    some sample of that channel is greater than 0, and otherwise the file
    without exactly that channel. *)
Definition untouchedIffValid (file : EDFFile) : Prop :=
  forall (keyword : string) (index : nat) (vals : list Q),
    In keyword ["spo2"; "pulse"]%string ->
    optionalChannel keyword file index vals ->
    (ResMedLoader.postProcess file = Some file <-> someValid vals)
    /\ (~ someValid vals ->
        exists file', ResMedLoader.postProcess file = Some file'
                      /\ channelRemoved index file file').

(** A merged file with flow, an oximeter that read once, and a pulse channel
    that never read. *)
Definition fitted : EDFFile :=
  {| header :=
       emptyHeader 0 60 [channel "Flow" 2; channel "SpO2" 1; channel "Pulse" 1];
     values := [[1; 2; 3; 4]; [0; 0; 0; 0; 0; 0; 5; 0]; [0; -1]];
     annotations := [];
     duration := None |}.

(** *** The flat oximetry export *)

Definition payloadStart (info : SpO2AssistantLoader.SpO2AssistantHeaderInfo)
  : Z :=
  SpO2AssistantLoader.headerOffset info + 228.

(** [(fileSize - (h + 228)) / sampleCount], the exact quotient. *)
Definition bytesPerRecord (buffer : SpO2AssistantLoader.Buffer)
    (info : SpO2AssistantLoader.SpO2AssistantHeaderInfo) : Q :=
  (inject_Z (SpO2AssistantLoader.byteLength buffer)
   - inject_Z (payloadStart info))
  / inject_Z (SpO2AssistantLoader.samples info).

(** The bytes per record as the decoder computes them, in binary64
    arithmetic. *)
Definition computedBytesPerRecord (buffer : SpO2AssistantLoader.Buffer)
    (info : SpO2AssistantLoader.SpO2AssistantHeaderInfo) : JS.num :=
  ((JS.of_Z (SpO2AssistantLoader.byteLength buffer)
    - JS.of_Z (payloadStart info))
   / JS.of_Z (SpO2AssistantLoader.samples info))%js.

(** The cursor after the first statement of an iteration that starts with
    the cursor [c]. *)
Definition skipFrom (bpr c : JS.num) : JS.num :=
  if (bpr >? JS.of_Z 2)%js then (c + (bpr - JS.of_Z 2))%js else c.

(** The computed cursor at the reads of iteration [i], from the cursor [c]
    before the loop. *)
Fixpoint readCursor (bpr c : JS.num) (i : nat) : JS.num :=
  match i with
  | O => skipFrom bpr c
  | S i' => readCursor bpr (skipFrom bpr c + JS.of_Z 2)%js i'
  end.

(** The pair that is stored for the bytes [b0] and [b1]. *)
Definition normalize (b0 b1 : Z) : Z * Z :=
  if ((b0 =? 127) && (b1 =? 255))%Z then (0%Z, 0%Z) else (b0, b1).

Definition byteOr0 (view : SpO2AssistantLoader.Buffer) (i : Z) : Z :=
  match SpO2AssistantLoader.byteAt view i with Some b => b | None => 0%Z end.

Definition uint8Or0 (view : SpO2AssistantLoader.Buffer) (offset : JS.num)
  : Z :=
  match SpO2AssistantLoader.getUint8 view offset with
  | Some b => b
  | None => 0%Z
  end.

(** The pair stored for the reads at the cursor [q] and at [q + 1]. *)
Definition pairAt (view : SpO2AssistantLoader.Buffer) (q : JS.num) : Z * Z :=
  normalize (uint8Or0 view q) (uint8Or0 view (q + JS.of_Z 1)%js).

(** Sample [i] of both channels is the pair stored for the bytes that
    [getUint8] reads at the cursor [q] and at [q + 1]. *)
Definition readsAt (buffer : SpO2AssistantLoader.Buffer)
    (st : SpO2AssistantLoader.Scan) (i : nat) (q : JS.num) : Prop :=
  exists b0 b1,
    SpO2AssistantLoader.getUint8 buffer q = Some b0
    /\ SpO2AssistantLoader.getUint8 buffer (q + JS.of_Z 1)%js = Some b1
    /\ nth_error (SpO2AssistantLoader.valuesSpO2 st) i
       = Some (inject_Z (fst (normalize b0 b1)))
    /\ nth_error (SpO2AssistantLoader.valuesPulse st) i
       = Some (inject_Z (snd (normalize b0 b1))).

(** Sample [i] of both channels is the pair stored for the bytes at the
    offset [q] and at the next offset, cut to whole bytes. *)
Definition readsPairAt (buffer : SpO2AssistantLoader.Buffer)
    (st : SpO2AssistantLoader.Scan) (i : nat) (q : Q) : Prop :=
  exists b0 b1,
    SpO2AssistantLoader.byteAt buffer (JS.Qtrunc q) = Some b0
    /\ SpO2AssistantLoader.byteAt buffer (JS.Qtrunc (q + 1)) = Some b1
    /\ nth_error (SpO2AssistantLoader.valuesSpO2 st) i
       = Some (inject_Z (fst (normalize b0 b1)))
    /\ nth_error (SpO2AssistantLoader.valuesPulse st) i
       = Some (inject_Z (snd (normalize b0 b1))).

(** Bytes 0 and 1 of record [i]. *)
Definition recordStart (buffer : SpO2AssistantLoader.Buffer)
    (info : SpO2AssistantLoader.SpO2AssistantHeaderInfo) (i : nat) : Q :=
  inject_Z (payloadStart info)
  + inject_Z (Z.of_nat i) * bytesPerRecord buffer info.

(** The last two bytes of record [i]. *)
Definition recordTail (buffer : SpO2AssistantLoader.Buffer)
    (info : SpO2AssistantLoader.SpO2AssistantHeaderInfo) (i : nat) : Q :=
  recordStart buffer info i + (bytesPerRecord buffer info - 2).

(** What is said of the decoder: every record gives its bytes 0 and 1. *)
Definition readsFirstBytes (buffer : SpO2AssistantLoader.Buffer)
    (info : SpO2AssistantLoader.SpO2AssistantHeaderInfo) : Prop :=
  forall st,
    SpO2AssistantLoader.decodeSamples buffer info = Some st ->
    forall i, (Z.of_nat i < SpO2AssistantLoader.samples info)%Z ->
              readsPairAt buffer st i (recordStart buffer info i).

(** The payload is [sampleCount] records of [b] whole bytes each. *)
Definition wholeRecords (buffer : SpO2AssistantLoader.Buffer)
    (info : SpO2AssistantLoader.SpO2AssistantHeaderInfo) (b : Z) : Prop :=
  (SpO2AssistantLoader.byteLength buffer - payloadStart info
   = SpO2AssistantLoader.samples info * b)%Z.

(** An export with its header block at offset 0 and one record of three
    bytes: 10, 20, 30. *)
Definition threeByteRecord : SpO2AssistantLoader.Buffer :=
  {| SpO2AssistantLoader.bytes :=
       repeat Byte.x00 224
       ++ [Byte.x01; Byte.x00; Byte.x00; Byte.x00]
       ++ [Byte.x0a; Byte.x14; Byte.x1e];
     SpO2AssistantLoader.allocated := eq_refl |}.

Definition threeByteInfo : SpO2AssistantLoader.SpO2AssistantHeaderInfo :=
  {| SpO2AssistantLoader.start := JS.InvalidDate;
     SpO2AssistantLoader.samples := 1;
     SpO2AssistantLoader.headerOffset := 0 |}.

(** An export of three records of two bytes, the second one the pair that
    stands for no reading. *)
Definition twoByteRecords : SpO2AssistantLoader.Buffer :=
  {| SpO2AssistantLoader.bytes :=
       repeat Byte.x00 224
       ++ [Byte.x03; Byte.x00; Byte.x00; Byte.x00]
       ++ [Byte.x61; Byte.x3c; Byte.x7f; Byte.xff; Byte.x60; Byte.x3e];
     SpO2AssistantLoader.allocated := eq_refl |}.

(** An export that declares three samples and has a payload of seven bytes,
    1 to 7. *)
Definition sevenBytes : SpO2AssistantLoader.Buffer :=
  {| SpO2AssistantLoader.bytes :=
       repeat Byte.x00 224
       ++ [Byte.x03; Byte.x00; Byte.x00; Byte.x00]
       ++ [Byte.x01; Byte.x02; Byte.x03; Byte.x04; Byte.x05; Byte.x06;
           Byte.x07];
     SpO2AssistantLoader.allocated := eq_refl |}.

(** The pair [(x, y)] stored for the bytes [b0] and [b1]: zero for the pair
    that stands for no reading, the bytes themselves otherwise. *)
Definition sentinelRule (b0 b1 : Z) (x y : Q) : Prop :=
  (b0 = 127%Z /\ b1 = 255%Z -> x = 0 /\ y = 0)
  /\ (~ (b0 = 127%Z /\ b1 = 255%Z) -> x = inject_Z b0 /\ y = inject_Z b1).

(** Sample [k] of both channels follows the rule for the two bytes that
    iteration [k] of the loop reads, at its computed cursor and at the
    cursor plus one. *)
Definition decodedBySentinelRule (buffer : SpO2AssistantLoader.Buffer)
    (info : SpO2AssistantLoader.SpO2AssistantHeaderInfo)
    (st : SpO2AssistantLoader.Scan) (k : nat) : Prop :=
  let q := readCursor (computedBytesPerRecord buffer info)
             (JS.of_Z (payloadStart info)) k in
  exists b0 b1 x y,
    SpO2AssistantLoader.getUint8 buffer q = Some b0
    /\ SpO2AssistantLoader.getUint8 buffer (q + JS.of_Z 1)%js = Some b1
    /\ nth_error (SpO2AssistantLoader.valuesSpO2 st) k = Some x
    /\ nth_error (SpO2AssistantLoader.valuesPulse st) k = Some y
    /\ sentinelRule b0 b1 x y.

(** The offsets from which the decoder takes record [i] of a payload of
    records of [b] whole bytes: the last two bytes of the record, which are
    its bytes 0 and 1 when [b] is 2. *)
Definition readsRecordTail (buffer : SpO2AssistantLoader.Buffer)
    (info : SpO2AssistantLoader.SpO2AssistantHeaderInfo)
    (st : SpO2AssistantLoader.Scan) (b : Z) (i : nat) : Prop :=
  readsPairAt buffer st i (recordTail buffer info i)
  /\ readsPairAt buffer st i
       (inject_Z (payloadStart info + Z.of_nat i * b + (b - 2)))
  /\ (b = 2%Z -> readsPairAt buffer st i (recordStart buffer info i)).

(** ** Vocabulary of further properties *)

(** The first occurrences of the strings of a list, in order. *)
Fixpoint distinct (ls : list string) : list string :=
  match ls with
  | [] => []
  | l :: rest => l :: filter (fun x => negb (String.eqb x l)) (distinct rest)
  end.

(** The labels of the channels of the candidates, in the order of step 1. *)
Definition candidateLabels (files : list EDFFile) : list string :=
  map (fun c => label (info_signal c)) (channels files).

(** [part] is a run of consecutive elements of [whole]. *)
Definition segment {A : Type} (part whole : list A) : Prop :=
  exists before after, whole = before ++ part ++ after.

(** The elements of a list with their indices. *)
Definition indexed {A : Type} (l : list A) : list (nat * A) :=
  combine (seq 0 (List.length l)) l.

(** The label is one of the listed labels, up to the case of ASCII letters. *)
Definition listed (labels : list string) (s : EDFSignal) : bool :=
  existsb
    (fun l => String.eqb (JS.toLowerCase l) (JS.toLowerCase (label s)))
    labels.

(** The signal passes the filter: listed among the allowed labels when there
    are any, and not listed among the disallowed ones. *)
Definition passes (filter : LabelFilter) (s : EDFSignal) : bool :=
  match allowedLabels filter with
  | Some ls => listed ls s
  | None => true
  end
  && match disallowedLabels filter with
     | Some ls => negb (listed ls s)
     | None => true
     end.

(** Every character of the string is an ASCII character. *)
Definition asciiOnly (s : string) : bool :=
  forallb (fun c => (nat_of_ascii c <? 128)%nat) (list_ascii_of_string s).

(** The labels of the signals and the labels of the filter are ASCII
    strings: on these [JS.toLowerCase] is [String.prototype.toLowerCase]. *)
Definition asciiLabels (sigs : list EDFSignal) (filter : LabelFilter)
  : Prop :=
  Forall (fun s => asciiOnly (label s) = true) sigs
  /\ match allowedLabels filter with
     | Some ls => Forall (fun l => asciiOnly l = true) ls
     | None => True
     end
  /\ match disallowedLabels filter with
     | Some ls => Forall (fun l => asciiOnly l = true) ls
     | None => True
     end.

(** A label of the housekeeping channels of the container, in any case. *)
Definition housekeepingLabel (l : string) : Prop :=
  In (JS.toLowerCase l) ["edf annotations"; "crc16"; ""]%string.

(** A File Record as [loadSession] indexes it: one sample array per signal,
    no housekeeping channel, no label that is an alias of the ResMed table,
    a start that is the low end of its span, a duration that is the length
    of its span in seconds, and no annotation with an onset below zero. *)
Definition indexedRecord (i : ResMedLoader.Interval) : Prop :=
  let f := ResMedLoader.data i in
  List.length (values f) = List.length (signals (header f))
  /\ Forall (fun s => ~ housekeepingLabel (label s)
                      /\ unmatched ResMedLoader.CANONICAL_NAMES (label s))
       (signals (header f))
  /\ ResMedLoader.low i = JS.getTime (startTime (header f))
  /\ duration f
     = Some ((ResMedLoader.high i - ResMedLoader.low i) / JS.of_Z 1000)%js
  /\ Forall (fun a => JS.ltb (onset a) (JS.of_Z 0) = false) (annotations f).

(** The arrays of the file are one per signal and the declared count is the
    number of signals. *)
Definition consistent (f : EDFFile) : Prop :=
  List.length (values f) = List.length (signals (header f))
  /\ signalCount (header f) = Z.of_nat (List.length (signals (header f))).

(** The 16-bit little-endian number in the first two bytes of an export. *)
Definition headerPosition (buffer : SpO2AssistantLoader.Buffer) : Z :=
  byteOr0 buffer 0 + 256 * byteOr0 buffer 1.

(** The 32-bit little-endian number at an offset of an export. *)
Definition uint32At (buffer : SpO2AssistantLoader.Buffer) (offset : Z) : Z :=
  byteOr0 buffer offset
  + 256 * (byteOr0 buffer (offset + 1)
           + 256 * (byteOr0 buffer (offset + 2)
                    + 256 * byteOr0 buffer (offset + 3))).

(** Every sample of every channel lies in the digital range that the
    descriptor of the channel declares. *)
Definition withinDigitalRange (f : EDFFile) : Prop :=
  Forall2
    (fun s vals => Forall (fun v => digitalMin s <= v <= digitalMax s) vals)
    (signals (header f)) (values f).

(** The entry is an export: its path ends in [.spo2], in any letter case. *)
Definition isExport (entry : string * SpO2AssistantLoader.Buffer) : bool :=
  JS.endsWith (JS.toLowerCase (fst entry)) ".spo2".

(** What [loadSession] of the SpO2 Assistant loader gives for a session whose
    first file is [buffer]: one of two errors, each for its own reason, or a
    file whose record count is the whole number of 30-sample records in the
    declared sample count. *)
Definition oximeterOutcome (buffer : SpO2AssistantLoader.Buffer)
    (r : Error + EDFFile) : Prop :=
  let h := headerPosition buffer in
  let len := SpO2AssistantLoader.byteLength buffer in
  match r with
  | inl e =>
      (e = RangeError /\ (len < 2)%Z)
      \/ (e = InvalidHeader /\ (2 <= len < h + 228)%Z)
  | inr file =>
      (2 <= len)%Z /\ (h + 228 <= len)%Z
      /\ consistent file
      /\ withinDigitalRange file
      /\ map label (signals (header file)) = ["SpO2"; "Pulse"]%string
      /\ dataRecords (header file)
         = JS.of_Z (uint32At buffer (h + 224) / 30)
      /\ annotations file = []
  end.

(** A file of no bytes. *)
Definition emptyFile : SpO2AssistantLoader.Buffer :=
  {| SpO2AssistantLoader.bytes := [];
     SpO2AssistantLoader.allocated := eq_refl |}.

(** A session over one export. *)
Definition exportSession (path : string) (buffer : SpO2AssistantLoader.Buffer)
  : Session SpO2AssistantLoader.Buffer :=
  {| session_start := JS.InvalidDate;
     session_end := JS.InvalidDate;
     files := [(path, buffer)] |}.

(** An input on which [findCommonTimeRange] has no end to give: no files, a
    record duration that is zero or not a number, or a file whose start is
    invalid or whose duration is not a number. *)
Definition degenerate (files : list EDFFile) (recordDuration : JS.num) : Prop :=
  files = []
  \/ recordDuration = JS.NaN
  \/ (exists q, recordDuration = JS.Fin q /\ q == 0)
  \/ (exists f, In f files
                /\ (startTime (header f) = JS.InvalidDate
                    \/ duration f = Some JS.NaN)).

(** Every file ends at least [span] milliseconds after every file starts. *)
Definition overlapAtLeast (span : Q) (files : list EDFFile) : Prop :=
  forall f g, In f files -> In g files ->
    inject_Z (fileStart f) + span <= fileEnd g.

(** Some file ends at least [span] milliseconds before some file starts. *)
Definition gapAtLeast (span : Q) (files : list EDFFile) : Prop :=
  exists f g, In f files /\ In g files
              /\ fileEnd g + span <= inject_Z (fileStart f).

(** The path names the marker file of a ResMed session: it ends in
    [_brp.edf], in any letter case. *)
Definition marker (path : string) : bool :=
  JS.endsWith (JS.toLowerCase path) "_brp.edf".

(** The name holds no slash. *)
Definition slashFree (name : string) : Prop := JS.includes name "/" = false.

(** The files of session [s] are the entries of [directory] below the folder
    [dir] whose path ends in [.edf], keyed by the rest of their path. *)
Definition filesBelow (dir : string)
    (directory : list (string * ResMedLoader.File))
    (s : Session ResMedLoader.File) : Prop :=
  forall name f,
    In (name, f) (files s)
    <-> In ((dir ++ "/" ++ name)%string, f) directory
        /\ ResMedLoader.isEDF (dir ++ "/" ++ name)%string = true.

(** A card with one night in a dated folder and the summary file. *)
Definition card : list (string * ResMedLoader.File) :=
  [ ("DATALOG/20250101/a_BRP.edf"%string, reader 60 1 []);
    ("DATALOG/20250101/a_PLD.edf"%string, reader 60 1 []);
    ("DATALOG/20250101/notes.txt"%string, reader 60 1 []);
    ("STR.edf"%string, reader 60 1 []) ].

Definition noSession : Session ResMedLoader.File :=
  {| session_start := JS.InvalidDate;
     session_end := JS.InvalidDate;
     files := [] |}.

(** The first session of the card. *)
Definition cardSession : Session ResMedLoader.File :=
  hd noSession (ResMedLoader.sessions card).

(** The dated folder of the card, opened on its own. *)
Definition dayFolder : list (string * ResMedLoader.File) :=
  [ ("a_BRP.edf"%string, reader 60 1 []);
    ("a_PLD.edf"%string, reader 60 1 []) ].

(** The annotation [a'] of the output stems from an annotation with a
    finite onset, of a file with a valid start, whose computed absolute time
    is a finite time in the window of the valid dates [start] and [end_]. *)
Definition keptInWindow (start end_ : JS.Date) (files : list EDFFile)
    (a' : EDFAnnotation) : Prop :=
  exists (ws we fs : Z) (o t : Q) (file : EDFFile) (a : EDFAnnotation),
    start = JS.DateOf ws
    /\ end_ = JS.DateOf we
    /\ (ws <= we)%Z
    /\ In file files /\ In a (annotations file)
    /\ startTime (header file) = JS.DateOf fs
    /\ onset a = JS.Fin o
    /\ absoluteTime file a = JS.Fin t
    /\ inject_Z ws <= t /\ t <= inject_Z we
    /\ a' = retime start file a.

(** ** Facts about the numbers *)

Module JSFacts.
Import JS.

Lemma Qtrunc_nonneg (q : Q) : 0 <= q -> Qtrunc q = Qfloor q.
Proof.
  destruct q as [n d]. unfold Qle, Qtrunc, Qfloor. simpl. intros H.
  apply Z.quot_div_nonneg; lia.
Qed.

Lemma Qtrunc_nonpos (q : Q) : q <= 0 -> Qtrunc q = Qceiling q.
Proof.
  destruct q as [n d]. unfold Qle, Qtrunc, Qceiling, Qfloor. simpl. intros H.
  rewrite <- (Z.quot_div_nonneg (- n) (Z.pos d)) by lia.
  rewrite Z.quot_opp_l by lia. lia.
Qed.

Lemma Qtrunc_comp (p q : Q) : p == q -> Qtrunc p = Qtrunc q.
Proof.
  intros H. destruct (Qlt_le_dec p 0) as [Hn | Hp].
  - rewrite !Qtrunc_nonpos by lra. now rewrite H.
  - rewrite !Qtrunc_nonneg by lra. now rewrite H.
Qed.

Lemma Qtrunc_inject_Z (z : Z) : Qtrunc (inject_Z z) = z.
Proof. unfold Qtrunc. simpl. apply Z.quot_1_r. Qed.

Lemma Qtrunc_of_Z (q : Q) (z : Z) : q == inject_Z z -> Qtrunc q = z.
Proof. intros H. rewrite (Qtrunc_comp _ _ H). apply Qtrunc_inject_Z. Qed.

(** Truncation of a non-negative number does not exceed it. *)
Lemma Qtrunc_le (q : Q) : 0 <= q -> inject_Z (Qtrunc q) <= q.
Proof. intros H. rewrite Qtrunc_nonneg by exact H. apply Qfloor_le. Qed.

Lemma Qtrunc_ge0 (q : Q) : 0 <= q -> (0 <= Qtrunc q)%Z.
Proof.
  intros H. rewrite Qtrunc_nonneg by exact H.
  change 0%Z with (Qfloor 0). now apply Qfloor_resp_le.
Qed.

Lemma inject_Z_minus (x y : Z) : inject_Z (x - y) = inject_Z x - inject_Z y.
Proof. unfold Z.sub, Qminus. now rewrite inject_Z_plus, inject_Z_opp. Qed.

Lemma Qle_bool_false (x y : Q) : Qle_bool x y = false <-> y < x.
Proof.
  split; intros H.
  - apply Qnot_le_lt. intros Hle. apply Qle_bool_iff in Hle. congruence.
  - destruct (Qle_bool x y) eqn:E; [| reflexivity].
    apply Qle_bool_iff in E. lra.
Qed.

(** [Math.max] of finite numbers is one of them and bounds them all. *)
Lemma fold_max2_Fin (qs : list Q) (a : Q) :
  exists q, fold_left max2 (map Fin qs) (Fin a) = Fin q
            /\ (q = a \/ In q qs)
            /\ a <= q /\ (forall x, In x qs -> x <= q).
Proof.
  revert a. induction qs as [| x qs IH]; intros a; simpl.
  - exists a. repeat split; auto; try lra. intros x [].
  - destruct (Qle_bool a x) eqn:E.
    + destruct (IH x) as (q & Hq & Hin & Hle & Hall).
      exists q. apply Qle_bool_iff in E. repeat split; auto.
      * destruct Hin; auto.
      * lra.
      * intros y [-> | Hy]; auto.
    + destruct (IH a) as (q & Hq & Hin & Hle & Hall).
      exists q. apply Qle_bool_false in E. repeat split; auto.
      * destruct Hin; auto.
      * intros y [<- | Hy]; auto. lra.
Qed.

Lemma Math_max_Fin (q0 : Q) (qs : list Q) :
  exists q, Math_max (map Fin (q0 :: qs)) = Fin q
            /\ In q (q0 :: qs)
            /\ (forall x, In x (q0 :: qs) -> x <= q).
Proof.
  unfold Math_max. simpl.
  destruct (fold_max2_Fin qs q0) as (q & Hq & Hin & Hle & Hall).
  exists q. repeat split; auto.
  - destruct Hin; auto.
  - intros x [<- | Hx]; auto.
Qed.

Lemma fold_min2_Fin (qs : list Q) (a : Q) :
  exists q, fold_left min2 (map Fin qs) (Fin a) = Fin q
            /\ (q = a \/ In q qs)
            /\ q <= a /\ (forall x, In x qs -> q <= x).
Proof.
  revert a. induction qs as [| x qs IH]; intros a; simpl.
  - exists a. repeat split; auto; try lra. intros x [].
  - destruct (Qle_bool a x) eqn:E.
    + destruct (IH a) as (q & Hq & Hin & Hle & Hall).
      exists q. apply Qle_bool_iff in E. repeat split; auto.
      * destruct Hin; auto.
      * intros y [<- | Hy]; auto. lra.
    + destruct (IH x) as (q & Hq & Hin & Hle & Hall).
      exists q. apply Qle_bool_false in E. repeat split; auto.
      * destruct Hin; auto.
      * lra.
      * intros y [-> | Hy]; auto.
Qed.

Lemma Math_min_Fin (q0 : Q) (qs : list Q) :
  exists q, Math_min (map Fin (q0 :: qs)) = Fin q
            /\ In q (q0 :: qs)
            /\ (forall x, In x (q0 :: qs) -> q <= x).
Proof.
  unfold Math_min. simpl.
  destruct (fold_min2_Fin qs q0) as (q & Hq & Hin & Hle & Hall).
  exists q. repeat split; auto.
  - destruct Hin; auto.
  - intros x [<- | Hx]; auto.
Qed.

(** *** Rounding *)

Lemma pow2_pos k : 0 < pow2 k.
Proof. apply Qpower_0_lt. reflexivity. Qed.

Lemma pow2_plus a b : pow2 (a + b) == pow2 a * pow2 b.
Proof. apply Qpower_plus. discriminate. Qed.

Lemma pow2_le a b : (a <= b)%Z -> pow2 a <= pow2 b.
Proof. intros H. apply Qpower_le_compat_l; [exact H | discriminate]. Qed.

Lemma pow2_lt a b : (a < b)%Z -> pow2 a < pow2 b.
Proof. intros H. apply Qpower_lt_compat_l; [exact H | reflexivity]. Qed.

Lemma pow2_lt_inv a b : pow2 a < pow2 b -> (a < b)%Z.
Proof. intros H. apply (Qpower_lt_compat_l_inv 2); [exact H | reflexivity]. Qed.

Lemma pow2_le_inv a b : pow2 a <= pow2 b -> (a <= b)%Z.
Proof. intros H. apply (Qpower_le_compat_l_inv 2); [exact H | reflexivity]. Qed.

Lemma pow2_Z k : (0 <= k)%Z -> pow2 k == inject_Z (2 ^ k).
Proof. intros H. unfold pow2. now rewrite Zpower_Qpower. Qed.

Lemma pow2_minus a b : pow2 (a - b) == pow2 a / pow2 b.
Proof.
  unfold Z.sub. rewrite pow2_plus. unfold pow2 at 2. rewrite Qpower_opp.
  reflexivity.
Qed.

Lemma pow2_div_mul (x : Q) (k : Z) : x / pow2 k * pow2 k == x.
Proof. pose proof (pow2_pos k). field. lra. Qed.

Lemma Z_as_pow2 (z : Z) :
  (0 < z)%Z -> pow2 (Z.log2 z) <= inject_Z z /\ inject_Z z < pow2 (Z.log2 z + 1).
Proof.
  intros H. pose proof (Z.log2_spec z H) as [Hl Hu].
  pose proof (Z.log2_nonneg z).
  rewrite !pow2_Z by lia. rewrite <- Zle_Qle, <- Zlt_Qlt.
  replace (Z.log2 z + 1)%Z with (Z.succ (Z.log2 z)) by lia. now split.
Qed.

Lemma ilog2_spec (q : Q) :
  0 < q -> pow2 (ilog2 q) <= q /\ q < pow2 (ilog2 q + 1).
Proof.
  intros Hq. destruct q as [n d]. unfold ilog2. cbn [Qnum Qden].
  assert (Hn : (0 < n)%Z).
  { unfold Qlt in Hq. simpl in Hq. lia. }
  destruct (Z_as_pow2 n Hn) as [Hnl Hnu].
  destruct (Z_as_pow2 (Zpos d) eq_refl) as [Hdl Hdu].
  set (ln := Z.log2 n) in *. set (ld := Z.log2 (Z.pos d)) in *.
  assert (Hq' : (n # d) * inject_Z (Zpos d) == inject_Z n).
  { unfold Qeq, Qmult, inject_Z. simpl. lia. }
  assert (Hd0 : 0 < inject_Z (Zpos d)) by (rewrite <- (Zlt_Qlt 0); lia).
  assert (Hup : (n # d) < pow2 (ln - ld + 1)).
  { apply (Qmult_lt_r _ _ (inject_Z (Zpos d)) Hd0). rewrite Hq'.
    apply Qlt_le_trans with (pow2 (ln + 1)); [exact Hnu |].
    replace (ln + 1)%Z with ((ln - ld + 1) + ld)%Z by lia.
    rewrite pow2_plus. apply Qmult_le_l; [apply pow2_pos | exact Hdl]. }
  assert (Hlo : pow2 (ln - ld - 1) < (n # d)).
  { apply (Qmult_lt_r _ _ (inject_Z (Zpos d)) Hd0). rewrite Hq'.
    apply Qlt_le_trans with (pow2 ln); [| exact Hnl].
    replace ln with ((ln - ld - 1) + (ld + 1))%Z at 2 by lia.
    rewrite pow2_plus. apply Qmult_lt_l; [apply pow2_pos | exact Hdu]. }
  destruct (Qle_bool (pow2 (ln - ld)) (n # d)) eqn:E.
  - apply Qle_bool_iff in E. split; [exact E | exact Hup].
  - split; [apply Qlt_le_weak; exact Hlo |].
    replace (ln - ld - 1 + 1)%Z with (ln - ld)%Z by lia.
    apply Qnot_le_lt. intros H. apply Qle_bool_iff in H. congruence.
Qed.

Lemma ilog2_unique (q : Q) (e : Z) :
  pow2 e <= q -> q < pow2 (e + 1) -> ilog2 q = e.
Proof.
  intros Hl Hu.
  assert (Hq : 0 < q) by (pose proof (pow2_pos e); lra).
  destruct (ilog2_spec q Hq) as [Hl' Hu'].
  assert (ilog2 q < e + 1)%Z by (apply pow2_lt_inv; lra).
  assert (e < ilog2 q + 1)%Z by (apply pow2_lt_inv; lra).
  lia.
Qed.

Lemma ilog2_mono (p q : Q) : 0 < p -> p <= q -> (ilog2 p <= ilog2 q)%Z.
Proof.
  intros Hp Hpq.
  destruct (ilog2_spec p Hp) as [Hl _].
  destruct (ilog2_spec q) as [_ Hu]; [lra |].
  assert (ilog2 p < ilog2 q + 1)%Z by (apply pow2_lt_inv; lra).
  lia.
Qed.

Lemma ilog2_comp (p q : Q) : 0 < p -> p == q -> ilog2 p = ilog2 q.
Proof.
  intros Hp H. destruct (ilog2_spec p Hp) as [Hl Hu].
  symmetry. apply ilog2_unique; lra.
Qed.

(** round_even *)
Lemma round_even_bounds (x : Q) :
  inject_Z (round_even x) - (1 # 2) <= x
  /\ x <= inject_Z (round_even x) + (1 # 2).
Proof.
  unfold round_even. cbv zeta.
  pose proof (Qfloor_le x) as Hl. pose proof (Qlt_floor x) as Hu.
  rewrite inject_Z_plus in Hu. change (inject_Z 1) with 1 in Hu.
  destruct (Qcompare_spec (x - inject_Z (Qfloor x)) (1 # 2)) as [E | E | E].
  - destruct (Z.even (Qfloor x));
      rewrite ?inject_Z_plus; change (inject_Z 1) with 1; lra.
  - lra.
  - rewrite inject_Z_plus. change (inject_Z 1) with 1. lra.
Qed.

Lemma round_even_comp (x y : Q) : x == y -> round_even x = round_even y.
Proof.
  intros H. unfold round_even. cbv zeta.
  rewrite (Qfloor_comp _ _ H).
  assert (E : x - inject_Z (Qfloor y) == y - inject_Z (Qfloor y))
    by now rewrite H.
  now rewrite (Qcompare_comp _ _ E _ _ (Qeq_refl (1 # 2))).
Qed.

Lemma round_even_mono (x y : Q) :
  x <= y -> (round_even x <= round_even y)%Z.
Proof.
  intros H. destruct (Qeq_dec x y) as [E | N].
  - rewrite (round_even_comp _ _ E). lia.
  - destruct (round_even_bounds x) as [Hx _].
    destruct (round_even_bounds y) as [_ Hy].
    destruct (Z_le_gt_dec (round_even x) (round_even y)) as [L | G];
      [exact L | exfalso].
    assert (G' : (round_even y + 1 <= round_even x)%Z) by lia.
    rewrite Zle_Qle, inject_Z_plus in G'. change (inject_Z 1) with 1 in G'.
    apply N. lra.
Qed.

Lemma round_even_Z (z : Z) : round_even (inject_Z z) = z.
Proof.
  unfold round_even. cbv zeta. rewrite Qfloor_Z.
  assert (E : inject_Z z - inject_Z z == 0) by ring.
  rewrite (Qcompare_comp _ _ E _ _ (Qeq_refl (1 # 2))). reflexivity.
Qed.

Lemma round_pos_rv (a : Q) :
  round_pos a = if Qle_bool (pow2 1024) (rv a) then None else Some (Qred (rv a)).
Proof. reflexivity. Qed.

Lemma rv_comp (a b : Q) : 0 < a -> a == b -> rv a == rv b.
Proof.
  intros Ha H. unfold rv, kexp. rewrite (ilog2_comp a b Ha H).
  assert (E : a / pow2 (Z.max (ilog2 b - 52) (-1074))
              == b / pow2 (Z.max (ilog2 b - 52) (-1074))) by now rewrite H.
  now rewrite (round_even_comp _ _ E).
Qed.

Lemma Qle_bool_comp (a b c d : Q) :
  a == b -> c == d -> Qle_bool a c = Qle_bool b d.
Proof.
  intros H1 H2. destruct (Qle_bool a c) eqn:E1, (Qle_bool b d) eqn:E2;
    try reflexivity.
  - apply Qle_bool_iff in E1. rewrite H1, H2 in E1.
    apply Qle_bool_iff in E1. congruence.
  - apply Qle_bool_iff in E2. rewrite <- H1, <- H2 in E2.
    apply Qle_bool_iff in E2. congruence.
Qed.

Lemma round_pos_comp (a b : Q) : 0 < a -> a == b -> round_pos a = round_pos b.
Proof.
  intros Ha H. rewrite !round_pos_rv.
  pose proof (rv_comp a b Ha H) as E.
  rewrite (Qle_bool_comp _ _ _ _ (Qeq_refl (pow2 1024)) E).
  now rewrite (Qred_complete _ _ E).
Qed.

Lemma rv_fix (a : Q) (m j : Z) :
  (0 < m < 2 ^ 53)%Z -> (-1074 <= j)%Z ->
  a == inject_Z m * pow2 j -> rv a == a.
Proof.
  intros Hm Hj Ha.
  assert (Hm0 : 0 < inject_Z m) by (rewrite <- (Zlt_Qlt 0); lia).
  assert (Hpos : 0 < a).
  { rewrite Ha. apply Qmult_lt_0_compat; [exact Hm0 | apply pow2_pos]. }
  destruct (ilog2_spec a Hpos) as [Hl _].
  assert (Hlt : a < pow2 (53 + j)).
  { rewrite Ha, pow2_plus. apply Qmult_lt_r; [apply pow2_pos |].
    rewrite pow2_Z by lia. rewrite <- Zlt_Qlt. lia. }
  assert (He : (ilog2 a < 53 + j)%Z) by (apply pow2_lt_inv; lra).
  unfold rv. set (k := kexp a).
  assert (Hk : (k <= j)%Z) by (unfold k, kexp; lia).
  assert (E : a / pow2 k == inject_Z (m * 2 ^ (j - k))).
  { rewrite Ha, inject_Z_mult, <- pow2_Z by lia.
    replace j with ((j - k) + k)%Z at 1 by lia. rewrite pow2_plus.
    pose proof (pow2_pos k). field. lra. }
  rewrite (round_even_comp _ _ E), round_even_Z, <- E.
  apply pow2_div_mul.
Qed.

Lemma round_pos_fix (a : Q) (m j : Z) :
  (0 < m < 2 ^ 53)%Z -> (-1074 <= j)%Z ->
  a == inject_Z m * pow2 j -> a < pow2 1024 ->
  round_pos a = Some (Qred a).
Proof.
  intros Hm Hj Ha Hb. rewrite round_pos_rv.
  pose proof (rv_fix a m j Hm Hj Ha) as E.
  rewrite (Qle_bool_comp _ _ _ _ (Qeq_refl (pow2 1024)) E).
  destruct (Qle_bool (pow2 1024) a) eqn:El.
  - apply Qle_bool_iff in El. lra.
  - now rewrite (Qred_complete _ _ E).
Qed.

Lemma rv_nonneg (a : Q) : 0 < a -> 0 <= rv a.
Proof.
  intros Ha. unfold rv. apply Qmult_le_0_compat.
  - change 0 with (inject_Z 0). rewrite <- Zle_Qle.
    rewrite <- (round_even_Z 0). apply round_even_mono.
    change (inject_Z 0) with 0. apply Qle_shift_div_l; [apply pow2_pos | lra].
  - apply Qlt_le_weak, pow2_pos.
Qed.

Lemma rv_mono (a b : Q) : 0 < a -> a <= b -> rv a <= rv b.
Proof.
  intros Ha Hab.
  assert (Hb : 0 < b) by lra.
  pose proof (ilog2_mono a b Ha Hab) as Hlog.
  destruct (Z.eq_dec (kexp a) (kexp b)) as [E | N].
  - unfold rv. rewrite E. apply Qmult_le_compat_r;
      [| apply Qlt_le_weak, pow2_pos].
    rewrite <- Zle_Qle. apply round_even_mono.
    apply Qmult_le_compat_r; [exact Hab |].
    apply Qlt_le_weak, Qinv_lt_0_compat, pow2_pos.
  - assert (Hk : (kexp a < kexp b)%Z) by (unfold kexp in *; lia).
    assert (Hkb : kexp b = (ilog2 b - 52)%Z) by (unfold kexp in *; lia).
    set (t := Z.max (ilog2 a + 1) (kexp a)).
    assert (Ht : (t <= ilog2 b)%Z) by (unfold t, kexp in *; lia).
    apply Qle_trans with (pow2 t).
    + unfold rv.
      assert (Hx : a / pow2 (kexp a) <= inject_Z (2 ^ (t - kexp a))).
      { rewrite <- pow2_Z by lia. rewrite pow2_minus.
        apply Qmult_le_compat_r;
          [| apply Qlt_le_weak, Qinv_lt_0_compat, pow2_pos].
        destruct (ilog2_spec a Ha) as [_ Hu].
        apply Qle_trans with (pow2 (ilog2 a + 1)); [lra |].
        apply pow2_le. lia. }
      apply round_even_mono in Hx. rewrite round_even_Z in Hx.
      rewrite Zle_Qle in Hx.
      apply Qle_trans with (inject_Z (2 ^ (t - kexp a)) * pow2 (kexp a)).
      * apply Qmult_le_compat_r; [exact Hx | apply Qlt_le_weak, pow2_pos].
      * rewrite <- pow2_Z by lia. rewrite <- pow2_plus.
        replace (t - kexp a + kexp a)%Z with t by lia. lra.
    + apply Qle_trans with (pow2 (ilog2 b)); [now apply pow2_le |].
      unfold rv. rewrite Hkb.
      assert (Hx : inject_Z (2 ^ 52) <= b / pow2 (ilog2 b - 52)).
      { rewrite <- pow2_Z by lia.
        apply Qle_shift_div_l; [apply pow2_pos |].
        rewrite <- pow2_plus. replace (52 + (ilog2 b - 52))%Z with (ilog2 b) by lia.
        apply (ilog2_spec b Hb). }
      apply round_even_mono in Hx. rewrite round_even_Z in Hx.
      rewrite Zle_Qle in Hx.
      apply Qle_trans with (inject_Z (2 ^ 52) * pow2 (ilog2 b - 52)).
      * rewrite <- pow2_Z by lia. rewrite <- pow2_plus.
        replace (52 + (ilog2 b - 52))%Z with (ilog2 b) by lia. lra.
      * apply Qmult_le_compat_r; [exact Hx | apply Qlt_le_weak, pow2_pos].
Qed.

Lemma round_pos_mono (a b : Q) :
  0 < a -> a <= b ->
  match round_pos a, round_pos b with
  | Some u, Some v => u <= v
  | None, Some _ => False
  | _, None => True
  end.
Proof.
  intros Ha Hab. pose proof (rv_mono a b Ha Hab) as H.
  unfold round_pos.
  destruct (Qle_bool (pow2 1024) (rv a)) eqn:Ea,
           (Qle_bool (pow2 1024) (rv b)) eqn:Eb; try exact I.
  - apply Qle_bool_iff in Ea. apply Qle_bool_false in Eb. lra.
  - now apply Qred_le.
Qed.

Lemma round_pos_nonneg (a v : Q) : 0 < a -> round_pos a = Some v -> 0 <= v.
Proof.
  intros Ha. unfold round_pos.
  destruct (Qle_bool (pow2 1024) (rv a)); [discriminate |].
  intros E. assert (Ev : v = Qred (rv a)) by congruence. subst v.
  pose proof (Qred_correct (rv a)) as Hr. pose proof (rv_nonneg a Ha) as Hn.
  apply Qle_trans with (rv a); [exact Hn | rewrite Hr; apply Qle_refl].
Qed.

Lemma Qcompare_0 (q : Q) :
  (q ?= 0) = Eq /\ q == 0 \/ (q ?= 0) = Lt /\ q < 0 \/ (q ?= 0) = Gt /\ 0 < q.
Proof.
  destruct (Qcompare_spec q 0) as [E | E | E]; auto.
Qed.

Lemma round_zero (q : Q) : q == 0 -> round q = Fin 0.
Proof.
  intros H. unfold round.
  destruct (Qcompare_0 q) as [[-> _] | [[_ Hq] | [_ Hq]]]; [reflexivity | lra | lra].
Qed.

Lemma round_positive (q : Q) :
  0 < q ->
  round q = match round_pos q with Some v => Fin v | None => PInf end.
Proof.
  intros H. unfold round.
  destruct (Qcompare_0 q) as [[_ Hq] | [[_ Hq] | [-> _]]]; [lra | lra | reflexivity].
Qed.

Lemma round_negative (q : Q) :
  q < 0 ->
  round q = match round_pos (- q) with Some v => Fin (- v) | None => NInf end.
Proof.
  intros H. unfold round.
  destruct (Qcompare_0 q) as [[_ Hq] | [[-> _] | [_ Hq]]]; [lra | reflexivity | lra].
Qed.

Lemma round_comp (p q : Q) : p == q -> round p = round q.
Proof.
  intros H. destruct (Qcompare_0 p) as [[_ Hp] | [[_ Hp] | [_ Hp]]].
  - rewrite !round_zero by lra. reflexivity.
  - rewrite !round_negative by lra.
    rewrite (round_pos_comp (- p) (- q)); [reflexivity | lra | lra].
  - rewrite !round_positive by lra.
    rewrite (round_pos_comp p q); [reflexivity | lra | lra].
Qed.

Lemma Qopp_opp (q : Q) : - - q = q.
Proof. destruct q as [n d]. unfold Qopp. simpl. now rewrite Z.opp_involutive. Qed.

Lemma round_opp (q : Q) : round (- q) = neg (round q).
Proof.
  destruct (Qcompare_0 q) as [[_ Hq] | [[_ Hq] | [_ Hq]]].
  - rewrite !round_zero by lra. reflexivity.
  - rewrite round_positive, round_negative by lra.
    destruct (round_pos (- q)) as [v |]; [| reflexivity].
    cbn [neg]. now rewrite Qopp_opp.
  - rewrite round_negative, round_positive by lra.
    rewrite Qopp_opp.
    destruct (round_pos q); reflexivity.
Qed.

(** Rounding keeps the order. *)
Lemma round_mono (p q : Q) : p <= q -> leb (round p) (round q) = true.
Proof.
  intros H.
  destruct (Qcompare_0 p) as [[_ Hp] | [[_ Hp] | [_ Hp]]],
           (Qcompare_0 q) as [[_ Hq] | [[_ Hq] | [_ Hq]]]; try lra.
  - rewrite !round_zero by assumption. reflexivity.
  - rewrite round_zero, round_positive by assumption.
    destruct (round_pos q) as [v |] eqn:E; [| reflexivity].
    cbn [leb]. apply Qle_bool_iff. now apply (round_pos_nonneg q).
  - rewrite round_negative, round_zero by assumption.
    destruct (round_pos (- p)) as [v |] eqn:E; [| reflexivity].
    cbn [leb]. apply Qle_bool_iff.
    pose proof (round_pos_nonneg (- p) v ltac:(lra) E). lra.
  - rewrite !round_negative by assumption.
    pose proof (round_pos_mono (- q) (- p) ltac:(lra) ltac:(lra)) as Hm.
    destruct (round_pos (- p)) as [u |], (round_pos (- q)) as [v |];
      try reflexivity; try contradiction.
    cbn [leb]. apply Qle_bool_iff. lra.
  - rewrite round_negative, round_positive by assumption.
    destruct (round_pos (- p)) as [u |] eqn:Eu,
             (round_pos q) as [v |] eqn:Ev; try reflexivity.
    cbn [leb]. apply Qle_bool_iff.
    pose proof (round_pos_nonneg (- p) u ltac:(lra) Eu).
    pose proof (round_pos_nonneg q v Hq Ev). lra.
  - rewrite !round_positive by assumption.
    pose proof (round_pos_mono p q Hp H) as Hm.
    destruct (round_pos p) as [u |], (round_pos q) as [v |];
      try reflexivity; try contradiction.
    cbn [leb]. now apply Qle_bool_iff.
Qed.

(** A binary64 number is not rounded. *)
Lemma round_fix (q : Q) : binary64 q -> round q = Fin (Qred q).
Proof.
  intros (m & j & Hm & Hj & Hq & Hb).
  destruct (Z.lt_trichotomy m 0) as [Hn | [-> | Hp]].
  - assert (Hneg : - q == inject_Z (- m) * pow2 j)
      by (rewrite Hq, inject_Z_opp; ring).
    assert (Hm0 : 0 < inject_Z (- m)) by (rewrite <- (Zlt_Qlt 0); lia).
    assert (Hq0 : q < 0).
    { pose proof (pow2_pos j).
      assert (0 < - q) by (rewrite Hneg; now apply Qmult_lt_0_compat). lra. }
    rewrite round_negative by exact Hq0.
    rewrite (round_pos_fix (- q) (- m) j); [| lia | exact Hj | exact Hneg |].
    + now rewrite Qred_opp, Qopp_opp.
    + rewrite Qabs_neg in Hb by lra. exact Hb.
  - assert (E : q == 0) by (rewrite Hq; ring).
    rewrite (round_zero q E). now rewrite (Qred_complete _ _ E).
  - assert (Hm0 : 0 < inject_Z m) by (rewrite <- (Zlt_Qlt 0); lia).
    assert (Hq0 : 0 < q).
    { rewrite Hq. apply Qmult_lt_0_compat; [exact Hm0 | apply pow2_pos]. }
    rewrite round_positive by exact Hq0.
    rewrite (round_pos_fix q m j); [reflexivity | lia | exact Hj | exact Hq |].
    rewrite Qabs_pos in Hb by lra. exact Hb.
Qed.

Lemma binary64_comp (p q : Q) : p == q -> binary64 p -> binary64 q.
Proof.
  intros H (m & j & Hm & Hj & Hp & Hb). exists m, j.
  split; [exact Hm |]. split; [exact Hj |].
  split; [now rewrite <- H | now rewrite <- H].
Qed.

Lemma binary64_opp (q : Q) : binary64 q -> binary64 (- q).
Proof.
  intros (m & j & Hm & Hj & Hq & Hb). exists (- m)%Z, j.
  split; [lia |]. split; [exact Hj |]. split.
  - rewrite Hq, inject_Z_opp. ring.
  - now rewrite Qabs_opp.
Qed.

(** A rounded value below the overflow threshold is a binary64 number. *)
Lemma rv_binary64 (a : Q) : 0 < a -> rv a < pow2 1024 -> binary64 (rv a).
Proof.
  intros Ha Hlt. pose proof (rv_nonneg a Ha) as H0.
  destruct (ilog2_spec a Ha) as [_ Hu].
  set (k := kexp a) in *.
  assert (Hk : (ilog2 a - 52 <= k)%Z /\ (-1074 <= k)%Z)
    by (unfold k, kexp; lia).
  assert (Hx : a / pow2 k <= inject_Z (2 ^ 53)).
  { rewrite <- pow2_Z by lia.
    apply Qle_shift_div_r; [apply pow2_pos |].
    rewrite <- pow2_plus.
    apply Qle_trans with (pow2 (ilog2 a + 1)); [lra |].
    apply pow2_le. lia. }
  assert (Hx0 : inject_Z 0 <= a / pow2 k).
  { change (inject_Z 0) with 0.
    apply Qle_shift_div_l; [apply pow2_pos | lra]. }
  apply round_even_mono in Hx. rewrite round_even_Z in Hx.
  apply round_even_mono in Hx0. rewrite round_even_Z in Hx0.
  assert (Hrv : rv a == inject_Z (round_even (a / pow2 k)) * pow2 k)
    by reflexivity.
  set (n := round_even (a / pow2 k)) in *.
  assert (Hb : Qabs (rv a) < pow2 1024) by (rewrite Qabs_pos; assumption).
  destruct (Z.eq_dec n (2 ^ 53)) as [E | N].
  - exists (2 ^ 52)%Z, (k + 1)%Z.
    split; [vm_compute; reflexivity |]. split; [lia |].
    split; [| exact Hb].
    rewrite Hrv, E, pow2_plus. change (pow2 1) with 2.
    change (inject_Z (2 ^ 53)) with (inject_Z (2 ^ 52) * 2). ring.
  - exists n, k. split; [lia |]. split; [lia |]. split; assumption.
Qed.

(** Every finite result of rounding is a binary64 number. *)
Lemma round_binary64 (q v : Q) : round q = Fin v -> binary64 v.
Proof.
  destruct (Qcompare_0 q) as [[_ Hq] | [[_ Hq] | [_ Hq]]].
  - rewrite round_zero by exact Hq. intros [= <-].
    exists 0%Z, 0%Z. split; [vm_compute; reflexivity |].
    split; [lia |]. split; [reflexivity |]. apply pow2_pos.
  - rewrite round_negative by exact Hq. rewrite round_pos_rv.
    destruct (Qle_bool (pow2 1024) (rv (- q))) eqn:E; [discriminate |].
    intros H. assert (Ev : v = - Qred (rv (- q))) by congruence. subst v.
    apply binary64_opp.
    apply (binary64_comp (rv (- q))); [now rewrite Qred_correct |].
    apply rv_binary64; [lra |]. now apply Qle_bool_false.
  - rewrite round_positive by exact Hq. rewrite round_pos_rv.
    destruct (Qle_bool (pow2 1024) (rv q)) eqn:E; [discriminate |].
    intros H. assert (Ev : v = Qred (rv q)) by congruence. subst v.
    apply (binary64_comp (rv q)); [now rewrite Qred_correct |].
    apply rv_binary64; [exact Hq |]. now apply Qle_bool_false.
Qed.

(** The binary64 numbers from [2^e] on are multiples of [2^(e - 52)]. *)
Lemma binary64_grid (v : Q) (e : Z) :
  binary64 v -> pow2 e <= v ->
  exists z : Z, v == inject_Z z * pow2 (e - 52).
Proof.
  intros (m & j & Hm & Hj & Hv & _) He.
  pose proof (pow2_pos e) as Hpe. pose proof (pow2_pos j) as Hpj.
  assert (Hm0 : (0 < m)%Z).
  { destruct (Z_lt_le_dec 0 m) as [H | H]; [exact H | exfalso].
    assert (Hn : inject_Z m <= 0)
      by (change 0 with (inject_Z 0); now rewrite <- Zle_Qle).
    assert (Hle : inject_Z m * pow2 j <= 0 * pow2 j)
      by (apply Qmult_le_compat_r; lra).
    lra. }
  assert (Hlt : v < pow2 (53 + j)).
  { rewrite Hv, pow2_plus. apply Qmult_lt_r; [exact Hpj |].
    rewrite pow2_Z by lia. rewrite <- Zlt_Qlt. lia. }
  assert (Hej : (e < 53 + j)%Z) by (apply pow2_lt_inv; lra).
  exists (m * 2 ^ (j - (e - 52)))%Z.
  rewrite Hv, inject_Z_mult, <- pow2_Z by lia.
  rewrite <- Qmult_assoc, <- pow2_plus.
  replace (j - (e - 52) + (e - 52))%Z with j by lia. reflexivity.
Qed.

Lemma Qred_inject_Z (z : Z) : Qred (inject_Z z) = inject_Z z.
Proof.
  pose proof (Qred_correct (inject_Z z)) as E.
  pose proof (gcd_Qred (inject_Z z)) as G.
  destruct (Qred (inject_Z z)) as [n d]. unfold Qeq in E. simpl in E, G.
  assert (Hd : (Z.pos d | n)%Z) by (exists z; lia).
  assert (Hg : Z.gcd n (Z.pos d) = Z.pos d).
  { rewrite Z.gcd_comm. apply Z.divide_gcd_iff; [lia | exact Hd]. }
  assert (d = 1%positive) by lia. subst d.
  unfold inject_Z. f_equal. lia.
Qed.

(** Whole numbers up to [2^53] in absolute value are binary64 numbers. *)
Lemma binary64_Z (z : Z) : (Z.abs z <= 2 ^ 53)%Z -> binary64 (inject_Z z).
Proof.
  intros H.
  assert (Hb : Qabs (inject_Z z) < pow2 1024).
  { apply Qle_lt_trans with (pow2 53); [| now apply pow2_lt].
    rewrite pow2_Z by lia. apply Qabs_Qle_condition.
    rewrite <- inject_Z_opp, <- !Zle_Qle. lia. }
  destruct (Z.eq_dec (Z.abs z) (2 ^ 53)) as [E | N].
  - exists (z / 2)%Z, 1%Z. split; [| split; [lia | split; [| exact Hb]]].
    + destruct (Z.abs_eq_or_opp z) as [Ez | Ez]; rewrite Ez in E.
      * subst z. vm_compute. reflexivity.
      * assert (z = (- 2 ^ 53)%Z) by lia. subst z. vm_compute. reflexivity.
    + change (pow2 1) with 2. change 2 with (inject_Z 2).
      rewrite <- inject_Z_mult.
      destruct (Z.abs_eq_or_opp z) as [Ez | Ez]; rewrite Ez in E.
      * subst z. reflexivity.
      * assert (z = (- 2 ^ 53)%Z) by lia. subst z. reflexivity.
  - exists z, 0%Z. split; [lia |]. split; [lia |]. split; [| exact Hb].
    change (pow2 0) with 1. ring.
Qed.

Lemma round_Z (z : Z) : (Z.abs z <= 2 ^ 53)%Z -> round (inject_Z z) = of_Z z.
Proof.
  intros H. rewrite (round_fix _ (binary64_Z z H)).
  now rewrite Qred_inject_Z.
Qed.

(** Sums, differences and products of whole numbers are exact as long as
    they stay within [2^53]. *)
Lemma add_of_Z (a b : Z) :
  (Z.abs (a + b) <= 2 ^ 53)%Z -> (of_Z a + of_Z b)%js = of_Z (a + b).
Proof.
  intros H. unfold add, of_Z.
  rewrite (round_comp _ (inject_Z (a + b))) by (now rewrite inject_Z_plus).
  now apply round_Z.
Qed.

Lemma sub_of_Z (a b : Z) :
  (Z.abs (a - b) <= 2 ^ 53)%Z -> (of_Z a - of_Z b)%js = of_Z (a - b).
Proof.
  intros H. unfold sub, add, neg, of_Z.
  rewrite (round_comp _ (inject_Z (a - b)))
    by (unfold Z.sub; now rewrite inject_Z_plus, inject_Z_opp).
  now apply round_Z.
Qed.

Lemma mul_of_Z (a b : Z) :
  (Z.abs (a * b) <= 2 ^ 53)%Z -> (of_Z a * of_Z b)%js = of_Z (a * b).
Proof.
  intros H. unfold mul, of_Z.
  rewrite (round_comp _ (inject_Z (a * b))) by (now rewrite inject_Z_mult).
  now apply round_Z.
Qed.

(** A quotient of whole numbers that is whole is exact. *)
Lemma div_of_Z (a b c : Z) :
  b <> 0%Z -> a = (b * c)%Z -> (Z.abs c <= 2 ^ 53)%Z ->
  (of_Z a / of_Z b)%js = of_Z c.
Proof.
  intros Hb -> Hc. unfold div, of_Z.
  assert (Hb0 : ~ inject_Z b == 0).
  { intros E. apply Hb. revert E. unfold Qeq. simpl. lia. }
  destruct (Qeq_bool (inject_Z b) 0) eqn:E;
    [apply Qeq_bool_iff in E; contradiction |].
  rewrite (round_comp _ (inject_Z c)) by (rewrite inject_Z_mult; now field).
  now apply round_Z.
Qed.

(** The remainder of whole numbers is the remainder of [Z]. *)
Lemma Qtrunc_quot (a b : Z) : b <> 0%Z -> Qtrunc (inject_Z a / inject_Z b) = Z.quot a b.
Proof.
  intros Hb. destruct b as [| pb | pb]; [congruence | |].
  - rewrite (Qtrunc_comp _ (a # pb)).
    + reflexivity.
    + rewrite (Qmake_Qdiv a pb). reflexivity.
  - rewrite (Qtrunc_comp _ ((- a) # pb)).
    + unfold Qtrunc. simpl. rewrite <- (Z.quot_opp_opp a (Z.neg pb)) by lia.
      reflexivity.
    + rewrite (Qmake_Qdiv (- a) pb). rewrite inject_Z_opp.
      change (inject_Z (Z.neg pb)) with (- inject_Z (Z.pos pb)).
      assert (~ inject_Z (Z.pos pb) == 0) by (unfold Qeq; simpl; lia).
      field. assumption.
Qed.
Lemma rem_of_Z (a b : Z) :
  b <> 0%Z ->
  exists r, (of_Z a %% of_Z b)%js = Fin r /\ r == inject_Z (Z.rem a b).
Proof.
  intros Hb. unfold rem, of_Z.
  assert (Hb0 : ~ inject_Z b == 0).
  { intros E. apply Hb. revert E. unfold Qeq. simpl. lia. }
  destruct (Qeq_bool (inject_Z b) 0) eqn:E;
    [apply Qeq_bool_iff in E; contradiction |].
  eexists. split; [reflexivity |].
  rewrite (Qtrunc_quot a b Hb).
  pose proof (Z.quot_rem' a b) as Hqr.
  assert (Hr : Z.rem a b = (a - b * Z.quot a b)%Z) by lia.
  rewrite Hr, inject_Z_minus, inject_Z_mult. reflexivity.
Qed.

End JSFacts.

(** ** The aligned window *)

Section AlignedWindow.
Import JS JSFacts.

Lemma startTimes_timed (files : list EDFFile) :
  Forall timed files ->
  map (fun file => getTime (startTime (header file))) files
  = map Fin (map (fun f => inject_Z (fileStart f)) files).
Proof.
  induction 1 as [| f fs [Hs _] _ IH]; simpl; [reflexivity |].
  rewrite Hs at 1. now rewrite IH.
Qed.

(** The end of a file of whole times is computed without rounding. *)
Lemma endTime_whole (f : EDFFile) :
  timed f -> wholeTimes f ->
  (getTime (startTime (header f)) + (duration f ?? of_Z 0) * of_Z 1000)%js
  = of_Z (fileEndZ f).
Proof.
  intros [Hs Hd] (He & Hbs & Hbe). rewrite Hs, Hd. cbn [getTime nullish].
  assert (Hw : fileDuration f * inject_Z 1000
               == inject_Z (fileEndZ f - fileStart f)).
  { rewrite inject_Z_minus, <- He. unfold fileEnd.
    change (inject_Z 1000) with 1000. ring. }
  unfold mul at 1. cbn [of_Z]. rewrite (round_comp _ _ Hw).
  rewrite round_Z by lia. rewrite add_of_Z by (rewrite Zplus_minus; lia).
  now rewrite Zplus_minus.
Qed.

Lemma endTimes_whole (files : list EDFFile) :
  Forall timed files -> Forall wholeTimes files ->
  map (fun file =>
         (getTime (startTime (header file))
          + (duration file ?? of_Z 0) * of_Z 1000)%js) files
  = map Fin (map (fun f => inject_Z (fileEndZ f)) files).
Proof.
  induction 1 as [| f fs Ht _ IH]; intros Hw; [reflexivity |].
  inversion Hw as [| ? ? Hwf Hws]; subst. cbn [map].
  rewrite (endTime_whole f Ht Hwf), (IH Hws). reflexivity.
Qed.

Lemma new_Date_of_Z (z : Z) :
  (Z.abs z <= maxTime)%Z -> new_Date (of_Z z) = DateOf z.
Proof.
  intros H. unfold new_Date, of_Z.
  assert (E : Qle_bool (Qabs (inject_Z z)) (inject_Z maxTime) = true).
  { apply Qle_bool_iff. apply Qabs_Qle_condition.
    rewrite <- inject_Z_opp, <- !Zle_Qle. lia. }
  now rewrite E, Qtrunc_inject_Z.
Qed.

(** The remainder by a positive number lies between zero and the dividend. *)
Lemma rem_between (a m : Z) :
  (0 < m)%Z ->
  (0 <= a -> 0 <= Z.rem a m <= a)%Z /\ (a <= 0 -> a <= Z.rem a m <= 0)%Z.
Proof.
  intros Hm. split; intros Ha.
  - split; [apply Z.rem_nonneg; lia | apply Z.rem_le; lia].
  - assert (E : Z.rem a m = (- Z.rem (- a) m)%Z)
      by (rewrite Z.rem_opp_l by lia; lia).
    assert (0 <= Z.rem (- a) m <= - a)%Z
      by (split; [apply Z.rem_nonneg; lia | apply Z.rem_le; lia]).
    lia.
Qed.

(** The window for files of whole times and a record duration of [m] whole
    milliseconds: the latest start [s], and the earliest end [r] less the
    remainder of [r - s] by [m]. *)
Lemma findCommonTimeRange_value (files : list EDFFile) (rd : Q) (m : Z) :
  files <> [] ->
  Forall timed files ->
  Forall wholeTimes files ->
  (0 < m <= 2 ^ 53)%Z ->
  rd * 1000 == inject_Z m ->
  exists s r : Z,
    findCommonTimeRange files (Fin rd)
    = {| range_start := DateOf s;
         range_end := DateOf (r - Z.rem (r - s) m) |}
    /\ (exists f, In f files /\ fileStart f = s)
    /\ (forall f, In f files -> (fileStart f <= s)%Z)
    /\ (exists f, In f files /\ fileEndZ f = r)
    /\ (forall f, In f files -> (r <= fileEndZ f)%Z).
Proof.
  intros Hne Ht Hw Hm Hrd.
  destruct files as [| f0 fs]; [congruence |].
  unfold findCommonTimeRange.
  rewrite (startTimes_timed _ Ht), (endTimes_whole _ Ht Hw).
  cbn [map].
  destruct (Math_max_Fin (inject_Z (fileStart f0))
              (map (fun f => inject_Z (fileStart f)) fs))
    as (qs & Hmax & Hsin & Hsmax).
  destruct (Math_min_Fin (inject_Z (fileEndZ f0))
              (map (fun f => inject_Z (fileEndZ f)) fs))
    as (qe & Hmin & Hein & Hemin).
  cbn [map] in Hmax, Hmin. cbv zeta. rewrite Hmax, Hmin. clear Hmax Hmin.
  change (inject_Z (fileStart f0) :: map (fun f => inject_Z (fileStart f)) fs)
    with (map (fun f => inject_Z (fileStart f)) (f0 :: fs)) in Hsin, Hsmax.
  change (inject_Z (fileEndZ f0) :: map (fun f => inject_Z (fileEndZ f)) fs)
    with (map (fun f => inject_Z (fileEndZ f)) (f0 :: fs)) in Hein, Hemin.
  apply in_map_iff in Hsin. destruct Hsin as (fsx & <- & Hfsx).
  apply in_map_iff in Hein. destruct Hein as (fex & <- & Hfex).
  set (s := fileStart fsx) in *. set (r := fileEndZ fex) in *.
  assert (Hbs : (Z.abs s <= 2 ^ 52)%Z).
  { rewrite Forall_forall in Hw. now destruct (Hw fsx Hfsx) as (_ & H & _). }
  assert (Hbr : (Z.abs r <= 2 ^ 52)%Z).
  { rewrite Forall_forall in Hw. now destruct (Hw fex Hfex) as (_ & _ & H). }
  fold (of_Z s). fold (of_Z r).
  assert (Hmul : (Fin rd * of_Z 1000)%js = of_Z m).
  { unfold mul, of_Z. change (inject_Z 1000) with 1000.
    rewrite (round_comp _ _ Hrd). apply round_Z. lia. }
  rewrite Hmul, sub_of_Z by lia.
  destruct (rem_of_Z (r - s) m) as (q & -> & Hq); [lia |].
  destruct (rem_between (r - s) m) as [Hpos Hneg]; [lia |].
  assert (He : (of_Z r - Fin q)%js = of_Z (r - Z.rem (r - s) m)).
  { unfold sub, add, neg, of_Z.
    rewrite (round_comp _ (inject_Z (r - Z.rem (r - s) m)))
      by (rewrite inject_Z_minus, Hq; reflexivity).
    apply round_Z. lia. }
  rewrite He.
  assert (Hmax : (2 ^ 52 <= maxTime)%Z) by (vm_compute; discriminate).
  rewrite !new_Date_of_Z by lia.
  exists s, r. split; [reflexivity |].
  split; [exists fsx; split; [exact Hfsx | reflexivity] |].
  split.
  { intros f Hf. rewrite Zle_Qle. apply Hsmax.
    apply (in_map (fun f => inject_Z (fileStart f))). exact Hf. }
  split; [exists fex; split; [exact Hfex | reflexivity] |].
  intros f Hf. rewrite Zle_Qle. apply Hemin.
  apply (in_map (fun f => inject_Z (fileEndZ f))). exact Hf.
Qed.

(** The remainder of [%] on whole numbers. *)
Lemma Qrem_Z (a m : Z) :
  m <> 0%Z -> Qrem (inject_Z a) (inject_Z m) == inject_Z (Z.rem a m).
Proof.
  intros Hm. unfold Qrem. rewrite (Qtrunc_quot a m Hm).
  pose proof (Z.quot_rem' a m) as Hqr.
  assert (Hr : Z.rem a m = (a - m * Z.quot a m)%Z) by lia.
  rewrite Hr, inject_Z_minus, inject_Z_mult. reflexivity.
Qed.

Lemma Qrem_comp (x x' y y' : Q) :
  x == x' -> y == y' -> Qrem x y == Qrem x' y'.
Proof.
  intros Hx Hy. unfold Qrem.
  assert (E : x / y == x' / y') by now rewrite Hx, Hy.
  rewrite (Qtrunc_comp _ _ E). now rewrite Hx, Hy.
Qed.

(** C1 (amended).  For every non-empty list of File Records, each with a
    valid start time and a finite duration whose end [start + duration * 1000]
    is a whole number of milliseconds, start and end within [2^52] ms of the
    epoch, and every positive record duration that is a whole number of
    milliseconds, [findCommonTimeRange] returns the latest start and the
    earliest end less the remainder of the span by the record duration; when
    the files overlap, the window starts no earlier than any file, ends no
    later than any file, and its length is an exact multiple of the record
    duration. *)
Theorem findCommonTimeRange_aligned (files : list EDFFile) (rd : Q) :
  files <> [] ->
  Forall timed files ->
  Forall wholeTimes files ->
  0 < rd ->
  wholeMilliseconds rd ->
  alignedWindow files rd.
Proof.
  intros Hne Ht Hw Hrd (m & Hm & Hmb).
  assert (Hm0 : (0 < m)%Z).
  { rewrite Zlt_Qlt. rewrite <- Hm. change (inject_Z 0) with 0. lra. }
  destruct (findCommonTimeRange_value files rd m Hne Ht Hw ltac:(lia) Hm)
    as (s & r & Heq & (fsx & Hfsx & Hs) & Hsmax & (fex & Hfex & Hr) & Hemin).
  exists s, (r - Z.rem (r - s) m)%Z, (inject_Z r).
  assert (Hend : forall f, In f files -> fileEnd f == inject_Z (fileEndZ f)).
  { intros f Hf. rewrite Forall_forall in Hw. now destruct (Hw f Hf). }
  destruct (rem_between (r - s) m Hm0) as [Hpos _].
  split; [exact Heq |].
  split; [rewrite <- Hs; now apply in_map |].
  split; [exact Hsmax |].
  split; [exists fex; split; [exact Hfex | now rewrite (Hend fex Hfex), Hr] |].
  split.
  { intros f Hf. rewrite (Hend f Hf), <- Zle_Qle. now apply Hemin. }
  split.
  { rewrite (Qrem_comp _ (inject_Z (r - s)) _ (inject_Z m))
      by (rewrite ?inject_Z_minus; auto with qarith).
    rewrite Qrem_Z by lia. now rewrite inject_Z_minus. }
  intros Hov. rewrite <- Zle_Qle in Hov. split.
  - intros f Hf. split; [now apply Hsmax |].
    rewrite (Hend f Hf), <- Zle_Qle. specialize (Hemin f Hf). lia.
  - exists (Z.quot (r - s) m).
    pose proof (Z.quot_rem' (r - s) m) as Hqr.
    rewrite Hm, <- inject_Z_mult. apply inject_Z_injective. lia.
Qed.

Lemma findCommonTimeRange_aligned_witness :
  alignedWindow [recordA; recordB] 60.
Proof.
  apply findCommonTimeRange_aligned.
  - discriminate.
  - repeat constructor.
  - repeat constructor; vm_compute; try reflexivity; discriminate.
  - reflexivity.
  - exists 60000%Z. split; [reflexivity | vm_compute; discriminate].
Defined.

(** C1 as stated fails: with a record duration of 62.5 ms the date that is
    returned is cut to 62 ms, which is no multiple of the record duration. *)
Lemma findCommonTimeRange_fractional_record :
  ~ alignedWindow [sixteenth] (1 # 16).
Proof.
  intros (s & e & rawEnd & Heq & _ & _ & (f & Hf & Hraw) & _ & _ & Hov).
  vm_compute in Heq. injection Heq as <- <-.
  destruct Hf as [<- | []].
  destruct Hov as [_ [k Hk]].
  - rewrite Hraw. vm_compute. discriminate.
  - revert Hk. unfold Qeq. simpl. lia.
Qed.

End AlignedWindow.

(** ** Grouping by label *)

Section Grouping.

Lemma Map_get_set (m : LabelMap) (k k' : string) (v : list SignalInfo) :
  Map_get (Map_set m k v) k'
  = if String.eqb k k' then Some v else Map_get m k'.
Proof.
  induction m as [| [k0 v0] m IH]; simpl.
  - reflexivity.
  - destruct (String.eqb k0 k) eqn:E0; simpl.
    + apply String.eqb_eq in E0. subst k0.
      destruct (String.eqb k k'); reflexivity.
    + rewrite IH. destruct (String.eqb k0 k') eqn:E1; [| reflexivity].
      apply String.eqb_eq in E1. subst k0.
      now rewrite String.eqb_sym, E0.
Qed.

Lemma Map_keys_set (m : LabelMap) (k : string) (v : list SignalInfo) :
  map fst (Map_set m k v)
  = if Map_has m k then map fst m else map fst m ++ [k].
Proof.
  unfold Map_has. induction m as [| [k0 v0] m IH]; simpl.
  - reflexivity.
  - destruct (String.eqb k0 k) eqn:E0; simpl.
    + reflexivity.
    + rewrite IH. now destruct (Map_get m k).
Qed.

Lemma Map_get_None (m : LabelMap) (k : string) :
  Map_get m k = None <-> ~ In k (map fst m).
Proof.
  induction m as [| [k0 v0] m IH]; simpl.
  - tauto.
  - destruct (String.eqb k0 k) eqn:E0.
    + apply String.eqb_eq in E0. split; [discriminate | tauto].
    + apply String.eqb_neq in E0. rewrite IH. tauto.
Qed.

Lemma Map_get_nth (m : LabelMap) (k : string) (v : list SignalInfo) :
  Map_get m k = Some v -> exists j, nth_error m j = Some (k, v).
Proof.
  induction m as [| [k0 v0] m IH]; simpl; [discriminate |].
  destruct (String.eqb k0 k) eqn:E0.
  - apply String.eqb_eq in E0. intros [= <-]. subst. now exists O.
  - intros H. destruct (IH H) as [j Hj]. now exists (S j).
Qed.

Lemma Map_nth_get (m : LabelMap) (j : nat) (k : string) (v : list SignalInfo) :
  NoDup (map fst m) -> nth_error m j = Some (k, v) -> Map_get m k = Some v.
Proof.
  revert j. induction m as [| [k0 v0] m IH]; intros j Hnd Hj.
  - destruct j; discriminate.
  - simpl in Hnd. inversion Hnd as [| ? ? Hnot Hnd']. subst.
    destruct j as [| j]; simpl in *.
    + injection Hj as -> ->. now rewrite String.eqb_refl.
    + destruct (String.eqb k0 k) eqn:E0.
      * apply String.eqb_eq in E0. subst k0. exfalso. apply Hnot.
        apply nth_error_In in Hj. now apply (in_map fst) in Hj.
      * now apply (IH j).
Qed.

Lemma grouped_nil : grouped [] [].
Proof. split; [constructor | reflexivity]. Qed.

Lemma grouped_step (m : LabelMap) (cs : list SignalInfo) (c : SignalInfo) :
  grouped m cs -> grouped (step m c) (cs ++ [c]).
Proof.
  intros [Hnd Hget]. unfold step, groupSignal.
  destruct c as [sg si fi]. simpl.
  set (l0 := label sg). set (c := mkInfo sg si fi).
  assert (Hc : forall l, filter (sameLabel l) (cs ++ [c])
                         = filter (sameLabel l) cs
                           ++ (if String.eqb l0 l then [c] else [])).
  { intros l. rewrite filter_app. simpl. unfold sameLabel at 2. simpl.
    fold l0. now destruct (String.eqb l0 l). }
  unfold Map_has. destruct (Map_get m l0) as [infos |] eqn:E.
  - rewrite E. split.
    + rewrite Map_keys_set. unfold Map_has. now rewrite E.
    + intros l. rewrite Map_get_set, Hc.
      destruct (String.eqb l0 l) eqn:El.
      * apply String.eqb_eq in El. subst l. rewrite Hget in E.
        destruct (filter (sameLabel l0) cs) as [| x g]; [discriminate |].
        injection E as <-. reflexivity.
      * rewrite app_nil_r. apply Hget.
  - rewrite Map_get_set, String.eqb_refl. split.
    + rewrite !Map_keys_set. unfold Map_has. rewrite E.
      rewrite Map_get_set, String.eqb_refl.
      apply NoDup_app; [exact Hnd | |].
      * repeat constructor. intros [].
      * intros x Hx [<- | []]. apply Map_get_None in E. contradiction.
    + intros l. rewrite !Map_get_set, Hc.
      destruct (String.eqb l0 l) eqn:El.
      * apply String.eqb_eq in El. subst l. rewrite Hget in E.
        destruct (filter (sameLabel l0) cs) as [| x g]; [| discriminate].
        reflexivity.
      * rewrite app_nil_r. apply Hget.
Qed.

Lemma grouped_fold (cs done : list SignalInfo) (m : LabelMap) :
  grouped m done -> grouped (fold_left step cs m) (done ++ cs).
Proof.
  revert done m. induction cs as [| c cs IH]; intros done m H; simpl.
  - now rewrite app_nil_r.
  - replace (done ++ c :: cs) with ((done ++ [c]) ++ cs)
      by now rewrite <- app_assoc.
    apply IH. now apply grouped_step.
Qed.

Lemma groupFile_channels (m : LabelMap) (fileIndex : nat) (file : EDFFile) :
  groupFile m fileIndex file = fold_left step (fileChannels fileIndex file) m.
Proof.
  unfold groupFile, fileChannels.
  generalize (combine (seq 0 (List.length (signals (header file))))
                (signals (header file))).
  intros l. revert m. induction l as [| [i s] l IH]; intros m; simpl.
  - reflexivity.
  - apply IH.
Qed.

Lemma groupByLabel_channels (files : list EDFFile) :
  groupByLabel files = fold_left step (channels files) [].
Proof.
  unfold groupByLabel, channels, channelsFrom.
  generalize (combine (seq 0 (List.length files)) files).
  intros l. generalize (@nil (string * list SignalInfo)).
  induction l as [| [i f] l IH]; intros m; simpl.
  - reflexivity.
  - rewrite fold_left_app, <- groupFile_channels. apply IH.
Qed.

Lemma groupByLabel_grouped (files : list EDFFile) :
  grouped (groupByLabel files) (channels files).
Proof.
  rewrite groupByLabel_channels.
  apply (grouped_fold (channels files) [] []). apply grouped_nil.
Qed.

End Grouping.

(** ** Selection of the best channel *)

Section Selection.

Lemma sort_head (l : list SignalInfo) :
  l <> [] ->
  exists best rest,
    sort bySamplesPerRecord l = best :: rest /\ firstHighest l best.
Proof.
  induction l as [| x t IH]; [congruence |]. intros _.
  destruct t as [| y t'].
  - exists x, []. split; [reflexivity |].
    exists [], []. repeat split; intros c [].
  - destruct IH as (b & r & Hs & pre & post & Hl & Hpre & Hpost);
      [discriminate |].
    change (sort bySamplesPerRecord (x :: y :: t'))
      with (sort_insert bySamplesPerRecord x
              (sort bySamplesPerRecord (y :: t'))).
    rewrite Hs. simpl. unfold bySamplesPerRecord at 1.
    fold (rate b). fold (rate x).
    destruct (0 <? rate b - rate x)%Z eqn:E.
    + apply Z.ltb_lt in E. eexists b, _. split; [reflexivity |].
      exists (x :: pre), post. rewrite Hl. split; [reflexivity |].
      split; [| exact Hpost].
      intros c [<- | Hc]; [lia | now apply Hpre].
    + apply Z.ltb_ge in E. eexists x, _. split; [reflexivity |].
      exists [], (y :: t'). split; [reflexivity |].
      split; [intros c [] |].
      intros c Hc. rewrite Hl in Hc. apply in_app_or in Hc.
      destruct Hc as [Hc | [<- | Hc]].
      * specialize (Hpre c Hc). lia.
      * lia.
      * specialize (Hpost c Hc). lia.
Qed.

Lemma firstHighest_In (l : list SignalInfo) (best : SignalInfo) :
  firstHighest l best -> In best l.
Proof.
  intros (pre & post & -> & _). apply in_or_app. right. now left.
Qed.

Lemma mergeLabel_pick (start end_ : JS.Date) (files : list EDFFile)
    (acc : list EDFSignal * list (list Q)) (g : list SignalInfo) :
  mergeLabel start end_ files acc g
  = option_map
      (fun p => (fst acc ++ [pickedSignal p],
                 snd acc ++ [pickedSamples start end_ p]))
      (pick files g).
Proof.
  unfold mergeLabel, pick.
  destruct (sort bySamplesPerRecord g) as [| best rest]; [reflexivity |].
  destruct (nth_error files (info_fileIndex best)) as [file |];
    [| reflexivity].
  destruct (nth_error (values file) (info_index best)); reflexivity.
Qed.

Lemma mergeLabels_picks (start end_ : JS.Date) (files : list EDFFile)
    (groups : list (list SignalInfo)) :
  forall acc out,
    mergeLabels start end_ files acc groups = Some out ->
    exists picks,
      Forall2 (fun g p => pick files g = Some p) groups picks
      /\ out = (fst acc ++ map pickedSignal picks,
                snd acc ++ map (pickedSamples start end_) picks).
Proof.
  induction groups as [| g groups IH]; intros acc out; simpl.
  - intros [= <-]. exists []. split; [constructor |].
    simpl. rewrite !app_nil_r. now destruct acc.
  - rewrite mergeLabel_pick.
    destruct (pick files g) as [p |] eqn:E; simpl; [| discriminate].
    intros H. destruct (IH _ _ H) as (picks & Hf & ->).
    exists (p :: picks). split; [now constructor |].
    simpl. now rewrite <- !app_assoc.
Qed.

Lemma mergeLabels_total (start end_ : JS.Date) (files : list EDFFile)
    (groups : list (list SignalInfo)) :
  Forall (fun g => pick files g <> None) groups ->
  forall acc, mergeLabels start end_ files acc groups <> None.
Proof.
  induction 1 as [| g groups Hg _ IH]; intros acc; simpl.
  - discriminate.
  - rewrite mergeLabel_pick.
    destruct (pick files g); [simpl | congruence]. apply IH.
Qed.

Lemma Forall2_nth_l {A B : Type} (R : A -> B -> Prop) (l : list A)
    (l' : list B) (j : nat) (x : A) :
  Forall2 R l l' -> nth_error l j = Some x ->
  exists y, nth_error l' j = Some y /\ R x y.
Proof.
  intros H. revert j. induction H as [| a b l l' Hab _ IH]; intros j Hj.
  - destruct j; discriminate.
  - destruct j as [| j]; simpl in *.
    + injection Hj as <-. eauto.
    + now apply IH.
Qed.

Lemma Forall2_nth_r {A B : Type} (R : A -> B -> Prop) (l : list A)
    (l' : list B) (j : nat) (y : B) :
  Forall2 R l l' -> nth_error l' j = Some y ->
  exists x, nth_error l j = Some x /\ R x y.
Proof.
  intros H. revert j. induction H as [| a b l l' Hab _ IH]; intros j Hj.
  - destruct j; discriminate.
  - destruct j as [| j]; simpl in *.
    + injection Hj as <-. eauto.
    + now apply IH.
Qed.

(** Every signal of every file is one of the channels. *)
Lemma fileChannels_In (fileIndex : nat) (file : EDFFile) (c : SignalInfo) :
  In c (fileChannels fileIndex file)
  <-> info_fileIndex c = fileIndex
      /\ nth_error (signals (header file)) (info_index c)
         = Some (info_signal c).
Proof.
  unfold fileChannels.
  assert (G : forall (sigs : list EDFSignal) (a : nat),
             In c (map (fun '(signalIndex, signal) =>
                          mkInfo signal signalIndex fileIndex)
                     (combine (seq a (List.length sigs)) sigs))
             <-> info_fileIndex c = fileIndex
                 /\ (a <= info_index c)%nat
                 /\ nth_error sigs (info_index c - a) = Some (info_signal c)).
  { induction sigs as [| s sigs IH]; intros a; simpl.
    - split; [intros [] |]. intros (_ & _ & H).
      destruct (info_index c - a)%nat; discriminate.
    - rewrite IH. split.
      + intros [<- | (Hf & Ha & Hn)]; simpl.
        * rewrite Nat.sub_diag. auto.
        * split; [exact Hf |]. split; [lia |].
          replace (info_index c - a)%nat with (S (info_index c - S a)) by lia.
          exact Hn.
      + intros (Hf & Ha & Hn).
        destruct (Nat.eq_dec (info_index c) a) as [He | Hne].
        * left. rewrite He, Nat.sub_diag in Hn. simpl in Hn.
          injection Hn as ->. destruct c; simpl in *. now subst.
        * right. split; [exact Hf |]. split; [lia |].
          replace (info_index c - a)%nat with (S (info_index c - S a)) in Hn
            by lia.
          exact Hn. }
  rewrite G, Nat.sub_0_r. intuition lia.
Qed.

Lemma channels_In (files : list EDFFile) (c : SignalInfo) :
  In c (channels files)
  <-> exists file,
        nth_error files (info_fileIndex c) = Some file
        /\ nth_error (signals (header file)) (info_index c)
           = Some (info_signal c).
Proof.
  unfold channels, channelsFrom.
  assert (G : forall (fs : list EDFFile) (a : nat),
             In c (flat_map (fun '(fileIndex, file) =>
                               fileChannels fileIndex file)
                     (combine (seq a (List.length fs)) fs))
             <-> exists file,
                   (a <= info_fileIndex c)%nat
                   /\ nth_error fs (info_fileIndex c - a) = Some file
                   /\ nth_error (signals (header file)) (info_index c)
                      = Some (info_signal c)).
  { induction fs as [| f fs IH]; intros a; simpl.
    - split; [intros [] |]. intros (file & _ & H & _).
      destruct (info_fileIndex c - a)%nat; discriminate.
    - rewrite in_app_iff, fileChannels_In, IH. split.
      + intros [[Hf Hn] | (file & Ha & Hn & Hs)].
        * exists f. rewrite Hf, Nat.sub_diag. auto.
        * exists file. split; [lia |]. split; [| exact Hs].
          replace (info_fileIndex c - a)%nat
            with (S (info_fileIndex c - S a)) by lia.
          exact Hn.
      + intros (file & Ha & Hn & Hs).
        destruct (Nat.eq_dec (info_fileIndex c) a) as [He | Hne].
        * left. rewrite He, Nat.sub_diag in Hn. simpl in Hn.
          injection Hn as ->. auto.
        * right. exists file. split; [lia |]. split; [| exact Hs].
          replace (info_fileIndex c - a)%nat
            with (S (info_fileIndex c - S a)) in Hn by lia.
          exact Hn. }
  rewrite G, Nat.sub_0_r. split.
  - intros (file & _ & H1 & H2). eauto.
  - intros (file & H1 & H2). exists file. split; [lia | auto].
Qed.

Lemma candidates_present (l : string) (files : list EDFFile) :
  labelPresent l files -> candidates l files <> [].
Proof.
  intros (f & s & Hf & Hs & Hl).
  apply In_nth_error in Hf. destruct Hf as [fi Hfi].
  apply In_nth_error in Hs. destruct Hs as [si Hsi].
  assert (Hc : In (mkInfo s si fi) (candidates l files)).
  { apply filter_In. split.
    - apply channels_In. exists f. auto.
    - unfold sameLabel. simpl. now apply String.eqb_eq. }
  intros E. now rewrite E in Hc.
Qed.

End Selection.

Section BestChannel.

Lemma pick_head (files : list EDFFile) (g : list SignalInfo)
    (best : SignalInfo) (file : EDFFile) (vals : list Q) :
  pick files g = Some (best, file, vals) ->
  firstHighest g best
  /\ nth_error files (info_fileIndex best) = Some file
  /\ nth_error (values file) (info_index best) = Some vals.
Proof.
  unfold pick. intros H.
  destruct g as [| x g'] eqn:Eg; [discriminate |]. rewrite <- Eg in *.
  destruct (sort_head g) as (b & r & Hs & Hb); [now rewrite Eg |].
  rewrite Hs in H.
  destruct (nth_error files (info_fileIndex b)) as [f |] eqn:Ef;
    [| discriminate].
  destruct (nth_error (values f) (info_index b)) as [v |] eqn:Ev;
    [| discriminate].
  injection H as <- <- <-. auto.
Qed.

Lemma grouped_get (m : LabelMap) (cs g : list SignalInfo) (l : string) :
  grouped m cs -> Map_get m l = Some g -> g = filter (sameLabel l) cs.
Proof.
  intros [_ Hget] H. rewrite Hget in H.
  destruct (filter (sameLabel l) cs); [discriminate | now injection H].
Qed.

Lemma candidate_label (l : string) (files : list EDFFile) (c : SignalInfo) :
  In c (candidates l files) -> label (info_signal c) = l.
Proof.
  intros H. apply filter_In in H. destruct H as [_ H].
  now apply String.eqb_eq in H.
Qed.

(** The channel that the merged output carries for a label with candidates. *)
Lemma mergeSignals_best (start end_ : JS.Date) (files : list EDFFile)
    (out : Merged) (l : string) :
  mergeSignals start end_ files = Some out ->
  candidates l files <> [] ->
  exists j best file vals,
    firstHighest (candidates l files) best
    /\ nth_error (mergedSignals out) j = Some (info_signal best)
    /\ nth_error files (info_fileIndex best) = Some file
    /\ nth_error (values file) (info_index best) = Some vals
    /\ nth_error (mergedValues out) j
       = Some (extractSamples start end_ file best vals)
    /\ (forall j' s', nth_error (mergedSignals out) j' = Some s' ->
                      label s' = l -> j' = j).
Proof.
  intros Hm Hne. unfold mergeSignals in Hm.
  destruct (mergeLabels start end_ files ([], [])
              (Map_values (groupByLabel files))) as [[sigs vals] |] eqn:E;
    [| discriminate].
  injection Hm as <-. simpl.
  destruct (mergeLabels_picks _ _ _ _ _ _ E) as (picks & Hp & Hout).
  simpl in Hout. injection Hout as -> ->.
  pose proof (groupByLabel_grouped files) as Hg.
  set (m := groupByLabel files) in *.
  assert (Hget : Map_get m l = Some (candidates l files)).
  { destruct Hg as [_ Hget]. rewrite Hget. fold (candidates l files).
    destruct (candidates l files); [congruence | reflexivity]. }
  destruct (Map_get_nth _ _ _ Hget) as [j Hj].
  assert (Hv : nth_error (Map_values m) j = Some (candidates l files)).
  { unfold Map_values. now rewrite (map_nth_error snd _ _ Hj). }
  destruct (Forall2_nth_l _ _ _ _ _ Hp Hv) as ([[best file] v] & Hpj & Hpick).
  destruct (pick_head _ _ _ _ _ Hpick) as (Hbest & Hfile & Hvals).
  exists j, best, file, v.
  split; [exact Hbest |].
  split; [now rewrite (map_nth_error pickedSignal _ _ Hpj) |].
  split; [exact Hfile |].
  split; [exact Hvals |].
  split; [now rewrite (map_nth_error (pickedSamples start end_) _ _ Hpj) |].
  intros j' s' Hj' Hl'.
  rewrite nth_error_map in Hj'.
  destruct (nth_error picks j') as [[[best' file'] v'] |] eqn:Epj';
    [| discriminate].
  injection Hj' as <-.
  destruct (Forall2_nth_r _ _ _ _ _ Hp Epj') as (g' & Hg' & Hpick').
  unfold Map_values in Hg'. rewrite nth_error_map in Hg'.
  destruct (nth_error m j') as [[k' g''] |] eqn:Emj'; [| discriminate].
  injection Hg' as ->.
  destruct (pick_head _ _ _ _ _ Hpick') as (Hbest' & _ & _).
  assert (Hk : Map_get m k' = Some g').
  { apply (Map_nth_get m j'); [apply Hg | exact Emj']. }
  apply (grouped_get _ _ _ _ Hg) in Hk.
  apply firstHighest_In in Hbest'. rewrite Hk in Hbest'.
  apply candidate_label in Hbest'.
  unfold pickedSignal in Hl'. simpl in Hl'.
  assert (k' = l) by congruence. subst k'.
  destruct Hg as [Hnd _].
  apply (proj1 (NoDup_nth_error (map fst m)) Hnd).
  - rewrite length_map. apply nth_error_Some. now rewrite Emj'.
  - rewrite !nth_error_map, Emj', Hj. simpl. congruence.
Qed.

(** C2.  Whenever [mergeSignals] returns, for every label of a candidate file
    the merged output holds exactly one channel of that label: the descriptor
    and the extracted samples of the channel of highest samples-per-record
    among the channels of that label of all candidates, the first one met
    (file order, then signal order) when several have it.  Of two candidates
    at 1500 and at 30 samples per record the one at 1500 is selected. *)
Theorem mergeSignals_selects_best (start end_ : JS.Date)
    (files : list EDFFile) (out : Merged) :
  mergeSignals start end_ files = Some out ->
  selectsBest start end_ files out
  /\ (forall l, rates1500and30 l files -> selected out l 1500).
Proof.
  intros Hm. split.
  - intros l Hl. apply (mergeSignals_best _ _ _ _ _ Hm).
    now apply candidates_present.
  - intros l (c1 & c2 & Hc & Hr).
    destruct (mergeSignals_best _ _ _ _ l Hm)
      as (j & best & file & vals & Hbest & Hj & _); [now rewrite Hc |].
    exists j, (info_signal best). split; [exact Hj |].
    split.
    + apply (candidate_label l files). now apply firstHighest_In.
    + rewrite Hc in Hbest. destruct Hbest as (pre & post & Heq & Hpre & Hpost).
      fold (rate best).
      destruct pre as [| p0 [| p1 pre]]; simpl in Heq.
      * injection Heq as <- <-. specialize (Hpost c2 (or_introl eq_refl)).
        lia.
      * injection Heq as <- <- <-. specialize (Hpre c1 (or_introl eq_refl)).
        lia.
      * injection Heq as _ _ Heq. destruct pre; discriminate.
Qed.

(** [mergeSignals] returns when every signal of every candidate has a sample
    array. *)
Lemma mergeSignals_returns (start end_ : JS.Date) (files : list EDFFile) :
  Forall hasArrays files ->
  exists out, mergeSignals start end_ files = Some out.
Proof.
  intros Hf. unfold mergeSignals.
  destruct (mergeLabels start end_ files ([], [])
              (Map_values (groupByLabel files))) as [[sigs vals] |] eqn:E.
  - eauto.
  - exfalso. revert E. apply mergeLabels_total.
    apply Forall_forall. intros g Hg.
    unfold Map_values in Hg. apply in_map_iff in Hg.
    destruct Hg as ([k g'] & <- & Hin). simpl.
    pose proof (groupByLabel_grouped files) as Hgr.
    apply In_nth_error in Hin. destruct Hin as [j Hj].
    pose proof (Map_nth_get _ _ _ _ (proj1 Hgr) Hj) as Hk.
    apply (grouped_get _ _ _ _ Hgr) in Hk.
    assert (Hne : g' <> []).
    { destruct Hgr as [_ Hget]. specialize (Hget k).
      rewrite (Map_nth_get _ _ _ _ (proj1 (groupByLabel_grouped files)) Hj)
        in Hget.
      rewrite <- Hk in Hget. destruct g'; [discriminate | discriminate]. }
    destruct (sort_head g' Hne) as (b & r & Hs & Hb).
    unfold pick. rewrite Hs.
    apply firstHighest_In in Hb. rewrite Hk in Hb.
    apply filter_In in Hb. destruct Hb as [Hb _].
    apply channels_In in Hb. destruct Hb as (file & Hfile & Hsig).
    rewrite Hfile.
    assert (Hin : In file files) by (eapply nth_error_In; eauto).
    rewrite Forall_forall in Hf. specialize (Hf file Hin).
    unfold hasArrays in Hf.
    destruct (nth_error (values file) (info_index b)) eqn:Ev;
      [discriminate |].
    apply nth_error_None in Ev.
    assert (info_index b < List.length (signals (header file)))%nat.
    { apply nth_error_Some. now rewrite Hsig. }
    lia.
Qed.

Lemma mergeSignals_selects_best_witness :
  exists out,
    mergeSignals (JS.DateOf 0) (JS.DateOf 60000) [slowPress; fastPress]
    = Some out
    /\ selectsBest (JS.DateOf 0) (JS.DateOf 60000) [slowPress; fastPress] out
    /\ selected out "Press" 1500.
Proof.
  eexists. split; [vm_compute; reflexivity |].
  match goal with
  | |- selectsBest ?s ?e ?fs ?o /\ _ =>
      destruct (mergeSignals_selects_best s e fs o) as [H1 H2];
        [vm_compute; reflexivity |]
  end.
  split; [exact H1 |].
  apply H2. eexists _, _. split; [vm_compute; reflexivity |].
  right. split; reflexivity.
Defined.

End BestChannel.

(** ** Annotations *)

Section Annotations.
Import JS JSFacts.

Lemma keep_fold (start end_ : Date) (file : EDFFile)
    (l acc : list EDFAnnotation) :
  fold_left
    (fun acc' a =>
       if inWindow start end_ file a then acc' ++ [retime start file a]
       else acc') l acc
  = acc ++ map (retime start file) (filter (inWindow start end_ file) l).
Proof.
  revert acc. induction l as [| a l IH]; intros acc; simpl.
  - now rewrite app_nil_r.
  - rewrite IH. destruct (inWindow start end_ file a); simpl.
    + now rewrite <- app_assoc.
    + reflexivity.
Qed.

Lemma keep_fold_files (start end_ : Date) (files : list EDFFile)
    (acc : list EDFAnnotation) :
  fold_left
    (fun acc0 file =>
       fold_left
         (fun acc' a =>
            if inWindow start end_ file a then acc' ++ [retime start file a]
            else acc')
         (annotations file) acc0)
    files acc
  = acc
    ++ flat_map
         (fun file =>
            map (retime start file)
              (filter (inWindow start end_ file) (annotations file)))
         files.
Proof.
  revert acc. induction files as [| f files IH]; intros acc; simpl.
  - now rewrite app_nil_r.
  - rewrite keep_fold, IH. now rewrite <- app_assoc.
Qed.

Lemma mergeAnnotations_flat_map (start end_ : Date) (files : list EDFFile) :
  mergeAnnotations start end_ files
  = flat_map
      (fun file =>
         map (retime start file)
           (filter (inWindow start end_ file) (annotations file)))
      files.
Proof. unfold mergeAnnotations. now rewrite keep_fold_files. Qed.

Lemma inWindow_within (start end_ : Date) (file : EDFFile)
    (a : EDFAnnotation) :
  inWindow start end_ file a = true <-> withinWindow start end_ file a.
Proof.
  unfold inWindow, withinWindow. fold (absoluteTime file a).
  destruct (absoluteTime file a) as [t | | |],
    start as [ws |], end_ as [we |];
    cbn [getTime of_Z geb leb andb];
    try (split; [discriminate | intros []]);
    try (rewrite andb_false_r; split; [discriminate | intros []]).
  rewrite andb_true_iff, !Qle_bool_iff. reflexivity.
Qed.

Lemma retime_retimed (start : Date) (file : EDFFile) (a : EDFAnnotation) :
  retimed start file a (retime start file a).
Proof. unfold retimed, retime. cbn [onset ann_duration description]. auto. Qed.

(** Where nothing is rounded the onset moves by exactly the offset. *)
Lemma retime_exact (start : Date) (file : EDFFile) (a : EDFAnnotation) :
  exactShift start file a -> shiftedExactly start file a (retime start file a).
Proof.
  intros (ws & fs & o & Hs & Hf & Ho & Hb & Hq & Hsum).
  exists ws, fs, o.
  unfold retime. cbn [onset]. rewrite Hs, Hf, Ho. cbn [getTime].
  rewrite sub_of_Z by exact Hb.
  assert (Hd : (of_Z (fs - ws) / of_Z 1000)%js
               = Fin (Qred ((inject_Z fs - inject_Z ws) / 1000))).
  { unfold div, of_Z. change (Qeq_bool (inject_Z 1000) 0) with false.
    cbv iota.
    rewrite (round_comp _ ((inject_Z fs - inject_Z ws) / 1000))
      by (rewrite inject_Z_minus; reflexivity).
    now apply round_fix. }
  rewrite Hd. unfold add.
  assert (E : o + Qred ((inject_Z fs - inject_Z ws) / 1000)
              == o + (inject_Z fs - inject_Z ws) / 1000)
    by (now rewrite Qred_correct).
  rewrite (round_comp _ _ E), (round_fix _ Hsum).
  eexists. split; [reflexivity |]. split; [reflexivity |].
  split; [reflexivity |]. split; [reflexivity |].
  rewrite Qred_correct. ring.
Qed.

(** The window test is on the computed time: an onset of the binary64 number
    nearest to 0.001 s, which is above 0.001 s, has the computed time 1 ms
    and is kept in a window that ends at 1 ms. *)
Lemma inWindow_rounded_time :
  inject_Z 1 < thousandth * 1000
  /\ absoluteTime earlyNote (note thousandth "Hypopnea") = Fin 1
  /\ inWindow (DateOf 0) (DateOf 1) earlyNote (note thousandth "Hypopnea")
     = true.
Proof. repeat split. Qed.

(** C5 (amended).  Whenever [mergeSignals] returns, its annotations are, file
    by file and in order, those annotations of the candidates whose absolute
    time [fileStart + onset * 1000], as computed in binary64 arithmetic, lies
    in the closed window from [start] to [end]; each has its onset replaced
    by the binary64 sum of the onset and [(fileStart - start) / 1000] and is
    otherwise unchanged; an annotation outside the window occurs nowhere in
    the output.  The onset moves by exactly [(fileStart - start) / 1000] where
    that quotient and the sum are binary64 numbers. *)
Theorem mergeSignals_annotations (start end_ : Date) (files : list EDFFile)
    (out : Merged) :
  mergeSignals start end_ files = Some out ->
  mergedAnnotations out
  = flat_map
      (fun file =>
         map (retime start file)
           (filter (inWindow start end_ file) (annotations file)))
      files
  /\ (forall file a,
        inWindow start end_ file a = true <-> withinWindow start end_ file a)
  /\ (forall file a, retimed start file a (retime start file a))
  /\ (forall a',
        In a' (mergedAnnotations out)
        <-> exists file a,
              In file files /\ In a (annotations file)
              /\ withinWindow start end_ file a
              /\ a' = retime start file a)
  /\ (forall file a,
        exactShift start file a ->
        shiftedExactly start file a (retime start file a)).
Proof.
  intros Hm.
  assert (Ha : mergedAnnotations out = mergeAnnotations start end_ files).
  { unfold mergeSignals in Hm.
    destruct (mergeLabels _ _ _ _ _) as [[sigs vals] |]; [| discriminate].
    now injection Hm as <-. }
  rewrite Ha, mergeAnnotations_flat_map.
  split; [reflexivity |].
  split; [intros; apply inWindow_within |].
  split; [intros file a; apply retime_retimed |].
  split; [| intros file a; apply retime_exact].
  intros a'. rewrite in_flat_map. split.
  - intros (file & Hf & Hin). apply in_map_iff in Hin.
    destruct Hin as (a & <- & Hin). apply filter_In in Hin.
    destruct Hin as [Hin Hw]. apply inWindow_within in Hw.
    exists file, a. auto.
  - intros (file & a & Hf & Hin & Hw & ->).
    exists file. split; [exact Hf |]. apply in_map. apply filter_In.
    split; [exact Hin |]. now apply inWindow_within.
Qed.

Lemma mergeSignals_annotations_witness :
  exists out,
    mergeSignals (DateOf 0) (DateOf 60000) [annotated] = Some out
    /\ mergedAnnotations out
       = [ {| onset := Fin (63 # 2);
              ann_duration := None;
              description := "Hypopnea" |} ].
Proof.
  eexists. split; [vm_compute; reflexivity |].
  match goal with
  | |- mergedAnnotations ?o = _ =>
      destruct (mergeSignals_annotations (DateOf 0) (DateOf 60000)
                  [annotated] o) as [H _]; [vm_compute; reflexivity |]
  end.
  rewrite H. vm_compute. reflexivity.
Defined.

(** C5 as stated fails: for a file that starts 200 ms after the window and
    an annotation at the binary64 number nearest to 0.1 s, the onset of the
    output is the binary64 number nearest to 0.3 s, which is not the onset
    plus 0.2 s. *)
Lemma mergeSignals_rounded_onset :
  ~ shiftsExactly (DateOf 0) (DateOf 60000) [lateStart].
Proof.
  intros H.
  destruct (mergeSignals (DateOf 0) (DateOf 60000) [lateStart])
    as [out |] eqn:E; [| vm_compute in E; discriminate].
  pose proof E as E'. vm_compute in E'. injection E' as E'.
  assert (Hin : exists a', In a' (mergedAnnotations out))
    by (rewrite <- E'; eexists; now left).
  destruct Hin as [a' Hin].
  destruct (H out a' E Hin) as (file & a & Hf & Ha & Hs).
  rewrite <- E' in Hin. destruct Hin as [<- | []].
  destruct Hf as [<- | []]. destruct Ha as [<- | []].
  destruct Hs as (ws & fs & o & o' & Hws & Hfs & Ho & Ho' & Heq).
  injection Hws as <-. injection Hfs as <-.
  injection Ho as <-. injection Ho' as <-.
  revert Heq. vm_compute. discriminate.
Qed.

End Annotations.

(** ** Length of the extracted samples *)

Section SampleCount.
Import JS JSFacts.








(** The computed positions are not always the exact ones: for 25 samples per
    record of 60 s and a window of 300 s the end position is computed as the
    binary64 number just above 125, and 126 samples are extracted where the
    window times the sample rate is 125. *)
Lemma extractSamples_rounded_up :
  nominalSamples 0 300000 eightRecords (mkInfo (channel "Leak" 25) 0 0) == 125
  /\ List.length
       (extractSamples (DateOf 0) (DateOf 300000) eightRecords
          (mkInfo (channel "Leak" 25) 0 0) (repeat 1 200))
     = 126%nat.
Proof. split; vm_compute; reflexivity. Qed.

(** [loadSession] calls [findCommonTimeRange] without a record duration: the
    end of the window it gets is the invalid date, whatever the files. *)
Lemma findCommonTimeRange_without_duration (files : list EDFFile) :
  range_end (findCommonTimeRange files NaN) = InvalidDate.
Proof.
  unfold findCommonTimeRange. cbn [range_end].
  assert (H : forall a b : num, new_Date (a - (a - b) %% NaN)%js = InvalidDate).
  { intros a b. destruct (a - b)%js, a; reflexivity. }
  apply H.
Qed.

End SampleCount.

(** ** Canonical labels *)

Section Canonical.

Lemma some_alias_In (aliases : list string) (l : string) :
  some_alias aliases l = true <-> In l aliases.
Proof.
  unfold some_alias. rewrite existsb_exists. split.
  - intros (a & Ha & E). apply String.eqb_eq in E. now subst.
  - intros H. exists l. split; [exact H | apply String.eqb_refl].
Qed.

Lemma findCanonical_Some (synonyms : Synonyms) (l c : string) :
  findCanonical synonyms l = Some c -> firstAliasOf synonyms l c.
Proof.
  induction synonyms as [| [c0 al] rest IH]; simpl; [discriminate |].
  destruct (some_alias al l) eqn:E.
  - intros [= <-]. exists [], al, rest. split; [reflexivity |].
    split; [now apply some_alias_In | intros e []].
  - intros H. destruct (IH H) as (before & aliases & after & -> & Hin & Hb).
    exists ((c0, al) :: before), aliases, after.
    split; [reflexivity |]. split; [exact Hin |].
    intros e [<- | He]; [| now apply Hb].
    simpl. intros Hl. apply some_alias_In in Hl. congruence.
Qed.

Lemma findCanonical_None (synonyms : Synonyms) (l : string) :
  findCanonical synonyms l = None -> unmatched synonyms l.
Proof.
  induction synonyms as [| [c0 al] rest IH]; simpl.
  - intros _ e [].
  - destruct (some_alias al l) eqn:E; [discriminate |].
    intros H e [<- | He]; [| now apply IH].
    simpl. intros Hl. apply some_alias_In in Hl. congruence.
Qed.

Lemma findCanonical_In (synonyms : Synonyms) (l c : string) :
  findCanonical synonyms l = Some c -> In c (map fst synonyms).
Proof.
  intros H. destruct (findCanonical_Some _ _ _ H) as (b & a & r & -> & _).
  rewrite map_app. apply in_or_app. right. now left.
Qed.

Lemma canonicalizeSignal_canonicalized (synonyms : Synonyms) (s : EDFSignal) :
  canonicalized synonyms s (canonicalizeSignal synonyms s).
Proof.
  unfold canonicalized, canonicalizeSignal.
  destruct (findCanonical synonyms (label s)) as [c |] eqn:E.
  - split; [repeat split |]. left. now apply findCanonical_Some.
  - split; [repeat split |]. right. split; [| reflexivity].
    now apply findCanonical_None.
Qed.

(** No canonical name of the ResMed table is an alias in it. *)
Lemma CANONICAL_NAMES_fixed (c : string) :
  In c (map fst ResMedLoader.CANONICAL_NAMES) ->
  findCanonical ResMedLoader.CANONICAL_NAMES c = None.
Proof.
  intros H.
  assert (Hall : forallb
                   (fun c => match findCanonical ResMedLoader.CANONICAL_NAMES c with
                             | None => true
                             | Some _ => false
                             end)
                   (map fst ResMedLoader.CANONICAL_NAMES) = true)
    by (vm_compute; reflexivity).
  rewrite forallb_forall in Hall. specialize (Hall c H).
  now destruct (findCanonical ResMedLoader.CANONICAL_NAMES c).
Qed.

Lemma canonicalizeSignal_idempotent (s : EDFSignal) :
  canonicalizeSignal ResMedLoader.CANONICAL_NAMES
    (canonicalizeSignal ResMedLoader.CANONICAL_NAMES s)
  = canonicalizeSignal ResMedLoader.CANONICAL_NAMES s.
Proof.
  unfold canonicalizeSignal at 2 3.
  destruct (findCanonical ResMedLoader.CANONICAL_NAMES (label s)) as [c |] eqn:E.
  - unfold canonicalizeSignal. unfold withLabel at 1. cbn [label].
    now rewrite (CANONICAL_NAMES_fixed c (findCanonical_In _ _ _ E)).
  - unfold canonicalizeSignal. now rewrite E.
Qed.

(** C10.  [canonicalizeLabels] changes a signal only in its label, and the
    label only when it is, letter for letter, an alias in the table: it then
    becomes the canonical name of the first entry that lists it; a label that
    no entry lists is left as it is.  With the ResMed table, canonicalizing
    twice is canonicalizing once, for every list of signals. *)
Theorem canonicalizeLabels_exact_and_idempotent (signals : list EDFSignal)
    (synonyms : Synonyms) :
  Forall2 (canonicalized synonyms) signals
    (canonicalizeLabels signals synonyms)
  /\ canonicalizeLabels
       (canonicalizeLabels signals ResMedLoader.CANONICAL_NAMES)
       ResMedLoader.CANONICAL_NAMES
     = canonicalizeLabels signals ResMedLoader.CANONICAL_NAMES.
Proof.
  unfold canonicalizeLabels. split.
  - induction signals as [| s signals IH]; simpl; constructor.
    + apply canonicalizeSignal_canonicalized.
    + exact IH.
  - rewrite map_map. apply map_ext. intros s.
    apply canonicalizeSignal_idempotent.
Qed.

End Canonical.

(** ** Record duration and record count *)

Section SessionFiles.
Import JS ResMedLoader.

(** [filterSignals] leaves no slot undefined when every signal has a sample
    array. *)
Lemma filterSignals_defined (sigs : list EDFSignal) (vals : list (list Q))
    (filter : LabelFilter) :
  (List.length sigs <= List.length vals)%nat ->
  Forall (fun v => v <> None) (snd (filterSignals sigs vals filter)).
Proof.
  intros Hlen. unfold filterSignals. cbv zeta.
  assert (Hidx : forall idx s,
             In (idx, s) (combine (seq 0 (List.length sigs)) sigs) ->
             (idx < List.length vals)%nat).
  { intros idx s H. apply in_combine_l in H. apply in_seq in H. lia. }
  revert Hidx. generalize (combine (seq 0 (List.length sigs)) sigs).
  intros l.
  assert (Hacc : Forall (fun v : option (list Q) => v <> None)
                   (snd (@nil EDFSignal, @nil (option (list Q)))))
    by constructor.
  revert Hacc. generalize (@nil EDFSignal, @nil (option (list Q))).
  induction l as [| [idx s] l IH]; intros acc Hacc Hidx; cbn [fold_left].
  - exact Hacc.
  - apply IH.
    + match goal with |- context [if ?c then _ else _] => destruct c end;
        [| exact Hacc].
      cbn [snd]. apply Forall_app. split; [exact Hacc |].
      constructor; [| constructor].
      apply nth_error_Some. apply (Hidx idx s). now left.
    + intros idx' s' H. apply (Hidx idx' s'). now right.
Qed.

(** The sample arrays that [loadSession] filters are all defined. *)
Lemma loadSession_values_defined (file : File) :
  Forall (fun v => v <> None)
    (snd (filterSignals (signals (readHeader file))
            (map (readSignal file)
               (seq 0 (List.length (signals (readHeader file)))))
            housekeeping)).
Proof.
  apply filterSignals_defined. now rewrite length_map, length_seq.
Qed.

Lemma mismatch_test (d : Q) :
  negb (Qeq_bool d recordDuration_fixed) && negb (Qeq_bool d 0) = true
  <-> mismatched d.
Proof.
  unfold mismatched, recordDuration_fixed.
  rewrite andb_true_iff, !negb_true_iff.
  split; intros [H1 H2].
  - split; intros E; apply Qeq_bool_iff in E; congruence.
  - split.
    + destruct (Qeq_bool d 60) eqn:E; [| reflexivity].
      apply Qeq_bool_iff in E. contradiction.
    + destruct (Qeq_bool d 0) eqn:E; [| reflexivity].
      apply Qeq_bool_iff in E. contradiction.
Qed.

(** A file that declares another record duration makes the loop body throw,
    and only such a file. *)
Lemma loadFile_throws (session : Session File) (tree : IntervalTree)
    (file : File) :
  declaresMismatch file ->
  loadFile session tree file
  = inl (UnexpectedRecordDuration (recordDuration (readHeader file))).
Proof.
  intros H. unfold loadFile.
  apply mismatch_test in H. now rewrite H.
Qed.

Lemma loadFile_accepts (session : Session File) (tree : IntervalTree)
    (file : File) :
  ~ declaresMismatch file ->
  exists tree', loadFile session tree file = inr tree'.
Proof.
  intros H. unfold loadFile.
  destruct (negb (Qeq_bool (recordDuration (readHeader file))
                    recordDuration_fixed)
            && negb (Qeq_bool (recordDuration (readHeader file)) 0)) eqn:E.
  - apply mismatch_test in E. contradiction.
  - destruct (filterSignals _ _ _) as [fsigs fvals].
    cbn [dataRecords withSignals].
    destruct (dataRecords (readHeader file) <=? of_Z 0)%js; eauto.
Qed.

Lemma mismatched_dec (d : Q) : {mismatched d} + {~ mismatched d}.
Proof.
  destruct (negb (Qeq_bool d recordDuration_fixed) && negb (Qeq_bool d 0))
    eqn:E.
  - left. now apply mismatch_test.
  - right. intros H. apply mismatch_test in H. congruence.
Qed.

Lemma loadFiles_throws (session : Session File) (fs : list File) :
  forall tree,
    Exists declaresMismatch fs ->
    exists d, loadFiles session tree fs = inl (UnexpectedRecordDuration d)
              /\ mismatched d.
Proof.
  induction fs as [| f fs IH]; intros tree H.
  - inversion H.
  - simpl. destruct (mismatched_dec (recordDuration (readHeader f)))
      as [Hm | Hm].
    + rewrite (loadFile_throws _ _ _ Hm). eauto.
    + destruct (loadFile_accepts session tree f Hm) as [tree' ->].
      apply IH. inversion H; [contradiction | assumption].
Qed.

Lemma loadFiles_accepts (session : Session File) (fs : list File) :
  forall tree,
    Forall (fun f => ~ declaresMismatch f) fs ->
    exists tree', loadFiles session tree fs = inr tree'.
Proof.
  induction fs as [| f fs IH]; intros tree H; simpl.
  - eauto.
  - inversion H as [| ? ? Hf Hfs]. subst.
    destruct (loadFile_accepts session tree f Hf) as [tree' ->].
    now apply IH.
Qed.

(** C6.  [loadSession] throws, and returns no merged output, whenever the
    header of some file of the session declares a record duration that is
    neither 60 nor 0; the error names a duration that is neither.  When every
    file declares 60 or 0 the check lets all of them through: the loop over
    the files ends without an error. *)
Theorem loadSession_record_duration (anonymousPatientId : string)
    (recordingIdOf : Date -> string) (session : Session File) :
  (Exists declaresMismatch (map snd (files session)) ->
   exists d,
     loadSession anonymousPatientId recordingIdOf session
     = inl (UnexpectedRecordDuration d)
     /\ mismatched d)
  /\ (Forall (fun f => ~ declaresMismatch f) (map snd (files session)) ->
      exists tree, loadFiles session [] (map snd (files session)) = inr tree).
Proof.
  split.
  - intros H. unfold loadSession.
    destruct (loadFiles_throws session _ [] H) as (d & -> & Hd). eauto.
  - apply loadFiles_accepts.
Qed.

Lemma loadSession_record_duration_witness :
  exists d,
    loadSession "X X X X" (fun _ => "Startdate X X X"%string) mixedSession
    = inl (UnexpectedRecordDuration d)
    /\ mismatched d.
Proof.
  apply (proj1 (loadSession_record_duration "X X X X"
                  (fun _ => "Startdate X X X"%string) mixedSession)).
  apply Exists_cons_tl. apply Exists_cons_hd.
  split; vm_compute; discriminate.
Defined.

(** A file without records adds no session. *)
Lemma discover_skips (directory : list (string * File))
    (found : list (Session File)) (path : string) (file : File) :
  nonPositiveCount file ->
  discover directory found (path, file) = found.
Proof. intros H. unfold discover. now rewrite H. Qed.

(** A file without records that passes the check of the record duration
    leaves the interval index as it is. *)
Lemma loadFile_skips (session : Session File) (tree : IntervalTree)
    (file : File) :
  nonPositiveCount file ->
  ~ declaresMismatch file ->
  loadFile session tree file = inr tree.
Proof.
  intros Hn Hm. unfold loadFile.
  destruct (negb (Qeq_bool (recordDuration (readHeader file))
                    recordDuration_fixed)
            && negb (Qeq_bool (recordDuration (readHeader file)) 0)) eqn:E.
  - apply mismatch_test in E. contradiction.
  - destruct (filterSignals _ _ _) as [fsigs fvals].
    cbn [dataRecords withSignals]. now rewrite Hn.
Qed.

Lemma loadFiles_app (session : Session File) (before after : list File) :
  forall tree,
    loadFiles session tree (before ++ after)
    = match loadFiles session tree before with
      | inl e => inl e
      | inr tree' => loadFiles session tree' after
      end.
Proof.
  induction before as [| f before IH]; intros tree; simpl.
  - reflexivity.
  - destruct (loadFile session tree f); [reflexivity | apply IH].
Qed.

(** C7 (amended).  A file whose header declares a non-positive record count
    adds no session in discovery, whatever precedes and follows it; in
    reconciliation, when its record duration passes the check (60 or 0), it
    adds nothing to the interval index and raises no error, and the files
    after it are processed as if it were absent. *)
Theorem nonpositive_count_skipped (file : File) :
  nonPositiveCount file ->
  skippedInDiscovery file
  /\ (~ declaresMismatch file -> skippedInReconciliation file).
Proof.
  intros Hn. split.
  - intros directory path before after found.
    rewrite !fold_left_app. cbn [fold_left]. now rewrite discover_skips.
  - intros Hm session tree before after.
    rewrite !loadFiles_app.
    destruct (loadFiles session tree before) as [e | tree']; [reflexivity |].
    cbn [loadFiles]. now rewrite loadFile_skips.
Qed.

Lemma nonpositive_count_skipped_witness :
  skippedInDiscovery (reader 60 0 [])
  /\ skippedInReconciliation (reader 60 0 []).
Proof.
  destruct (nonpositive_count_skipped (reader 60 0 [])) as [H1 H2].
  - reflexivity.
  - split; [exact H1 |]. apply H2.
    intros [H _]. apply H. reflexivity.
Defined.

(** C7 as stated fails in reconciliation: a file without records that
    declares records of one second is not skipped, the check of the record
    duration comes first and throws. *)
Lemma nonpositive_count_throws :
  nonPositiveCount emptyOneSecond /\ ~ skippedSilently emptyOneSecond.
Proof.
  split; [reflexivity |].
  intros [_ H].
  specialize (H mixedSession [] [] []).
  vm_compute in H. discriminate.
Qed.

End SessionFiles.

(** ** Channels of unfitted sensors *)

Section PostProcess.
Import JS ResMedLoader.

Lemma prefix_app (p s : string) :
  String.prefix p s = true <-> exists after, s = (p ++ after)%string.
Proof.
  revert s. induction p as [| c p IH]; intros s.
  - split; [intros _; now exists s | intros _; now destruct s].
  - destruct s as [| d s]; simpl.
    + split; [discriminate | intros [a Ha]; discriminate].
    + destruct (Ascii.ascii_dec c d) as [-> | Hne].
      * rewrite IH. split; intros [a Ha]; exists a; simpl; congruence.
      * split; [discriminate |]. intros [a Ha]. simpl in Ha. congruence.
Qed.

(** [includes] is the substring test. *)
Lemma includes_substring (s needle : string) :
  includes s needle = true
  <-> exists before after, s = (before ++ needle ++ after)%string.
Proof.
  induction s as [| c s IH]; cbn [includes].
  - rewrite orb_false_r, prefix_app. split.
    + intros [a Ha]. now exists EmptyString, a.
    + intros (b & a & H). destruct b; simpl in H; [now exists a | discriminate].
  - rewrite orb_true_iff, prefix_app, IH. split.
    + intros [[a Ha] | (b & a & H)].
      * now exists EmptyString, a.
      * exists (String c b), a. simpl. now rewrite H.
    + intros (b & a & H). destruct b as [| d b]; simpl in H.
      * left. now exists a.
      * right. injection H as _ H. now exists b, a.
Qed.

Lemma includes_mentions (keyword : string) (s : EDFSignal) :
  includes (toLowerCase (label s)) keyword = true <-> mentions keyword s.
Proof. apply includes_substring. Qed.

Lemma indexOfLabel_Some (keyword : string) (sigs : list EDFSignal)
    (index : nat) :
  indexOfLabel keyword sigs = Some index
  <-> (exists s, nth_error sigs index = Some s /\ mentions keyword s)
      /\ (forall i s, (i < index)%nat -> nth_error sigs i = Some s ->
                      ~ mentions keyword s).
Proof.
  revert index. induction sigs as [| s0 sigs IH]; intros index; simpl.
  - split; [discriminate |]. intros [(s & H & _) _].
    destruct index; discriminate.
  - destruct (includes (toLowerCase (label s0)) keyword) eqn:E.
    + apply includes_mentions in E. split.
      * intros [= <-]. split; [now exists s0 |]. intros i s Hi. lia.
      * intros [_ Hfirst]. destruct index as [| index]; [reflexivity |].
        exfalso. apply (Hfirst O s0); [lia | reflexivity | exact E].
    + assert (Hn : ~ mentions keyword s0).
      { intros H. apply includes_mentions in H. congruence. }
      destruct index as [| index].
      * split.
        -- destruct (indexOfLabel keyword sigs); discriminate.
        -- intros [(s & [= <-] & Hs) _]. contradiction.
      * destruct (indexOfLabel keyword sigs) as [k |] eqn:Ek; simpl.
        -- split.
           ++ intros [= <-]. destruct (proj1 (IH k) eq_refl) as [Hs Hf].
              split; [exact Hs |]. intros [| i] s Hi Hnth.
              ** injection Hnth as <-. exact Hn.
              ** apply (Hf i); [lia | exact Hnth].
           ++ intros [Hs Hf]. f_equal. f_equal.
              assert (Some k = Some index); [| congruence].
              apply IH. split; [exact Hs |].
              intros i s Hi. apply (Hf (S i)). lia.
        -- split; [discriminate |]. intros [Hs Hf].
           assert (None = Some index); [| discriminate].
           apply IH. split; [exact Hs |].
           intros i s Hi. apply (Hf (S i)). lia.
Qed.

Lemma indexOfLabel_None (keyword : string) (sigs : list EDFSignal) :
  indexOfLabel keyword sigs = None
  <-> forall s, In s sigs -> ~ mentions keyword s.
Proof.
  induction sigs as [| s0 sigs IH]; simpl.
  - split; [intros _ s [] | reflexivity].
  - destruct (includes (toLowerCase (label s0)) keyword) eqn:E.
    + apply includes_mentions in E. split; [discriminate |].
      intros H. exfalso. apply (H s0); auto.
    + assert (Hn : ~ mentions keyword s0).
      { intros H. apply includes_mentions in H. congruence. }
      destruct (indexOfLabel keyword sigs) as [k |]; simpl.
      * split; [discriminate |]. intros H.
        assert (Some k = None); [| discriminate].
        apply IH. intros s Hs. apply H. now right.
      * split; [| reflexivity]. intros _ s [<- | Hs]; [exact Hn |].
        now apply (proj1 IH).
Qed.

Lemma hasValid_someValid (vals : list Q) :
  existsb (fun value => negb (Qle_bool value 0)) vals = true
  <-> someValid vals.
Proof.
  unfold someValid. rewrite existsb_exists.
  split; intros (v & Hin & Hv); exists v; split; auto.
  - apply negb_true_iff in Hv. now apply JSFacts.Qle_bool_false.
  - apply negb_true_iff. now apply JSFacts.Qle_bool_false.
Qed.

Lemma splice1_without {A : Type} (index : nat) (l : list A) :
  without index l (splice1 index l).
Proof.
  unfold without. revert index.
  induction l as [| x l IH]; intros [| index]; simpl; try reflexivity.
  now rewrite <- IH.
Qed.

Lemma without_In {A : Type} (index : nat) (l l' : list A) (x : A) :
  without index l l' -> In x l' -> In x l.
Proof.
  unfold without. intros ->. revert index.
  induction l as [| y l IH]; intros [| index]; simpl; auto.
  - intros [<- | H]; [now left | right; now apply (IH index)].
Qed.

Lemma splice1_length {A : Type} (index : nat) (l : list A) :
  (index < List.length l)%nat ->
  List.length (splice1 index l) = pred (List.length l).
Proof.
  revert index. induction l as [| x l IH]; intros [| index] H; simpl in *;
    try lia.
  rewrite IH by lia. lia.
Qed.

Lemma removeChannel_removed (file : EDFFile) (index : nat) :
  channelRemoved index file (removeChannel file index).
Proof.
  unfold channelRemoved, removeChannel. simpl.
  repeat split; apply splice1_without.
Qed.

Lemma removeChannel_differs (file : EDFFile) (index : nat) :
  (index < List.length (signals (header file)))%nat ->
  removeChannel file index <> file.
Proof.
  intros Hi E.
  assert (H : List.length (signals (header (removeChannel file index)))
              = List.length (signals (header file))) by now rewrite E.
  simpl in H. rewrite splice1_length in H by exact Hi. lia.
Qed.

(** One block on a file that has the optional channel. *)
Lemma dropUnfitted_block (keyword : string) (file : EDFFile) (index : nat)
    (vals : list Q) :
  optionalChannel keyword file index vals ->
  blockSpec keyword file index vals.
Proof.
  intros (Hs & Hfirst & Hv).
  assert (Hi : indexOfLabel keyword (signals (header file)) = Some index)
    by (apply indexOfLabel_Some; auto).
  assert (Hlt : (index < List.length (signals (header file)))%nat).
  { destruct Hs as (s & Hs & _). apply nth_error_Some. now rewrite Hs. }
  unfold blockSpec, dropUnfitted. rewrite Hi, Hv.
  destruct (existsb (fun value => negb (Qle_bool value 0)) vals) eqn:E; simpl.
  - apply hasValid_someValid in E. split; [tauto | contradiction].
  - assert (Hno : ~ someValid vals).
    { intros H. apply hasValid_someValid in H. congruence. }
    split.
    + split; [| contradiction]. intros [= H].
      exfalso. revert H. now apply removeChannel_differs.
    + intros _. eexists. split; [reflexivity |].
      apply removeChannel_removed.
Qed.

Lemma dropUnfitted_absent (keyword : string) (file : EDFFile) :
  noChannel keyword file -> dropUnfitted keyword file = Some file.
Proof.
  intros H. unfold dropUnfitted.
  now rewrite (proj2 (indexOfLabel_None keyword _) H).
Qed.

(** C9 (amended).  [postProcess] runs the block for ["spo2"] and then, on its
    result, the block for ["pulse"].  For each of the two keywords, on a file
    whose first channel with the keyword in its lower-cased label has the
    sample array [vals]: the block leaves the file as it is if and only if
    some sample of [vals] is greater than 0; otherwise it removes that
    channel, its descriptor and its sample array, takes one from the signal
    count, and leaves every other descriptor, sample array and header field
    as it was.  A channel with a sample equal to 5 is kept by its block,
    whatever its other samples.  [postProcess] itself leaves the file as it
    is if and only if the channel has a sample greater than 0 when the file
    has no channel for the other keyword. *)
Theorem postProcess_optional_channel (keyword : string) (file : EDFFile)
    (index : nat) (vals : list Q) :
  In keyword ["spo2"; "pulse"]%string ->
  optionalChannel keyword file index vals ->
  blockSpec keyword file index vals
  /\ (In 5 vals -> dropUnfitted keyword file = Some file)
  /\ (forall f,
        postProcess f
        = match dropUnfitted "spo2" f with
          | Some f1 => dropUnfitted "pulse" f1
          | None => None
          end)
  /\ (noChannel "pulse" file -> keyword = "spo2"%string ->
      (postProcess file = Some file <-> someValid vals)
      /\ (~ someValid vals ->
          exists file', postProcess file = Some file'
                        /\ channelRemoved index file file'))
  /\ (noChannel "spo2" file -> keyword = "pulse"%string ->
      (postProcess file = Some file <-> someValid vals)
      /\ (~ someValid vals ->
          exists file', postProcess file = Some file'
                        /\ channelRemoved index file file')).
Proof.
  intros _ Hc. pose proof (dropUnfitted_block _ _ _ _ Hc) as Hb.
  split; [exact Hb |].
  split.
  { intros H5. apply Hb. exists 5. split; [exact H5 | reflexivity]. }
  split; [reflexivity |].
  split.
  - intros Hno ->. unfold postProcess. destruct Hb as [Hiff Hrem]. split.
    + split.
      * intros H.
        destruct (dropUnfitted "spo2" file) as [f1 |] eqn:E1; [| discriminate].
        destruct (existsb (fun value => negb (Qle_bool value 0)) vals) eqn:Ev.
        -- now apply hasValid_someValid.
        -- exfalso.
           assert (Hnv : ~ someValid vals).
           { intros Hv. apply hasValid_someValid in Hv. congruence. }
           destruct (Hrem Hnv) as (file' & Hf' & Hr).
           injection Hf' as ->.
           assert (Hno' : noChannel "pulse" file').
           { intros s Hs. apply Hno. destruct Hr as (Hw & _).
             exact (without_In _ _ _ _ Hw Hs). }
           rewrite (dropUnfitted_absent _ _ Hno') in H. injection H as H.
           destruct Hr as (Hw & _). rewrite H in Hw.
           destruct Hc as ((s & Hs & _) & _).
           assert (Hlen : List.length (signals (header file))
                          = List.length (firstn index (signals (header file))
                                         ++ skipn (S index) (signals (header file))))
             by now rewrite <- Hw.
           assert (index < List.length (signals (header file)))%nat
             by (apply nth_error_Some; now rewrite Hs).
           rewrite length_app, length_firstn, length_skipn in Hlen. lia.
      * intros Hv. rewrite (proj2 Hiff Hv). now apply dropUnfitted_absent.
    + intros Hnv. destruct (Hrem Hnv) as (file' & -> & Hr).
      exists file'. split; [| exact Hr].
      apply dropUnfitted_absent.
      intros s Hs. apply Hno. destruct Hr as (Hw & _).
      exact (without_In _ _ _ _ Hw Hs).
  - intros Hno ->. unfold postProcess.
    rewrite (dropUnfitted_absent _ _ Hno). exact Hb.
Qed.

Lemma postProcess_optional_channel_witness :
  postProcess fitted
  = Some {| header := emptyHeader 0 60 [channel "Flow" 2; channel "SpO2" 1];
            values := [[1; 2; 3; 4]; [0; 0; 0; 0; 0; 0; 5; 0]];
            annotations := [];
            duration := None |}
  /\ dropUnfitted "spo2" fitted = Some fitted.
Proof.
  split; [reflexivity |].
  apply (postProcess_optional_channel "spo2" fitted 1
           [0; 0; 0; 0; 0; 0; 5; 0]).
  - now left.
  - split; [| split].
    + eexists. split; [reflexivity |]. now exists EmptyString, EmptyString.
    + intros [| i] s Hi Hn; [| lia].
      injection Hn as <-.
      intros H. apply includes_mentions in H. discriminate.
    + reflexivity.
  - do 6 right. now left.
Defined.

(** C9 as stated fails: the oximeter channel of [fitted] has a sample equal
    to 5, and [postProcess] does not return the file as it is, for it removes
    the pulse channel, whose samples are all 0 or less. *)
Lemma postProcess_removes_other_channel : ~ untouchedIffValid fitted.
Proof.
  intros H.
  destruct (H "spo2"%string 1%nat [0; 0; 0; 0; 0; 0; 5; 0]) as [[_ Hv] _].
  - now left.
  - split; [| split].
    + eexists. split; [reflexivity |]. now exists EmptyString, EmptyString.
    + intros [| i] s Hi Hn; [| lia].
      injection Hn as <-.
      intros Hm. apply includes_mentions in Hm. discriminate.
    + reflexivity.
  - assert (Hs : someValid [0; 0; 0; 0; 0; 0; 5; 0]).
    { exists 5. split; [do 6 right; now left | reflexivity]. }
    specialize (Hv Hs). vm_compute in Hv. discriminate.
Qed.

End PostProcess.

(** ** The flat oximetry decoder *)

Section Oximetry.
Import JS JSFacts SpO2AssistantLoader.

Lemma byteLength_bound (view : Buffer) : (0 <= byteLength view < 2 ^ 53)%Z.
Proof.
  destruct view as [l H]. unfold byteLength. cbn [bytes].
  apply Z.leb_le in H. unfold maxByteLength in H. lia.
Qed.

Lemma byteAt_inside (view : Buffer) (i : Z) :
  (0 <= i < byteLength view)%Z -> exists b, byteAt view i = Some b.
Proof.
  intros [H0 H1]. unfold byteAt, byteLength in *.
  destruct (i <? 0)%Z eqn:E; [apply Z.ltb_lt in E; lia |].
  destruct (nth_error (bytes view) (Z.to_nat i)) as [b |] eqn:En;
    [simpl; eauto |].
  apply nth_error_None in En. lia.
Qed.

Lemma byteAt_range (view : Buffer) (i b : Z) :
  byteAt view i = Some b -> (0 <= b <= 255)%Z.
Proof.
  unfold byteAt. destruct (i <? 0)%Z; [discriminate |].
  destruct (nth_error (bytes view) (Z.to_nat i)) as [x |]; [| discriminate].
  simpl. intros [= <-]. pose proof (Byte.to_N_bounded x). lia.
Qed.

Lemma getUint8_range (view : Buffer) (q : num) (b : Z) :
  getUint8 view q = Some b -> (0 <= b <= 255)%Z.
Proof.
  unfold getUint8. destruct (toIndex q) as [i |]; [| discriminate].
  apply byteAt_range.
Qed.

(** A read at a whole offset. *)
Lemma getUint8_of_Z (view : Buffer) (z : Z) :
  (0 <= z)%Z -> getUint8 view (of_Z z) = byteAt view z.
Proof.
  intros H. unfold getUint8, toIndex, of_Z. rewrite Qtrunc_inject_Z.
  destruct (z <? 0)%Z eqn:E; [apply Z.ltb_lt in E; lia | reflexivity].
Qed.

(** *** Rounding against binary64 thresholds *)

Lemma round_nonneg (q : Q) :
  0 <= q -> round q = PInf \/ exists v, round q = Fin v /\ 0 <= v.
Proof.
  intros H. pose proof (round_mono 0 q H) as Hm.
  rewrite (round_zero 0) in Hm by reflexivity.
  destruct (round q) as [v | | |]; cbn [leb] in Hm; try discriminate.
  - right. exists v. split; [reflexivity |]. now apply Qle_bool_iff.
  - now left.
Qed.

Lemma round_above (t q v : Q) :
  binary64 t -> t <= q -> round q = Fin v -> t <= v.
Proof.
  intros Hb Hle Hq. pose proof (round_mono t q Hle) as Hm.
  rewrite (round_fix t Hb), Hq in Hm. cbn [leb] in Hm.
  apply Qle_bool_iff in Hm. now rewrite Qred_correct in Hm.
Qed.

Lemma round_below (t q : Q) :
  binary64 t -> 0 <= q -> q <= t ->
  exists v, round q = Fin v /\ 0 <= v /\ v <= t.
Proof.
  intros Hb H0 Hle. pose proof (round_mono q t Hle) as Hm.
  rewrite (round_fix t Hb) in Hm.
  destruct (round_nonneg q H0) as [E | (v & E & Hv)]; rewrite E in Hm;
    cbn [leb] in Hm; [discriminate |].
  exists v. split; [exact E |]. split; [exact Hv |].
  apply Qle_bool_iff in Hm. now rewrite Qred_correct in Hm.
Qed.

(** Halves of whole numbers below [2^53] are binary64 numbers. *)
Lemma binary64_half (z : Z) :
  (Z.abs z < 2 ^ 53)%Z -> binary64 (inject_Z z / 2).
Proof.
  intros H. exists z, (-1)%Z.
  split; [exact H |]. split; [lia |]. split.
  - change (pow2 (-1)) with (/ 2). reflexivity.
  - apply Qle_lt_trans with (pow2 53); [| now apply pow2_lt].
    rewrite pow2_Z by lia. apply Qabs_Qle_condition.
    assert (H1 : inject_Z (- 2 ^ 53) <= inject_Z z)
      by (rewrite <- Zle_Qle; lia).
    assert (H2 : inject_Z z <= inject_Z (2 ^ 53))
      by (rewrite <- Zle_Qle; lia).
    assert (H3 : 0 <= inject_Z (2 ^ 53)) by (vm_compute; discriminate).
    rewrite inject_Z_opp in H1.
    split; apply Qle_shift_div_l || apply Qle_shift_div_r;
      try reflexivity; lra.
Qed.

Lemma gtb_of_Z (a b : Z) : (of_Z a >? of_Z b)%js = (b <? a)%Z.
Proof.
  unfold gtb, ltb, leb, of_Z.
  destruct (b <? a)%Z eqn:E.
  - apply Z.ltb_lt in E. apply negb_true_iff, Qle_bool_false.
    now rewrite <- Zlt_Qlt.
  - apply Z.ltb_ge in E. apply negb_false_iff, Qle_bool_iff.
    now rewrite <- Zle_Qle.
Qed.

(** *** The sample loop *)

Lemma scan_S (view : Buffer) (fileSize bpr : num) (n : nat) (st : Scan) :
  scan view fileSize bpr (S n) st
  = let cursor1 := skipFrom bpr (cursor st) in
    if (cursor1 + of_Z 2 >? fileSize)%js
    then Some {| cursor := cursor1;
                 valuesSpO2 := valuesSpO2 st;
                 valuesPulse := valuesPulse st |}
    else
      match getUint8 view cursor1, getUint8 view (cursor1 + of_Z 1)%js with
      | Some spo2, Some pulse =>
          let '(s, p) := normalize spo2 pulse in
          scan view fileSize bpr n
            {| cursor := (cursor1 + of_Z 2)%js;
               valuesSpO2 := valuesSpO2 st ++ [inject_Z s];
               valuesPulse := valuesPulse st ++ [inject_Z p] |}
      | _, _ => None
      end.
Proof. reflexivity. Qed.

(** The cursor after the skip is a binary64 number that is not negative. *)
Lemma skipFrom_cases (bpr : num) (c : Q) :
  0 <= c -> binary64 c ->
  skipFrom bpr (Fin c) = PInf
  \/ exists c1, skipFrom bpr (Fin c) = Fin c1 /\ 0 <= c1 /\ binary64 c1.
Proof.
  intros Hc Hbc. unfold skipFrom.
  destruct (bpr >? of_Z 2)%js eqn:E; [| right; eauto].
  destruct bpr as [b | | |]; try discriminate.
  - assert (Hb : 2 < b).
    { unfold gtb, ltb, leb, of_Z in E. apply negb_true_iff in E.
      now apply Qle_bool_false in E. }
    unfold sub, neg, of_Z. cbn [add].
    destruct (round_nonneg (b + - inject_Z 2)) as [-> | (d & -> & Hd)].
    + change (inject_Z 2) with 2. lra.
    + now left.
    + cbn [add].
      destruct (round_nonneg (c + d)) as [-> | (c1 & E1 & Hc1)];
        [lra | now left |].
      right. exists c1. split; [exact E1 |]. split; [exact Hc1 |].
      exact (round_binary64 _ _ E1).
  - now left.
Qed.

(** The binary64 numbers below [2^52] from [2^51] on are halves of whole
    numbers; those from [2^52] on are whole. *)
Lemma binary64_whole (v : Q) :
  binary64 v -> inject_Z (2 ^ 52) <= v -> exists z : Z, v == inject_Z z.
Proof.
  intros Hb Hv. destruct (binary64_grid v 52 Hb) as [z Hz].
  - now rewrite pow2_Z by lia.
  - exists z. rewrite Hz. change (pow2 (52 - 52)) with 1. ring.
Qed.

Lemma binary64_halves (v : Q) :
  binary64 v -> inject_Z (2 ^ 51) <= v -> exists z : Z, v == inject_Z z / 2.
Proof.
  intros Hb Hv. destruct (binary64_grid v 51 Hb) as [z Hz].
  - now rewrite pow2_Z by lia.
  - exists z. rewrite Hz. change (pow2 (51 - 52)) with (/ 2). reflexivity.
Qed.

(** After a cursor at which the loop does not break, the cursor plus one is
    computed below the length of the buffer. *)
Lemma next_byte_inside (L : Z) (c1 t : Q) :
  (0 <= L < 2 ^ 53)%Z ->
  0 <= c1 -> binary64 c1 -> c1 < inject_Z L ->
  round (c1 + 2) = Fin t -> t <= inject_Z L ->
  exists u, round (c1 + 1) = Fin u /\ 0 <= u /\ u < inject_Z L.
Proof.
  intros HL H0 Hb HA Ht Hle.
  assert (H52 : inject_Z (2 ^ 52) == 4503599627370496) by reflexivity.
  assert (H51 : inject_Z (2 ^ 51) == 2251799813685248) by reflexivity.
  destruct (Z_lt_le_dec L (2 ^ 52)) as [Hsmall | Hbig].
  - (* both halves next to L are binary64 numbers *)
    assert (Hlo : inject_Z (2 * L - 1) / 2 == inject_Z L - (1 # 2)).
    { rewrite inject_Z_minus, inject_Z_mult.
      change (inject_Z 2) with 2. change (inject_Z 1) with 1. field. }
    assert (Hhi : inject_Z (2 * L + 1) / 2 == inject_Z L + (1 # 2)).
    { rewrite inject_Z_plus, inject_Z_mult.
      change (inject_Z 2) with 2. change (inject_Z 1) with 1. field. }
    destruct (Qlt_le_dec (inject_Z (2 * L - 1) / 2) (c1 + 1)) as [H | H].
    + exfalso.
      assert (Hb' : binary64 (inject_Z (2 * L + 1) / 2))
        by (apply binary64_half; lia).
      assert (Hq : inject_Z (2 * L + 1) / 2 <= c1 + 2) by lra.
      pose proof (round_above _ _ _ Hb' Hq Ht) as Hc. lra.
    + assert (Hb' : binary64 (inject_Z (2 * L - 1) / 2))
        by (apply binary64_half; lia).
      destruct (round_below _ (c1 + 1) Hb' ltac:(lra) H)
        as (u & Hu & Hu0 & Hu1).
      exists u. split; [exact Hu |]. split; [exact Hu0 | lra].
  - assert (HLq : inject_Z (2 ^ 52) <= inject_Z L)
      by (now rewrite <- Zle_Qle).
    destruct (Qlt_le_dec c1 (inject_Z (2 ^ 52))) as [Hc | Hc].
    + destruct (Qlt_le_dec c1 (inject_Z (2 ^ 51))) as [Hc' | Hc'].
      * (* far below the length *)
        assert (Hb' : binary64 (inject_Z (2 ^ 52 - 1)))
          by (apply binary64_Z; vm_compute; discriminate).
        assert (Hq : c1 + 1 <= inject_Z (2 ^ 52 - 1)).
        { change (inject_Z (2 ^ 52 - 1)) with (inject_Z 4503599627370495).
          assert (inject_Z 4503599627370495 == 4503599627370495)
            by reflexivity.
          lra. }
        destruct (round_below _ (c1 + 1) Hb' ltac:(lra) Hq)
          as (u & Hu & Hu0 & Hu1).
        exists u. split; [exact Hu |]. split; [exact Hu0 |].
        apply Qle_lt_trans with (inject_Z (2 ^ 52 - 1)); [exact Hu1 |].
        rewrite <- Zlt_Qlt. lia.
      * (* the cursor is a half of a whole number *)
        destruct (binary64_halves c1 Hb Hc') as [z Hz].
        assert (Hz1 : (2 ^ 52 <= z < 2 ^ 53)%Z).
        { assert (Hz2 : inject_Z z == 2 * c1) by (rewrite Hz; field).
          assert (Ha : inject_Z (2 ^ 52) <= inject_Z z).
          { change (inject_Z (2 ^ 52)) with (inject_Z (2 * 2 ^ 51)).
            rewrite inject_Z_mult. change (inject_Z 2) with 2. lra. }
          assert (Hc2 : inject_Z z < inject_Z (2 ^ 53)).
          { change (inject_Z (2 ^ 53)) with (inject_Z (2 * 2 ^ 52)).
            rewrite inject_Z_mult. change (inject_Z 2) with 2. lra. }
          rewrite <- Zle_Qle in Ha. rewrite <- Zlt_Qlt in Hc2. lia. }
        assert (Hsum : forall n : Z,
                   c1 + inject_Z n == inject_Z (z + 2 * n) / 2).
        { intros n. rewrite Hz, inject_Z_plus, inject_Z_mult.
          change (inject_Z 2) with 2. field. }
        destruct (Z_lt_le_dec (z + 2) (2 ^ 53)) as [Hz2 | Hz2].
        -- assert (Hb' : binary64 (inject_Z (z + 2) / 2))
             by (apply binary64_half; lia).
           assert (Hq : c1 + 1 <= inject_Z (z + 2) / 2).
           { rewrite <- (Hsum 1%Z). change (inject_Z 1) with 1. lra. }
           destruct (round_below _ (c1 + 1) Hb' ltac:(lra) Hq)
             as (u & Hu & Hu0 & Hu1).
           exists u. split; [exact Hu |]. split; [exact Hu0 |].
           apply Qlt_le_trans with (inject_Z (2 ^ 52)); [| exact HLq].
           apply Qle_lt_trans with (inject_Z (z + 2) / 2); [exact Hu1 |].
           apply Qlt_shift_div_r; [reflexivity |].
           change 2 with (inject_Z 2).
           rewrite <- inject_Z_mult, <- Zlt_Qlt. lia.
        -- (* the cursor plus two is past [2^52] *)
           assert (Hb' : binary64 (inject_Z (2 ^ 52 + 1)))
             by (apply binary64_Z; vm_compute; discriminate).
           assert (Hq : inject_Z (2 ^ 52 + 1) <= c1 + 2).
           { pose proof (Hsum 2%Z) as E. change (inject_Z 2) with 2 in E.
             rewrite E. apply Qle_shift_div_l; [reflexivity |].
             change 2 with (inject_Z 2) at 1.
             rewrite <- inject_Z_mult, <- Zle_Qle. lia. }
           pose proof (round_above _ _ _ Hb' Hq Ht) as Ht1.
           assert (Hq1 : c1 + 1 <= inject_Z (2 * 2 ^ 52 + 1) / 2).
           { pose proof (Hsum 1%Z) as E. change (inject_Z 1) with 1 in E.
             rewrite E. apply Qle_shift_div_l; [reflexivity |].
             unfold Qdiv. rewrite <- Qmult_assoc.
             setoid_replace (/ 2 * 2) with 1 by reflexivity.
             rewrite Qmult_1_r, <- Zle_Qle. lia. }
           pose proof (round_mono _ _ Hq1) as Hm.
           assert (Htie : round (inject_Z (2 * 2 ^ 52 + 1) / 2)
                          = Fin (inject_Z (2 ^ 52)))
             by (vm_compute; reflexivity).
           rewrite Htie in Hm.
           destruct (round_nonneg (c1 + 1)) as [E | (u & E & Hu0)];
             [lra | rewrite E in Hm; discriminate |].
           rewrite E in Hm. cbn [leb] in Hm. apply Qle_bool_iff in Hm.
           exists u. split; [exact E |]. split; [exact Hu0 |].
           apply Qle_lt_trans with (inject_Z (2 ^ 52)); [exact Hm |].
           apply Qlt_le_trans with (inject_Z (2 ^ 52 + 1)); [| lra].
           rewrite <- Zlt_Qlt. lia.
    + (* the cursor is a whole number *)
      destruct (binary64_whole c1 Hb Hc) as [z Hz].
      assert (Hz1 : (0 <= z < L)%Z).
      { rewrite Hz in HA, H0. rewrite <- Zlt_Qlt in HA.
        change 0 with (inject_Z 0) in H0. rewrite <- Zle_Qle in H0. lia. }
      assert (E2 : round (c1 + 2) = of_Z (z + 2)).
      { rewrite (round_comp _ (inject_Z (z + 2)))
          by (rewrite Hz, inject_Z_plus; reflexivity).
        apply round_Z. lia. }
      assert (E1 : round (c1 + 1) = of_Z (z + 1)).
      { rewrite (round_comp _ (inject_Z (z + 1)))
          by (rewrite Hz, inject_Z_plus; reflexivity).
        apply round_Z. lia. }
      rewrite E2 in Ht. injection Ht as <-.
      rewrite <- Zle_Qle in Hle.
      exists (inject_Z (z + 1)). split; [exact E1 |]. split.
      * change 0 with (inject_Z 0). rewrite <- Zle_Qle. lia.
      * rewrite <- Zlt_Qlt. lia.
Qed.

(** A pair that the loop does not break on lies inside the buffer. *)
Lemma pair_inside (view : Buffer) (c1 t : Q) :
  0 <= c1 -> binary64 c1 ->
  round (c1 + inject_Z 2) = Fin t ->
  t <= inject_Z (byteLength view) ->
  exists b0 b1,
    getUint8 view (Fin c1) = Some b0
    /\ getUint8 view (Fin c1 + of_Z 1)%js = Some b1.
Proof.
  intros H0 Hb Ht Hle.
  pose proof (byteLength_bound view) as HL.
  set (L := byteLength view) in *.
  change (inject_Z 2) with 2 in Ht.
  assert (HA : c1 < inject_Z L).
  { destruct (Qlt_le_dec c1 (inject_Z L)) as [H | H]; [exact H |].
    exfalso.
    assert (Hb1 : binary64 (inject_Z (L + 1))) by (apply binary64_Z; lia).
    assert (Hq : inject_Z (L + 1) <= c1 + 2).
    { rewrite inject_Z_plus. change (inject_Z 1) with 1. lra. }
    pose proof (round_above _ _ _ Hb1 Hq Ht) as Hc.
    rewrite inject_Z_plus in Hc. change (inject_Z 1) with 1 in Hc. lra. }
  destruct (next_byte_inside L c1 t HL H0 Hb HA Ht Hle)
    as (u & Hu & Hu0 & Hu1).
  unfold of_Z at 1. cbn [add]. change (inject_Z 1) with 1. rewrite Hu.
  unfold getUint8, toIndex.
  pose proof (Qtrunc_ge0 c1 H0) as Hc0. pose proof (Qtrunc_le c1 H0) as Hc1.
  pose proof (Qtrunc_ge0 u Hu0) as Hv0. pose proof (Qtrunc_le u Hu0) as Hv1.
  destruct (Qtrunc c1 <? 0)%Z eqn:E0; [apply Z.ltb_lt in E0; lia |].
  destruct (Qtrunc u <? 0)%Z eqn:E1; [apply Z.ltb_lt in E1; lia |].
  destruct (byteAt_inside view (Qtrunc c1)) as [b0 Hb0].
  { split; [exact Hc0 |]. rewrite Zlt_Qlt. fold L. lra. }
  destruct (byteAt_inside view (Qtrunc u)) as [b1 Hb1].
  { split; [exact Hv0 |]. rewrite Zlt_Qlt. fold L. lra. }
  eauto.
Qed.

(** The sample loop from a cursor that is a binary64 number and not
    negative: it runs [K] iterations, reads at the computed cursors, stores
    the pairs that it reads, and stops early only on the test of its
    cursor. *)
Lemma scan_reads (view : Buffer) (bpr : num) (n : nat) :
  forall (c : Q) (s0 p0 : list Q),
    0 <= c -> binary64 c ->
    exists K st,
      scan view (of_Z (byteLength view)) bpr n
        {| cursor := Fin c; valuesSpO2 := s0; valuesPulse := p0 |}
      = Some st
      /\ (K <= n)%nat
      /\ valuesSpO2 st
         = s0 ++ map (fun i =>
                        inject_Z (fst (pairAt view (readCursor bpr (Fin c) i))))
                   (seq 0 K)
      /\ valuesPulse st
         = p0 ++ map (fun i =>
                        inject_Z (snd (pairAt view (readCursor bpr (Fin c) i))))
                   (seq 0 K)
      /\ (forall i, (i < K)%nat ->
            exists b0 b1,
              getUint8 view (readCursor bpr (Fin c) i) = Some b0
              /\ getUint8 view (readCursor bpr (Fin c) i + of_Z 1)%js
                 = Some b1)
      /\ ((K < n)%nat ->
          (readCursor bpr (Fin c) K + of_Z 2 >? of_Z (byteLength view))%js
          = true).
Proof.
  induction n as [| n IH]; intros c s0 p0 Hc Hbc.
  - exists O. eexists. split; [reflexivity |]. simpl.
    rewrite !app_nil_r. repeat split; auto; intros; lia.
  - rewrite scan_S. cbn [cursor valuesSpO2 valuesPulse]. cbv zeta.
    assert (Hstop :
      (skipFrom bpr (Fin c) + of_Z 2 >? of_Z (byteLength view))%js = true ->
      exists K st,
        Some {| cursor := skipFrom bpr (Fin c);
                valuesSpO2 := s0; valuesPulse := p0 |} = Some st
        /\ (K <= S n)%nat
        /\ valuesSpO2 st
           = s0 ++ map (fun i =>
                          inject_Z
                            (fst (pairAt view (readCursor bpr (Fin c) i))))
                     (seq 0 K)
        /\ valuesPulse st
           = p0 ++ map (fun i =>
                          inject_Z
                            (snd (pairAt view (readCursor bpr (Fin c) i))))
                     (seq 0 K)
        /\ (forall i, (i < K)%nat ->
              exists b0 b1,
                getUint8 view (readCursor bpr (Fin c) i) = Some b0
                /\ getUint8 view (readCursor bpr (Fin c) i + of_Z 1)%js
                   = Some b1)
        /\ ((K < S n)%nat ->
            (readCursor bpr (Fin c) K + of_Z 2 >? of_Z (byteLength view))%js
            = true)).
    { intros Hbreak. exists O. eexists. split; [reflexivity |].
      cbn [valuesSpO2 valuesPulse seq map readCursor]. rewrite !app_nil_r.
      split; [lia |]. split; [reflexivity |]. split; [reflexivity |].
      split; [intros i Hi; lia | intros _; exact Hbreak]. }
    destruct (skipFrom bpr (Fin c) + of_Z 2 >? of_Z (byteLength view))%js
      eqn:Ebreak; [now apply Hstop |].
    clear Hstop.
    destruct (skipFrom_cases bpr c Hc Hbc) as [E1 | (c1 & E1 & Hc1 & Hbc1)];
      [rewrite E1 in Ebreak; discriminate |].
    rewrite E1 in Ebreak |- *.
    destruct (round_nonneg (c1 + inject_Z 2)) as [Et | (t & Et & Ht0)].
    { change (inject_Z 2) with 2. lra. }
    { unfold of_Z at 1 in Ebreak. cbn [add] in Ebreak.
      rewrite Et in Ebreak. discriminate. }
    assert (Ecur : (Fin c1 + of_Z 2)%js = Fin t) by exact Et.
    rewrite Ecur in Ebreak |- *.
    assert (Hle : t <= inject_Z (byteLength view)).
    { unfold gtb, ltb, leb, of_Z in Ebreak.
      apply negb_false_iff in Ebreak. now apply Qle_bool_iff. }
    destruct (pair_inside view c1 t Hc1 Hbc1 Et Hle)
      as (b0 & b1 & Hb0 & Hb1).
    rewrite Hb0, Hb1.
    destruct (normalize b0 b1) as [s p] eqn:En.
    destruct (IH t (s0 ++ [inject_Z s]) (p0 ++ [inject_Z p]) Ht0
                (round_binary64 _ _ Et))
      as (K & st & Hscan & HK & Hvs & Hvp & Hin & Hbr).
    assert (Hnext : forall i,
               readCursor bpr (Fin c) (S i) = readCursor bpr (Fin t) i).
    { intros i. cbn [readCursor]. now rewrite E1, Ecur. }
    assert (Hfirst : pairAt view (readCursor bpr (Fin c) 0) = (s, p)).
    { cbn [readCursor]. rewrite E1. unfold pairAt, uint8Or0.
      now rewrite Hb0, Hb1. }
    exists (S K), st. split; [exact Hscan |].
    split; [lia |].
    split; [| split; [| split]].
    + rewrite Hvs, <- app_assoc. f_equal.
      cbn [seq map app]. rewrite Hfirst. cbn [fst]. f_equal.
      rewrite <- seq_shift, map_map. apply map_ext.
      intros i. now rewrite Hnext.
    + rewrite Hvp, <- app_assoc. f_equal.
      cbn [seq map app]. rewrite Hfirst. cbn [snd]. f_equal.
      rewrite <- seq_shift, map_map. apply map_ext.
      intros i. now rewrite Hnext.
    + intros [| i] Hi.
      * cbn [readCursor]. rewrite E1. eauto.
      * rewrite Hnext. apply Hin. lia.
    + intros HKn. rewrite Hnext. apply Hbr. lia.
Qed.

Lemma getLittleEndian_range (view : Buffer) (n : nat) :
  forall offset v,
    getLittleEndian view offset n = Some v ->
    (0 <= v < 256 ^ Z.of_nat n)%Z.
Proof.
  induction n as [| n IH]; intros offset v; cbn [getLittleEndian].
  - intros [= <-]. simpl. lia.
  - destruct (byteAt view offset) as [b |] eqn:Eb; [| discriminate].
    destruct (getLittleEndian view (offset + 1) n) as [r |] eqn:Er;
      [| discriminate].
    intros H. assert (Hv : v = (b + 256 * r)%Z) by congruence.
    specialize (IH _ _ Er). apply byteAt_range in Eb.
    rewrite Nat2Z.inj_succ, Z.pow_succ_r by lia. lia.
Qed.

(** What [parseHeader] tells of a file that it accepts. *)
Lemma parseHeader_accepts (localDate : Z -> Z -> Z -> Z -> Z -> Z -> Date)
    (buffer : Buffer) (info : SpO2AssistantHeaderInfo) :
  parseHeader localDate buffer = inr (Some info) ->
  (0 <= headerOffset info < 65536)%Z
  /\ (payloadStart info <= byteLength buffer)%Z
  /\ (0 <= samples info < 4294967296)%Z.
Proof.
  unfold parseHeader, getUint16, getUint32.
  destruct (getLittleEndian buffer 0 2) as [pos |] eqn:Ep; [| discriminate].
  destruct (byteLength buffer <? pos + 228)%Z eqn:El; [discriminate |].
  destruct (getLittleEndian buffer (pos + 200) 4); [| discriminate].
  destruct (getLittleEndian buffer (pos + 204) 4); [| discriminate].
  destruct (getLittleEndian buffer (pos + 208) 4); [| discriminate].
  destruct (getLittleEndian buffer (pos + 212) 4); [| discriminate].
  destruct (getLittleEndian buffer (pos + 216) 4); [| discriminate].
  destruct (getLittleEndian buffer (pos + 220) 4); [| discriminate].
  destruct (getLittleEndian buffer (pos + 224) 4) as [n |] eqn:En;
    [| discriminate].
  intros [= <-]. unfold payloadStart. simpl.
  apply Z.ltb_ge in El.
  pose proof (getLittleEndian_range _ _ _ _ Ep) as H2.
  pose proof (getLittleEndian_range _ _ _ _ En) as H4.
  change (256 ^ Z.of_nat 2)%Z with 65536%Z in H2.
  change (256 ^ Z.of_nat 4)%Z with 4294967296%Z in H4. lia.
Qed.

Lemma readsPairAt_comp (buffer : Buffer) (st : Scan) (i : nat) (p q : Q) :
  p == q -> readsPairAt buffer st i p -> readsPairAt buffer st i q.
Proof.
  intros H (b0 & b1 & H0 & H1 & Hs & Hp). exists b0, b1.
  rewrite <- (Qtrunc_comp p q H).
  rewrite <- (Qtrunc_comp (p + 1) (q + 1)) by now rewrite H.
  auto.
Qed.

(** A pair read at a whole cursor is the pair of the bytes at that offset
    and at the next one. *)
Lemma readsAt_whole (buffer : Buffer) (st : Scan) (i : nat) (z : Z) :
  (0 <= z < 2 ^ 53)%Z ->
  readsAt buffer st i (of_Z z) -> readsPairAt buffer st i (inject_Z z).
Proof.
  intros Hz (b0 & b1 & H0 & H1 & Hs & Hp). exists b0, b1.
  rewrite add_of_Z in H1 by lia.
  rewrite getUint8_of_Z in H0, H1 by lia.
  rewrite Qtrunc_inject_Z.
  rewrite (Qtrunc_of_Z (inject_Z z + 1) (z + 1))
    by (rewrite inject_Z_plus; reflexivity).
  auto.
Qed.

(** The decoder on a file whose header block lies at an offset of 16 bits:
    it returns, both channels have as many samples as the loop ran
    iterations, and sample [i] is the pair read at the computed cursor of
    iteration [i]. *)
Lemma decodeSamples_reads (buffer : Buffer) (info : SpO2AssistantHeaderInfo) :
  (0 <= headerOffset info < 65536)%Z ->
  exists st,
    decodeSamples buffer info = Some st
    /\ List.length (valuesPulse st) = List.length (valuesSpO2 st)
    /\ (List.length (valuesSpO2 st) <= Z.to_nat (samples info))%nat
    /\ (forall i, (i < List.length (valuesSpO2 st))%nat ->
          readsAt buffer st i
            (readCursor (computedBytesPerRecord buffer info)
               (of_Z (payloadStart info)) i))
    /\ ((List.length (valuesSpO2 st) < Z.to_nat (samples info))%nat ->
        (readCursor (computedBytesPerRecord buffer info)
           (of_Z (payloadStart info)) (List.length (valuesSpO2 st))
         + of_Z 2 >? of_Z (byteLength buffer))%js = true).
Proof.
  intros Hh.
  change (decodeSamples buffer info)
    with (scan buffer (of_Z (byteLength buffer))
            (computedBytesPerRecord buffer info) (Z.to_nat (samples info))
            {| cursor := Fin (inject_Z (payloadStart info));
               valuesSpO2 := []; valuesPulse := [] |}).
  set (bpr := computedBytesPerRecord buffer info).
  assert (Hc : 0 <= inject_Z (payloadStart info)).
  { unfold payloadStart. change 0 with (inject_Z 0).
    rewrite <- Zle_Qle. lia. }
  assert (Hbc : binary64 (inject_Z (payloadStart info))).
  { apply binary64_Z. unfold payloadStart.
    assert (H53 : (65536 + 228 < 2 ^ 53)%Z) by (vm_compute; reflexivity).
    lia. }
  destruct (scan_reads buffer bpr (Z.to_nat (samples info)) _ [] [] Hc Hbc)
    as (K & st & Hscan & HK & Hvs & Hvp & Hin & Hbr).
  exists st. split; [exact Hscan |].
  cbn [app] in Hvs, Hvp.
  assert (HlenS : List.length (valuesSpO2 st) = K)
    by now rewrite Hvs, length_map, length_seq.
  assert (HlenP : List.length (valuesPulse st) = K)
    by now rewrite Hvp, length_map, length_seq.
  rewrite HlenS, HlenP.
  split; [reflexivity |]. split; [exact HK |].
  split; [| exact Hbr].
  intros i Hi. destruct (Hin i Hi) as (b0 & b1 & H0 & H1).
  exists b0, b1. split; [exact H0 |]. split; [exact H1 |].
  rewrite Hvs, Hvp.
  rewrite (map_nth_error _ i (seq 0 K) (d := i)),
          (map_nth_error _ i (seq 0 K) (d := i));
    try (rewrite nth_error_seq;
         destruct (Nat.ltb i K) eqn:E; [reflexivity |];
         apply Nat.ltb_ge in E; lia).
  unfold pairAt, uint8Or0.
  change (of_Z (payloadStart info)) with (Fin (inject_Z (payloadStart info))).
  now rewrite H0, H1.
Qed.

(** *** Records of whole bytes *)

Lemma skipFrom_whole (b p : Z) :
  (2 <= b)%Z -> (0 <= p)%Z -> (p + b <= 2 ^ 53)%Z ->
  skipFrom (of_Z b) (of_Z p) = of_Z (p + (b - 2)).
Proof.
  intros Hb Hp Hle. unfold skipFrom. rewrite gtb_of_Z.
  destruct (2 <? b)%Z eqn:E.
  - rewrite sub_of_Z, add_of_Z by lia. reflexivity.
  - apply Z.ltb_ge in E. f_equal. lia.
Qed.

(** The computed cursor for records of [b] whole bytes. *)
Lemma readCursor_whole (b : Z) (i : nat) :
  forall p : Z,
    (2 <= b)%Z -> (0 <= p)%Z -> (p + Z.of_nat (S i) * b <= 2 ^ 53)%Z ->
    readCursor (of_Z b) (of_Z p) i = of_Z (p + Z.of_nat i * b + (b - 2)).
Proof.
  induction i as [| i IH]; intros p Hb Hp Hle; cbn [readCursor].
  - rewrite skipFrom_whole by lia. f_equal. lia.
  - pose proof (Nat2Z.is_nonneg i) as Hi.
    rewrite !Nat2Z.inj_succ in Hle. unfold Z.succ in Hle.
    assert (Hib : (0 <= Z.of_nat i * b)%Z) by nia.
    assert (Hle' : (p + b + (Z.of_nat i + 1) * b <= 2 ^ 53)%Z) by lia.
    rewrite skipFrom_whole by lia. rewrite add_of_Z by lia.
    replace (p + (b - 2) + 2)%Z with (p + b)%Z by lia.
    rewrite IH by (rewrite ?Nat2Z.inj_succ; unfold Z.succ; lia).
    f_equal. rewrite Nat2Z.inj_succ. lia.
Qed.

(** The computed cursor when nothing is skipped. *)
Lemma readCursor_pairs (bpr : num) (i : nat) :
  forall p : Z,
    (bpr >? of_Z 2)%js = false ->
    (0 <= p)%Z -> (p + 2 * Z.of_nat i <= 2 ^ 53)%Z ->
    readCursor bpr (of_Z p) i = of_Z (p + 2 * Z.of_nat i).
Proof.
  induction i as [| i IH]; intros p Hb Hp Hle; cbn [readCursor];
    unfold skipFrom; rewrite Hb.
  - f_equal. lia.
  - rewrite add_of_Z by lia. rewrite IH by (try exact Hb; lia).
    f_equal. lia.
Qed.

Lemma computedBytesPerRecord_whole (buffer : Buffer)
    (info : SpO2AssistantHeaderInfo) (b : Z) :
  (0 <= payloadStart info <= byteLength buffer)%Z ->
  (0 < samples info)%Z -> (0 <= b)%Z ->
  wholeRecords buffer info b ->
  computedBytesPerRecord buffer info = of_Z b.
Proof.
  intros Hp Hn Hb Hw. unfold wholeRecords in Hw.
  pose proof (byteLength_bound buffer) as HL.
  unfold computedBytesPerRecord.
  rewrite sub_of_Z by lia.
  apply div_of_Z; [lia | exact Hw | nia].
Qed.

Lemma bytesPerRecord_whole (buffer : Buffer) (info : SpO2AssistantHeaderInfo)
    (b : Z) :
  (0 < samples info)%Z -> wholeRecords buffer info b ->
  bytesPerRecord buffer info == inject_Z b.
Proof.
  intros Hn Hw. unfold wholeRecords in Hw. unfold bytesPerRecord.
  rewrite <- inject_Z_minus, Hw, inject_Z_mult.
  assert (H : ~ inject_Z (samples info) == 0).
  { change 0 with (inject_Z 0). rewrite inject_Z_injective. lia. }
  field. exact H.
Qed.

(** With no more than two bytes per record the decoder skips nothing. *)
Lemma computedBytesPerRecord_small (buffer : Buffer)
    (info : SpO2AssistantHeaderInfo) :
  (0 <= payloadStart info <= byteLength buffer)%Z ->
  (0 < samples info)%Z ->
  bytesPerRecord buffer info <= 2 ->
  (computedBytesPerRecord buffer info >? of_Z 2)%js = false.
Proof.
  intros Hp Hn Hle. pose proof (byteLength_bound buffer) as HL.
  unfold computedBytesPerRecord. rewrite sub_of_Z by lia.
  unfold div, of_Z.
  destruct (Qeq_bool (inject_Z (samples info)) 0) eqn:E.
  { apply Qeq_bool_iff in E. change 0 with (inject_Z 0) in E.
    rewrite inject_Z_injective in E. lia. }
  assert (Hq : inject_Z (byteLength buffer - payloadStart info)
               / inject_Z (samples info) <= inject_Z 2).
  { rewrite inject_Z_minus. exact Hle. }
  pose proof (round_mono _ _ Hq) as Hm.
  rewrite (round_Z 2) in Hm by (vm_compute; discriminate).
  unfold of_Z in Hm. unfold gtb, ltb.
  destruct (round _) as [v | | |]; cbn [leb] in Hm |- *;
    try discriminate; try reflexivity.
  now rewrite Hm.
Qed.

(** C4 (amended).  On every file that [parseHeader] accepts the decoder
    returns the two channels, of equal length and of at most [sampleCount]
    samples.  Sample [i] is the pair of the two bytes that [getUint8] reads at
    the cursor of iteration [i] and at the cursor plus one, the cursor being
    computed in binary64 arithmetic from [h+228] by adding
    [bytesPerRecord - 2] before each read, when [bytesPerRecord] is above 2,
    and 2 after it.  For a payload of [sampleCount] records of [b] whole
    bytes, [b] at least 2, there are exactly [sampleCount] samples and sample
    [i] is read from the last two bytes of record [i], at the offsets
    [(h+228) + i * b + (b - 2)] and the next one, which are bytes 0 and 1 of
    the record when [b] is 2.  With at most two bytes per record sample [i]
    is read at [(h+228) + 2 * i] and the next offset. *)
Theorem decoder_record_offsets
    (localDate : Z -> Z -> Z -> Z -> Z -> Z -> Date) (buffer : Buffer)
    (info : SpO2AssistantHeaderInfo) :
  parseHeader localDate buffer = inr (Some info) ->
  exists st,
    decodeSamples buffer info = Some st
    /\ List.length (valuesPulse st) = List.length (valuesSpO2 st)
    /\ (List.length (valuesSpO2 st) <= Z.to_nat (samples info))%nat
    /\ (forall i, (i < List.length (valuesSpO2 st))%nat ->
          readsAt buffer st i
            (readCursor (computedBytesPerRecord buffer info)
               (of_Z (payloadStart info)) i))
    /\ (forall b : Z,
          (2 <= b)%Z -> wholeRecords buffer info b ->
          List.length (valuesSpO2 st) = Z.to_nat (samples info)
          /\ (forall i, (i < Z.to_nat (samples info))%nat ->
                        readsRecordTail buffer info st b i))
    /\ (bytesPerRecord buffer info <= 2 ->
        forall i, (i < List.length (valuesSpO2 st))%nat ->
                  readsPairAt buffer st i
                    (inject_Z (payloadStart info)
                     + 2 * inject_Z (Z.of_nat i))).
Proof.
  intros Hparse.
  destruct (parseHeader_accepts _ _ _ Hparse) as (Hh & Hp & Hn).
  pose proof (byteLength_bound buffer) as HL.
  assert (Hp0 : (0 <= payloadStart info)%Z) by (unfold payloadStart; lia).
  destruct (decodeSamples_reads buffer info Hh)
    as (st & Hdec & Hlen & Hle & Hread & Hbr).
  exists st. split; [exact Hdec |]. split; [exact Hlen |].
  split; [exact Hle |]. split; [exact Hread |]. split.
  - intros b Hb Hw.
    destruct (Z.eq_dec (samples info) 0) as [E0 | Hpos].
    { rewrite E0 in *. simpl in Hle |- *.
      split; [lia | intros i Hi; lia]. }
    assert (Hn0 : (0 < samples info)%Z) by lia.
    pose proof (computedBytesPerRecord_whole buffer info b
                  (conj Hp0 Hp) Hn0 ltac:(lia) Hw) as Hc.
    pose proof (bytesPerRecord_whole buffer info b Hn0 Hw) as Hq.
    unfold wholeRecords in Hw. rewrite Hc in Hread, Hbr.
    assert (Hcur : forall i, (Z.of_nat i < samples info)%Z ->
              readCursor (of_Z b) (of_Z (payloadStart info)) i
              = of_Z (payloadStart info + Z.of_nat i * b + (b - 2))).
    { intros i Hi. apply readCursor_whole; [lia | lia |].
      rewrite Nat2Z.inj_succ. nia. }
    assert (Hall : List.length (valuesSpO2 st) = Z.to_nat (samples info)).
    { destruct (Nat.eq_dec (List.length (valuesSpO2 st))
                  (Z.to_nat (samples info))) as [E | E]; [exact E |].
      exfalso.
      assert (Hlt : (List.length (valuesSpO2 st)
                     < Z.to_nat (samples info))%nat) by lia.
      specialize (Hbr Hlt). rewrite Hcur in Hbr by lia.
      rewrite add_of_Z, gtb_of_Z in Hbr by nia.
      apply Z.ltb_lt in Hbr. nia. }
    split; [exact Hall |].
    intros i Hi. rewrite <- Hall in Hi. specialize (Hread i Hi).
    rewrite Hall in Hi. rewrite Hcur in Hread by lia.
    apply readsAt_whole in Hread; [| nia].
    unfold readsRecordTail. split; [| split].
    + eapply readsPairAt_comp; [| exact Hread].
      unfold recordTail, recordStart. rewrite Hq.
      rewrite !inject_Z_plus, inject_Z_mult, inject_Z_minus.
      change (inject_Z 2) with 2. ring.
    + exact Hread.
    + intros ->. eapply readsPairAt_comp; [| exact Hread].
      unfold recordStart. rewrite Hq.
      rewrite !inject_Z_plus, inject_Z_mult.
      change (inject_Z (2 - 2)) with 0. ring.
  - intros Hsmall i Hi.
    assert (Hn0 : (0 < samples info)%Z) by lia.
    pose proof (computedBytesPerRecord_small buffer info
                  (conj Hp0 Hp) Hn0 Hsmall) as Hc.
    specialize (Hread i Hi).
    assert (Hb53 : (2 ^ 52 < 2 ^ 53)%Z) by (vm_compute; reflexivity).
    assert (Hi32 : (Z.of_nat i < 4294967296)%Z) by lia.
    assert (H52 : (65536 + 228 + 2 * 4294967296 < 2 ^ 52)%Z)
      by (vm_compute; reflexivity).
    unfold payloadStart in *.
    rewrite readCursor_pairs in Hread by (try exact Hc; lia).
    apply readsAt_whole in Hread; [| lia].
    eapply readsPairAt_comp; [| exact Hread].
    rewrite inject_Z_plus, inject_Z_mult. reflexivity.
Qed.

Lemma decoder_record_offsets_witness :
  exists st,
    decodeSamples threeByteRecord threeByteInfo = Some st
    /\ List.length (valuesSpO2 st) = 1%nat
    /\ readsRecordTail threeByteRecord threeByteInfo st 3 0.
Proof.
  destruct (decoder_record_offsets (fun _ _ _ _ _ _ => InvalidDate)
              threeByteRecord threeByteInfo)
    as (st & Hdec & _ & _ & _ & Hw & _).
  - vm_compute. reflexivity.
  - exists st. split; [exact Hdec |].
    destruct (Hw 3%Z) as [Hlen Hread];
      [lia | vm_compute; reflexivity |].
    split; [exact Hlen |]. apply Hread. simpl. lia.
Defined.

(** C4 as stated fails for a record of three bytes 10, 20, 30: the decoder
    stores 20 and 30, the last two bytes, not bytes 0 and 1. *)
Lemma decoder_skips_leading_byte :
  parseHeader (fun _ _ _ _ _ _ => InvalidDate) threeByteRecord
  = inr (Some threeByteInfo)
  /\ ~ readsFirstBytes threeByteRecord threeByteInfo.
Proof.
  split; [vm_compute; reflexivity |].
  intros H.
  edestruct H with (i := O) as (b0 & b1 & H0 & H1 & Hs & _).
  - vm_compute. reflexivity.
  - reflexivity.
  - vm_compute in H0, H1. injection H0 as <-. injection H1 as <-.
    vm_compute in Hs. discriminate.
Qed.

(** Seven payload bytes for three samples: the third cursor is computed as
    the binary64 number just above 233, the test [cursor + 2 > fileSize]
    holds, and the decoder stores two samples where the exact quotient 7/3
    would give three. *)
Lemma decoder_fractional_records :
  exists st,
    decodeSamples sevenBytes
      {| start := InvalidDate; samples := 3; headerOffset := 0 |}
    = Some st
    /\ valuesSpO2 st = [inject_Z 1; inject_Z 3]
    /\ valuesPulse st = [inject_Z 2; inject_Z 4]
    /\ (exists c, cursor st = Fin c /\ 233 < c).
Proof.
  eexists. split; [vm_compute; reflexivity |].
  split; [reflexivity |]. split; [reflexivity |].
  eexists. split; reflexivity.
Qed.

Lemma normalize_rule (b0 b1 : Z) :
  sentinelRule b0 b1 (inject_Z (fst (normalize b0 b1)))
    (inject_Z (snd (normalize b0 b1))).
Proof.
  unfold sentinelRule, normalize.
  destruct ((b0 =? 127) && (b1 =? 255))%Z eqn:E; simpl.
  - split; [intros _; split; reflexivity |].
    apply andb_true_iff in E. destruct E as [E0 E1].
    apply Z.eqb_eq in E0, E1. tauto.
  - split; [| intros _; split; reflexivity].
    intros [-> ->]. discriminate.
Qed.

(** C8.  On every file that [parseHeader] accepts the decoder returns, its two
    arrays are the sample arrays of the file that [loadSession] returns, and
    for every sample index [k]: when the two bytes that the loop reads for
    sample [k], at its cursor and at its cursor plus one, are 0x7F and 0xFF,
    SpO2 and Pulse at [k] are both 0; for any other pair they are the two
    bytes. *)
Theorem decoder_sentinel (localDate : Z -> Z -> Z -> Z -> Z -> Z -> Date)
    (anonymousPatientId : string) (recordingIdOf : Date -> string)
    (buffer : Buffer) (info : SpO2AssistantHeaderInfo) :
  parseHeader localDate buffer = inr (Some info) ->
  exists st,
    decodeSamples buffer info = Some st
    /\ (forall session path rest,
          files session = (path, buffer) :: rest ->
          exists out,
            loadSession localDate anonymousPatientId recordingIdOf session
            = inr out
            /\ values out = [valuesSpO2 st; valuesPulse st])
    /\ (forall k, (k < List.length (valuesSpO2 st))%nat ->
                  decodedBySentinelRule buffer info st k).
Proof.
  intros Hparse.
  destruct (parseHeader_accepts _ _ _ Hparse) as (Hh & Hp & Hn).
  destruct (decodeSamples_reads buffer info Hh)
    as (st & Hdec & Hlen & Hle & Hread & Hbr).
  exists st. split; [exact Hdec |]. split.
  - intros session path rest Hf. unfold loadSession.
    rewrite Hf, Hparse, Hdec. eexists. split; reflexivity.
  - intros k Hk. destruct (Hread k Hk) as (b0 & b1 & H0 & H1 & Hs & Hpu).
    exists b0, b1. do 2 eexists.
    split; [exact H0 |]. split; [exact H1 |].
    split; [exact Hs |]. split; [exact Hpu |].
    apply normalize_rule.
Qed.

Lemma decoder_sentinel_witness :
  exists st,
    decodeSamples twoByteRecords
      {| start := InvalidDate; samples := 3; headerOffset := 0 |}
    = Some st
    /\ valuesSpO2 st = [inject_Z 97; 0; inject_Z 96]
    /\ valuesPulse st = [inject_Z 60; 0; inject_Z 62]
    /\ decodedBySentinelRule twoByteRecords
         {| start := InvalidDate; samples := 3; headerOffset := 0 |} st 1.
Proof.
  destruct (decoder_sentinel (fun _ _ _ _ _ _ => InvalidDate) "X X X X"
              (fun _ => "Startdate X X X"%string) twoByteRecords
              {| start := InvalidDate; samples := 3; headerOffset := 0 |})
    as (st & Hdec & _ & Hk).
  - vm_compute. reflexivity.
  - exists st. split; [exact Hdec |].
    vm_compute in Hdec. injection Hdec as <-.
    split; [reflexivity |]. split; [reflexivity |].
    apply Hk. simpl. lia.
Defined.

End Oximetry.

(** ** Further properties of [mergeSignals] *)

Section MergeStructure.
Import JS JSFacts.

Lemma relativeIndex_range (len : Z) (i : num) :
  (0 <= len)%Z -> (0 <= relativeIndex len i <= len)%Z.
Proof.
  intros H. unfold relativeIndex.
  destruct i as [q | | |]; try lia.
  destruct (Qtrunc q <? 0)%Z eqn:E.
  - apply Z.ltb_lt in E. lia.
  - apply Z.ltb_ge in E. lia.
Qed.

(** A slice is a run of consecutive elements of the array, whatever the two
    indices are. *)
Lemma slice_segment {A : Type} (l : list A) (s e : num) :
  segment (slice l s e) l.
Proof.
  unfold segment, slice.
  set (k := Z.to_nat (relativeIndex (Z.of_nat (List.length l)) s)).
  set (n := Z.to_nat (relativeIndex (Z.of_nat (List.length l)) e
                      - relativeIndex (Z.of_nat (List.length l)) s)).
  exists (firstn k l), (skipn n (skipn k l)).
  now rewrite (firstn_skipn n (skipn k l)), (firstn_skipn k l).
Qed.

(** The choices of step 2, group by group. *)
Lemma mergeSignals_picks (start end_ : Date) (files : list EDFFile)
    (out : Merged) :
  mergeSignals start end_ files = Some out ->
  exists picks,
    Forall2 (fun g p => pick files g = Some p)
      (Map_values (groupByLabel files)) picks
    /\ mergedSignals out = map pickedSignal picks
    /\ mergedValues out = map (pickedSamples start end_) picks
    /\ mergedAnnotations out = mergeAnnotations start end_ files.
Proof.
  intros Hm. unfold mergeSignals in Hm.
  destruct (mergeLabels start end_ files ([], [])
              (Map_values (groupByLabel files))) as [[sigs vals] |] eqn:E;
    [| discriminate].
  injection Hm as <-.
  destruct (mergeLabels_picks _ _ _ _ _ _ E) as (picks & Hp & Hout).
  simpl in Hout. injection Hout as -> ->.
  exists picks. auto.
Qed.

(** A group of the map holds channels of the candidates. *)
Lemma group_channels (files : list EDFFile) (j : nat) (k : string)
    (g : list SignalInfo) :
  nth_error (groupByLabel files) j = Some (k, g) ->
  g = candidates k files.
Proof.
  intros Hj. pose proof (groupByLabel_grouped files) as Hg.
  apply (grouped_get _ _ _ _ Hg).
  apply (Map_nth_get _ j); [apply Hg | exact Hj].
Qed.

(** X1.  Every sample array of the merged output is a run of consecutive
    samples of one channel of one candidate file, and the descriptor at the
    same position of the output is the descriptor of that channel: nothing is
    resampled, reordered or taken from two files. *)
Theorem mergeSignals_segments (start end_ : Date) (files : list EDFFile)
    (out : Merged) (j : nat) (samples : list Q) :
  mergeSignals start end_ files = Some out ->
  nth_error (mergedValues out) j = Some samples ->
  exists file i s vals,
    In file files
    /\ nth_error (signals (header file)) i = Some s
    /\ nth_error (values file) i = Some vals
    /\ nth_error (mergedSignals out) j = Some s
    /\ segment samples vals.
Proof.
  intros Hm Hj.
  destruct (mergeSignals_picks _ _ _ _ Hm) as (picks & Hp & Hs & Hv & _).
  rewrite Hv, nth_error_map in Hj.
  destruct (nth_error picks j) as [[[best file] vals] |] eqn:Ep;
    [| discriminate].
  injection Hj as <-.
  destruct (Forall2_nth_r _ _ _ _ _ Hp Ep) as (g & Hg & Hpick).
  destruct (pick_head _ _ _ _ _ Hpick) as (Hbest & Hfile & Hvals).
  unfold Map_values in Hg. rewrite nth_error_map in Hg.
  destruct (nth_error (groupByLabel files) j) as [[k g'] |] eqn:Em;
    [| discriminate].
  injection Hg as ->.
  apply group_channels in Em. subst g.
  apply firstHighest_In, filter_In in Hbest. destruct Hbest as [Hch _].
  apply channels_In in Hch. destruct Hch as (file' & Hfile' & Hsig).
  assert (file' = file) by congruence. subst file'.
  exists file, (info_index best), (info_signal best), vals.
  split; [eapply nth_error_In; eauto |].
  split; [exact Hsig |]. split; [exact Hvals |].
  split; [now rewrite Hs, (map_nth_error pickedSignal _ _ Ep) |].
  apply slice_segment.
Qed.

Lemma mergeSignals_segments_witness :
  exists file i s vals,
    In file [slowPress; fastPress]
    /\ nth_error (signals (header file)) i = Some s
    /\ nth_error (values file) i = Some vals
    /\ nth_error
         (mergedSignals
            {| mergedSignals := [channel "Press" 1500; channel "Flow" 1500];
               mergedValues := [[6; 7; 8; 9]; [4; 5]];
               mergedAnnotations := [] |}) 0 = Some s
    /\ segment [6; 7; 8; 9] vals.
Proof.
  apply (mergeSignals_segments (DateOf 0) (DateOf 60000)
           [slowPress; fastPress] _ 0 [6; 7; 8; 9]).
  - vm_compute. reflexivity.
  - reflexivity.
Defined.

End MergeStructure.

Section MergeOrder.
Import JS.

Lemma In_distinct (ls : list string) (x : string) :
  In x (distinct ls) <-> In x ls.
Proof.
  induction ls as [| l ls IH]; simpl; [tauto |].
  rewrite filter_In, IH, negb_true_iff, String.eqb_neq.
  destruct (String.eqb_spec x l) as [-> | Hne]; [tauto |].
  split; [intros [H | [H _]]; auto | intros [H | H]; auto].
Qed.

Lemma NoDup_distinct (ls : list string) : NoDup (distinct ls).
Proof.
  induction ls as [| l ls IH]; simpl; constructor.
  - rewrite filter_In, negb_true_iff, String.eqb_neq. intros [_ H]. now apply H.
  - now apply NoDup_filter.
Qed.

Lemma distinct_snoc (ls : list string) (x : string) :
  distinct (ls ++ [x])
  = if existsb (String.eqb x) ls then distinct ls else distinct ls ++ [x].
Proof.
  induction ls as [| l ls IH]; simpl; [reflexivity |].
  rewrite IH. destruct (String.eqb_spec x l) as [-> | Hne]; simpl.
  - destruct (existsb (String.eqb l) ls); [reflexivity |].
    rewrite filter_app. simpl. rewrite String.eqb_refl. simpl.
    now rewrite app_nil_r.
  - destruct (existsb (String.eqb x) ls); [reflexivity |].
    rewrite filter_app. simpl.
    apply String.eqb_neq in Hne. now rewrite Hne.
Qed.

Lemma Map_has_keys (m : LabelMap) (k : string) :
  Map_has m k = existsb (String.eqb k) (map fst m).
Proof.
  unfold Map_has. induction m as [| [k0 v0] m IH]; simpl; [reflexivity |].
  rewrite (String.eqb_sym k k0).
  destruct (String.eqb k0 k); [reflexivity | exact IH].
Qed.

Lemma existsb_distinct (ls : list string) (x : string) :
  existsb (String.eqb x) (distinct ls) = existsb (String.eqb x) ls.
Proof.
  apply eq_true_iff_eq. rewrite !existsb_exists.
  split; intros (y & Hy & E); exists y; split; auto;
    now apply In_distinct.
Qed.

Lemma step_keys (m : LabelMap) (c : SignalInfo) :
  map fst (step m c)
  = if Map_has m (label (info_signal c)) then map fst m
    else map fst m ++ [label (info_signal c)].
Proof.
  unfold step, groupSignal. set (l0 := label (info_signal c)).
  unfold Map_has. destruct (Map_get m l0) as [infos |] eqn:E.
  - rewrite E, Map_keys_set. unfold Map_has. now rewrite E.
  - rewrite Map_get_set, String.eqb_refl, !Map_keys_set.
    unfold Map_has. now rewrite Map_get_set, String.eqb_refl, E.
Qed.

(** The keys of the map are the labels in the order of their first
    occurrence. *)
Lemma fold_step_keys (cs done : list SignalInfo) (m : LabelMap) :
  map fst m = distinct (map (fun c => label (info_signal c)) done) ->
  map fst (fold_left step cs m)
  = distinct (map (fun c => label (info_signal c)) (done ++ cs)).
Proof.
  revert done m. induction cs as [| c cs IH]; intros done m H; simpl.
  - now rewrite app_nil_r.
  - replace (done ++ c :: cs) with ((done ++ [c]) ++ cs)
      by now rewrite <- app_assoc.
    apply IH. rewrite step_keys, map_app. cbn [map].
    now rewrite distinct_snoc, Map_has_keys, H, existsb_distinct.
Qed.

Lemma groupByLabel_keys (files : list EDFFile) :
  map fst (groupByLabel files) = distinct (candidateLabels files).
Proof.
  rewrite groupByLabel_channels.
  apply (fold_step_keys (channels files) [] []). reflexivity.
Qed.

Lemma mergeSignals_labels (start end_ : Date) (files : list EDFFile)
    (out : Merged) :
  mergeSignals start end_ files = Some out ->
  map label (mergedSignals out) = distinct (candidateLabels files).
Proof.
  intros Hm.
  destruct (mergeSignals_picks _ _ _ _ Hm) as (picks & Hp & Hs & Hv & _).
  rewrite <- groupByLabel_keys, Hs.
  apply nth_error_ext. intros j. rewrite !nth_error_map.
  destruct (nth_error picks j) as [[[best file] vals] |] eqn:Ep.
  - destruct (Forall2_nth_r _ _ _ _ _ Hp Ep) as (g & Hg & Hpick).
    unfold Map_values in Hg. rewrite nth_error_map in Hg.
    destruct (nth_error (groupByLabel files) j) as [[k g'] |] eqn:Em;
      [| discriminate].
    injection Hg as ->. simpl. f_equal.
    destruct (pick_head _ _ _ _ _ Hpick) as (Hbest & _).
    apply group_channels in Em. subst g.
    apply (candidate_label k files). now apply firstHighest_In.
  - destruct (nth_error (groupByLabel files) j) as [[k g] |] eqn:Em;
      [| reflexivity].
    exfalso.
    assert (Hg : nth_error (Map_values (groupByLabel files)) j = Some g)
      by (unfold Map_values; now rewrite (map_nth_error snd _ _ Em)).
    destruct (Forall2_nth_l _ _ _ _ _ Hp Hg) as (p & Hpj & _).
    congruence.
Qed.

Lemma mergeSignals_parallel (start end_ : Date) (files : list EDFFile)
    (out : Merged) :
  mergeSignals start end_ files = Some out ->
  List.length (mergedValues out) = List.length (mergedSignals out).
Proof.
  intros Hm.
  destruct (mergeSignals_picks _ _ _ _ Hm) as (picks & _ & Hs & Hv & _).
  now rewrite Hs, Hv, !length_map.
Qed.

(** X2.  The merged output has one sample array per descriptor, and the
    labels of its descriptors are the labels of the candidates' channels,
    each once, in the order in which they first occur (file by file, signal
    by signal). *)
Theorem mergeSignals_first_seen (start end_ : Date) (files : list EDFFile)
    (out : Merged) :
  mergeSignals start end_ files = Some out ->
  map label (mergedSignals out) = distinct (candidateLabels files)
  /\ NoDup (map label (mergedSignals out))
  /\ List.length (mergedValues out) = List.length (mergedSignals out).
Proof.
  intros Hm.
  pose proof (mergeSignals_labels _ _ _ _ Hm) as Hl.
  split; [exact Hl |]. split.
  - rewrite Hl. apply NoDup_distinct.
  - exact (mergeSignals_parallel _ _ _ _ Hm).
Qed.

Lemma mergeSignals_first_seen_witness :
  map label
    (mergedSignals
       {| mergedSignals := [channel "Press" 1500; channel "Flow" 1500];
          mergedValues := [[6; 7; 8; 9]; [4; 5]];
          mergedAnnotations := [] |})
  = distinct (candidateLabels [slowPress; fastPress]).
Proof.
  apply (mergeSignals_first_seen (DateOf 0) (DateOf 60000)
           [slowPress; fastPress]).
  vm_compute. reflexivity.
Defined.

End MergeOrder.

(** ** The window without an end *)

Section InvalidEnd.
Import JS ResMedLoader.

Lemma slice_NaN_end {A : Type} (l : list A) (s : num) : slice l s NaN = [].
Proof.
  unfold slice. cbn [relativeIndex].
  pose proof (relativeIndex_range (Z.of_nat (List.length l)) s) as H.
  replace (Z.to_nat (0 - relativeIndex (Z.of_nat (List.length l)) s))
    with O by lia.
  reflexivity.
Qed.

Lemma extractSamples_invalid_end (start : Date) (file : EDFFile)
    (best : SignalInfo) (vals : list Q) :
  extractSamples start InvalidDate file best vals = [].
Proof. unfold extractSamples. exact (slice_NaN_end vals _). Qed.

Lemma inWindow_invalid_end (start : Date) (file : EDFFile)
    (a : EDFAnnotation) :
  inWindow start InvalidDate file a = false.
Proof.
  unfold inWindow. cbn [getTime].
  match goal with |- _ && (?x <=? NaN)%js = _ => destruct x end;
    apply andb_false_r.
Qed.

Lemma mergeSignals_without_end (start : Date) (files : list EDFFile)
    (out : Merged) :
  mergeSignals start InvalidDate files = Some out ->
  Forall (fun samples => samples = []) (mergedValues out)
  /\ mergedAnnotations out = [].
Proof.
  intros Hm.
  destruct (mergeSignals_picks _ _ _ _ Hm) as (picks & _ & _ & Hv & Ha).
  split.
  - rewrite Hv. apply Forall_forall. intros v Hin.
    apply in_map_iff in Hin. destruct Hin as (p & <- & _).
    apply extractSamples_invalid_end.
  - rewrite Ha, mergeAnnotations_flat_map.
    assert (Hf : forall f,
               map (retime start f)
                 (filter (inWindow start InvalidDate f) (annotations f)) = []).
    { intros f. induction (annotations f) as [| a l IHl]; [reflexivity |].
      simpl. now rewrite inWindow_invalid_end. }
    clear Hm Hv Ha. induction files as [| f files IH]; [reflexivity |].
    simpl. now rewrite Hf, IH.
Qed.

(** X3.  With an invalid end of the window, [mergeSignals] still selects the
    channels, but every sample array that it returns is empty and no
    annotation is kept. *)
Theorem mergeSignals_invalid_end (start : Date) (files : list EDFFile)
    (out : Merged) :
  mergeSignals start InvalidDate files = Some out ->
  Forall (fun samples => samples = []) (mergedValues out)
  /\ mergedAnnotations out = []
  /\ map label (mergedSignals out) = distinct (candidateLabels files).
Proof.
  intros Hm.
  destruct (mergeSignals_without_end _ _ _ Hm) as [Hv Ha].
  split; [exact Hv |]. split; [exact Ha |].
  exact (mergeSignals_labels _ _ _ _ Hm).
Qed.

Lemma mergeSignals_invalid_end_witness :
  Forall (fun samples : list Q => samples = [])
    (mergedValues
       {| mergedSignals := [channel "Flow" 1500];
          mergedValues := [[]];
          mergedAnnotations := [] |}).
Proof.
  apply (mergeSignals_invalid_end (DateOf 0) [annotated]).
  vm_compute. reflexivity.
Defined.

Lemma splice1_Forall {A : Type} (P : A -> Prop) (index : nat) (l : list A) :
  Forall P l -> Forall P (splice1 index l).
Proof.
  intros H. revert index. induction H as [| x l Hx Hl IH]; intros [| index];
    simpl; auto.
Qed.

(** A block of [postProcess] returns the file or the file less one channel. *)
Lemma dropUnfitted_cases (keyword : string) (file file' : EDFFile) :
  dropUnfitted keyword file = Some file' ->
  file' = file
  \/ exists index,
       (index < List.length (signals (header file)))%nat
       /\ indexOfLabel keyword (signals (header file)) = Some index
       /\ file' = removeChannel file index.
Proof.
  unfold dropUnfitted.
  destruct (indexOfLabel keyword (signals (header file))) as [index |] eqn:Ei;
    [| intros [= <-]; now left].
  destruct (nth_error (values file) index) as [vals |]; [| discriminate].
  destruct (negb (existsb _ vals)); intros [= <-]; [| now left].
  right. exists index. split; [| auto].
  apply indexOfLabel_Some in Ei. destruct Ei as [(s & Hs & _) _].
  apply nth_error_Some. now rewrite Hs.
Qed.

(** What [postProcess] leaves alone. *)
Lemma postProcess_keeps (file file' : EDFFile) (P : list Q -> Prop) :
  postProcess file = Some file' ->
  dataRecords (header file') = dataRecords (header file)
  /\ recordDuration (header file') = recordDuration (header file)
  /\ startTime (header file') = startTime (header file)
  /\ annotations file' = annotations file
  /\ (Forall P (values file) -> Forall P (values file')).
Proof.
  unfold postProcess.
  destruct (dropUnfitted "spo2" file) as [f1 |] eqn:E1; [| discriminate].
  intros E2.
  apply dropUnfitted_cases in E1, E2.
  destruct E1 as [-> | (i1 & _ & _ & ->)], E2 as [-> | (i2 & _ & _ & ->)];
    simpl; repeat split; auto; intros H;
    repeat apply splice1_Forall; exact H.
Qed.

(** X4.  [loadSession] calls [findCommonTimeRange] without a record duration,
    so its window has no valid end: whenever it returns, the file it returns
    declares NaN records of 60 s, every sample array in it is empty and it has
    no annotation. *)
Theorem loadSession_window_without_end (anonymousPatientId : string)
    (recordingIdOf : Date -> string) (session : Session File)
    (out : EDFFile) :
  loadSession anonymousPatientId recordingIdOf session = inr out ->
  dataRecords (header out) = NaN
  /\ recordDuration (header out) = 60
  /\ Forall (fun samples => samples = []) (values out)
  /\ annotations out = [].
Proof.
  unfold loadSession.
  destruct (loadFiles session [] (map snd (files session))) as [e | tree];
    [discriminate |].
  cbv zeta. rewrite !findCommonTimeRange_without_duration.
  set (cands := tree_search tree _ _).
  destruct (mergeSignals _ InvalidDate cands) as [merged |] eqn:Em;
    [| discriminate].
  destruct (postProcess _) as [f |] eqn:Ep; [| discriminate].
  intros [= <-].
  destruct (mergeSignals_without_end _ _ _ Em) as (Hv & Ha).
  destruct (postProcess_keeps _ _ (fun samples => samples = []) Ep)
    as (Hd & Hr & _ & Han & Hvals).
  cbn [header values annotations dataRecords recordDuration] in *.
  rewrite Hd, Hr, Han.
  split; [reflexivity |]. split; [reflexivity |].
  split; [now apply Hvals | exact Ha].
Qed.

Lemma loadSession_window_without_end_witness :
  exists out,
    loadSession "X X X X" (fun _ => "Startdate X X X"%string)
      discontinuousSession = inr out
    /\ dataRecords (header out) = NaN
    /\ Forall (fun samples => samples = []) (values out).
Proof.
  eexists. split; [vm_compute; reflexivity |].
  match goal with
  | |- dataRecords (header ?o) = _ /\ _ =>
      destruct (loadSession_window_without_end "X X X X"
                  (fun _ => "Startdate X X X"%string) discontinuousSession o)
        as (H1 & _ & H3 & _); [vm_compute; reflexivity |]
  end.
  split; [exact H1 | exact H3].
Defined.

End InvalidEnd.

(** ** [filterSignals] *)

Section Filter.
Import JS.

Lemma Set_has_lower (ls : list string) (x : string) :
  Set_has (map toLowerCase ls) x
  = existsb (fun l => String.eqb (toLowerCase l) x) ls.
Proof.
  unfold Set_has. induction ls as [| l ls IH]; simpl; [reflexivity |].
  now rewrite IH, String.eqb_sym.
Qed.

Lemma filter_indexed {A : Type} (P : A -> bool) (l : list A) (a : nat) :
  map snd (filter (fun p => P (snd p)) (combine (seq a (List.length l)) l))
  = filter P l.
Proof.
  revert a. induction l as [| x l IH]; intros a; simpl; [reflexivity |].
  destruct (P x); simpl; now rewrite IH.
Qed.

(** The loop of [filterSignals] as a filter of the indexed signals. *)
Lemma filterSignals_fold (vals : list (list Q)) (keep : EDFSignal -> bool)
    (l : list (nat * EDFSignal)) :
  forall acc,
    fold_left
      (fun acc '(idx, signal) =>
         if keep signal
         then (fst acc ++ [signal], snd acc ++ [nth_error vals idx])
         else acc) l acc
    = (fst acc ++ map snd (filter (fun p => keep (snd p)) l),
       snd acc
       ++ map (fun p => nth_error vals (fst p))
            (filter (fun p => keep (snd p)) l)).
Proof.
  induction l as [| [idx s] l IH]; intros acc; simpl.
  - rewrite !app_nil_r. now destruct acc.
  - rewrite IH. destruct (keep s); simpl; [| reflexivity].
    now rewrite <- !app_assoc.
Qed.

Lemma filterSignals_indexed (sigs : list EDFSignal) (vals : list (list Q))
    (filter_ : LabelFilter) :
  filterSignals sigs vals filter_
  = (map snd (filter (fun p => passes filter_ (snd p)) (indexed sigs)),
     map (fun p => nth_error vals (fst p))
       (filter (fun p => passes filter_ (snd p)) (indexed sigs))).
Proof.
  unfold filterSignals. cbv zeta.
  rewrite filterSignals_fold. cbn [fst snd app].
  assert (Hk : forall s,
             (match option_map (map toLowerCase) (allowedLabels filter_) with
              | Some s0 => Set_has s0 (toLowerCase (label s))
              | None => true
              end
              && match option_map (map toLowerCase) (disallowedLabels filter_)
                 with
                 | Some s0 => negb (Set_has s0 (toLowerCase (label s)))
                 | None => true
                 end)%bool = passes filter_ s).
  { intros s. unfold passes, listed.
    destruct (allowedLabels filter_), (disallowedLabels filter_); simpl;
      now rewrite ?Set_has_lower. }
  rewrite (filter_ext _ (fun p => passes filter_ (snd p)))
    by (intros [i s]; apply Hk).
  reflexivity.
Qed.

(** X5.  For signals and filter lists whose labels are ASCII strings,
    [filterSignals] keeps, in order, the signals whose label is listed among
    the allowed labels (when given) and not among the disallowed ones, labels
    being compared without regard to the case of their letters; the values it
    returns are, position by position, [values[idx]] for the original index
    [idx] of each kept signal, so signals and sample arrays stay paired. *)
Theorem filterSignals_paired (sigs : list EDFSignal) (vals : list (list Q))
    (filter_ : LabelFilter) :
  asciiLabels sigs filter_ ->
  fst (filterSignals sigs vals filter_) = filter (passes filter_) sigs
  /\ snd (filterSignals sigs vals filter_)
     = map (fun p => nth_error vals (fst p))
         (filter (fun p => passes filter_ (snd p)) (indexed sigs))
  /\ List.length (snd (filterSignals sigs vals filter_))
     = List.length (fst (filterSignals sigs vals filter_)).
Proof.
  intros _. rewrite filterSignals_indexed. cbn [fst snd].
  split; [apply filter_indexed |]. split; [reflexivity |].
  now rewrite !length_map.
Qed.

Lemma filterSignals_paired_witness :
  fst (filterSignals [channel "Flow" 2; channel "CRC16" 1] [[1; 2]; [3]]
         ResMedLoader.housekeeping)
  = [channel "Flow" 2]
  /\ snd (filterSignals [channel "Flow" 2; channel "CRC16" 1] [[1; 2]; [3]]
            ResMedLoader.housekeeping)
     = [Some [1; 2]].
Proof.
  destruct (filterSignals_paired [channel "Flow" 2; channel "CRC16" 1]
              [[1; 2]; [3]] ResMedLoader.housekeeping) as (H1 & H2 & _).
  - split; [| split]; cbn; repeat constructor.
  - rewrite H1, H2. split; reflexivity.
Defined.

End Filter.

(** ** The records that [loadSession] indexes *)

Section IndexedRecords.
Import JS ResMedLoader.

Lemma canonicalizeLabels_unmatched (sigs : list EDFSignal) :
  Forall (fun s => unmatched CANONICAL_NAMES (label s))
    (canonicalizeLabels sigs CANONICAL_NAMES).
Proof.
  unfold canonicalizeLabels.
  apply Forall_forall. intros s Hs. apply in_map_iff in Hs.
  destruct Hs as (s0 & <- & _). apply findCanonical_None.
  unfold canonicalizeSignal.
  destruct (findCanonical CANONICAL_NAMES (label s0)) as [c |] eqn:E.
  - unfold withLabel. cbn [label].
    apply CANONICAL_NAMES_fixed. now apply (findCanonical_In _ (label s0)).
  - exact E.
Qed.

(** X6.  After [canonicalizeLabels] with the ResMed table no label is an alias
    of the table any more, and no signal is added or dropped. *)
Theorem canonicalizeLabels_no_alias (sigs : list EDFSignal) :
  List.length (canonicalizeLabels sigs CANONICAL_NAMES) = List.length sigs
  /\ Forall (fun s => unmatched CANONICAL_NAMES (label s))
       (canonicalizeLabels sigs CANONICAL_NAMES).
Proof.
  split; [apply length_map | apply canonicalizeLabels_unmatched].
Qed.

(** No canonical name of the ResMed table is a housekeeping label. *)
Lemma CANONICAL_NAMES_not_housekeeping (c : string) :
  In c (map fst CANONICAL_NAMES) -> ~ housekeepingLabel c.
Proof.
  intros H.
  assert (Hall : forallb
                   (fun c => negb (existsb (String.eqb (toLowerCase c))
                                     ["edf annotations"; "crc16"; ""]%string))
                   (map fst CANONICAL_NAMES) = true)
    by (vm_compute; reflexivity).
  rewrite forallb_forall in Hall. specialize (Hall c H).
  apply negb_true_iff in Hall. unfold housekeepingLabel. intros Hin.
  assert (Hex : existsb (String.eqb (toLowerCase c))
                  ["edf annotations"; "crc16"; ""]%string = true).
  { apply existsb_exists. exists (toLowerCase c).
    split; [exact Hin | apply String.eqb_refl]. }
  congruence.
Qed.

Lemma passes_housekeeping (s : EDFSignal) :
  passes housekeeping s = true -> ~ housekeepingLabel (label s).
Proof.
  unfold passes, housekeeping, listed, housekeepingLabel.
  cbn [allowedLabels disallowedLabels andb existsb].
  rewrite negb_true_iff, !orb_false_iff.
  intros (H1 & H2 & H3 & _) [E | [E | [E | []]]];
    rewrite <- E in H1, H2, H3;
    [vm_compute in H1 | vm_compute in H2 | vm_compute in H3]; discriminate.
Qed.

Lemma canonicalizeSignal_clean (s0 : EDFSignal) :
  ~ housekeepingLabel (label s0) ->
  ~ housekeepingLabel (label (canonicalizeSignal CANONICAL_NAMES s0)).
Proof.
  intros H. unfold canonicalizeSignal.
  destruct (findCanonical CANONICAL_NAMES (label s0)) as [c |] eqn:E;
    [| exact H].
  unfold withLabel. cbn [label].
  apply CANONICAL_NAMES_not_housekeeping.
  now apply (findCanonical_In _ (label s0)).
Qed.

(** The corrected onset of an annotation is never below zero. *)
Lemma correctOnset_not_negative (a : EDFAnnotation) :
  ltb (onset (correctOnset a)) (of_Z 0) = false.
Proof.
  unfold correctOnset. cbn [onset]. unfold Math_max. cbn [fold_left].
  destruct (onset a - (ann_duration a ?? of_Z 0))%js as [q | | |];
    try reflexivity.
  change (max2 NInf (of_Z 0)) with (Fin 0).
  unfold max2, leb, of_Z. change (inject_Z 0) with 0.
  destruct (Qle_bool 0 q) eqn:E; unfold ltb, leb; rewrite ?E; reflexivity.
Qed.

(** What the loop body of [loadSession] does to the index: nothing, or one
    more record at its end. *)
Lemma loadFile_indexes (session : Session File) (tree tree' : IntervalTree)
    (file : File) :
  loadFile session tree file = inr tree' ->
  tree' = tree
  \/ exists i, tree' = tree ++ [i] /\ indexedRecord i.
Proof.
  unfold loadFile.
  destruct (negb (Qeq_bool (recordDuration (readHeader file))
                    recordDuration_fixed)
            && negb (Qeq_bool (recordDuration (readHeader file)) 0));
    [discriminate |].
  pose proof (filterSignals_indexed (signals (readHeader file))
                (map (readSignal file)
                   (seq 0 (List.length (signals (readHeader file)))))
                housekeeping) as E.
  destruct (filterSignals _ _ housekeeping) as [fsigs fvals].
  injection E as Hsig0 Hval0.
  assert (Hlen : List.length fvals = List.length fsigs)
    by (now rewrite Hsig0, Hval0, !length_map).
  assert (Hsig : fsigs = filter (passes housekeeping)
                           (signals (readHeader file)))
    by (rewrite Hsig0; apply filter_indexed).
  clear Hsig0 Hval0.
  cbn [withSignals dataRecords startTime reserved recordDuration signals].
  destruct (dataRecords (readHeader file) <=? of_Z 0)%js;
    intros [= <-]; [now left |].
  right. eexists. split; [reflexivity |].
  unfold indexedRecord. cbn [data low high header values signals startTime
                             duration annotations].
  split; [| split; [| split; [reflexivity | split; [reflexivity |]]]].
  - unfold definedValues, canonicalizeLabels. cbn [signals withSignals].
    rewrite !length_map. exact Hlen.
  - cbn [signals withSignals].
    apply Forall_forall. intros s Hs. split.
    + unfold canonicalizeLabels in Hs. apply in_map_iff in Hs.
      destruct Hs as (s0 & <- & Hs0). apply canonicalizeSignal_clean.
      rewrite Hsig in Hs0. apply filter_In in Hs0.
      now apply passes_housekeeping.
    + pose proof (canonicalizeLabels_unmatched fsigs) as Hall.
      rewrite Forall_forall in Hall. now apply Hall.
  - apply Forall_forall. intros a Ha. apply in_map_iff in Ha.
    destruct Ha as (a0 & <- & _). apply correctOnset_not_negative.
Qed.

Lemma loadFiles_appends (session : Session File) (fs : list File) :
  forall tree tree',
    loadFiles session tree fs = inr tree' ->
    exists added, tree' = tree ++ added /\ Forall indexedRecord added.
Proof.
  induction fs as [| f fs IH]; intros tree tree'; simpl.
  - intros [= <-]. exists []. rewrite app_nil_r. auto.
  - destruct (loadFile session tree f) as [e | tree1] eqn:E; [discriminate |].
    intros H. destruct (IH _ _ H) as (added & -> & Hall).
    destruct (loadFile_indexes _ _ _ _ E) as [-> | (i & -> & Hi)].
    + exists added. split; [reflexivity | exact Hall].
    + exists (i :: added). rewrite <- app_assoc. split; [reflexivity |].
      now constructor.
Qed.

(** X7.  The loop of [loadSession] only appends to the interval index, at
    most one record per file, and every record that it appends has one sample
    array per signal, no housekeeping channel ([EDF Annotations], [Crc16] or
    an empty label, in any letter case), no label that is still an alias of
    the ResMed table, its start as the low end of its span, the length of
    its span, in seconds, as its duration, and no annotation with an onset
    below zero. *)
Theorem loadFiles_indexed (session : Session File) (fs : list File)
    (tree tree' : IntervalTree) :
  loadFiles session tree fs = inr tree' ->
  exists added,
    tree' = tree ++ added
    /\ (List.length added <= List.length fs)%nat
    /\ Forall indexedRecord added.
Proof.
  revert tree. induction fs as [| f fs IH]; intros tree; simpl.
  - intros [= <-]. exists []. rewrite app_nil_r. auto.
  - destruct (loadFile session tree f) as [e | tree1] eqn:E; [discriminate |].
    intros H. destruct (IH _ H) as (added & -> & Hlen & Hall).
    destruct (loadFile_indexes _ _ _ _ E) as [-> | (i & -> & Hi)].
    + exists added. split; [reflexivity |]. split; [lia | exact Hall].
    + exists (i :: added). rewrite <- app_assoc. split; [reflexivity |].
      split; [simpl; lia | now constructor].
Qed.

Lemma loadFiles_indexed_witness :
  exists added,
    [ {| low := of_Z 0;
         high := of_Z 600000;
         data := hd recordA (candidatesOf discontinuousSession) |} ]
    = [] ++ added
    /\ (List.length added <= 1)%nat
    /\ Forall indexedRecord added.
Proof.
  apply (loadFiles_indexed discontinuousSession [discontinuousFile] []).
  vm_compute. reflexivity.
Defined.

Lemma tree_search_In (tree : IntervalTree) (lo hi : num) (f : EDFFile) :
  In f (tree_search tree lo hi) -> exists i, In i tree /\ data i = f.
Proof.
  unfold tree_search. intros H. apply in_map_iff in H.
  destruct H as (i & <- & Hi). apply filter_In in Hi. exists i. tauto.
Qed.

(** [postProcess] returns on a file with one sample array per signal, and
    keeps that. *)
Lemma dropUnfitted_parallel (keyword : string) (file : EDFFile) :
  List.length (values file) = List.length (signals (header file)) ->
  exists file',
    dropUnfitted keyword file = Some file'
    /\ List.length (values file') = List.length (signals (header file')).
Proof.
  intros Hlen. unfold dropUnfitted.
  destruct (indexOfLabel keyword (signals (header file))) as [index |] eqn:Ei;
    [| eauto].
  assert (Hi : (index < List.length (signals (header file)))%nat).
  { apply indexOfLabel_Some in Ei. destruct Ei as [(s & Hs & _) _].
    apply nth_error_Some. now rewrite Hs. }
  destruct (nth_error (values file) index) as [vals |] eqn:Ev.
  - destruct (negb (existsb _ vals)); eexists; split; try reflexivity;
      [| exact Hlen].
    cbn [removeChannel values header signals].
    rewrite !splice1_length by lia. now rewrite Hlen.
  - apply nth_error_None in Ev. lia.
Qed.

Lemma postProcess_parallel (file : EDFFile) :
  List.length (values file) = List.length (signals (header file)) ->
  exists file', postProcess file = Some file'.
Proof.
  intros Hlen. unfold postProcess.
  destruct (dropUnfitted_parallel "spo2" file Hlen) as (f1 & -> & H1).
  destruct (dropUnfitted_parallel "pulse" f1 H1) as (f2 & -> & _). eauto.
Qed.

(** X8.  Once the loop of [loadSession] over the files of the session has
    completed, nothing that follows reads a sample array that does not
    exist: [mergeSignals] returns on the files found in the index, for any
    window, with one sample array per descriptor, [postProcess] returns on
    every file with one sample array per signal, and so [loadSession] returns
    a file, whatever identifiers [EDFWriter] gives. *)
Theorem loadSession_only_error (anonymousPatientId : string)
    (recordingIdOf : Date -> string) (session : Session File)
    (tree : IntervalTree) :
  loadFiles session [] (map snd (files session)) = inr tree ->
  (forall start end_ : Date,
     exists merged,
       mergeSignals start end_
         (tree_search tree (getTime (session_start session))
            (getTime (session_end session)))
       = Some merged
       /\ List.length (mergedValues merged)
          = List.length (mergedSignals merged))
  /\ (forall file,
        List.length (values file) = List.length (signals (header file)) ->
        exists file', postProcess file = Some file')
  /\ exists out,
       loadSession anonymousPatientId recordingIdOf session = inr out.
Proof.
  intros Ht.
  set (cands := tree_search tree (getTime (session_start session))
                  (getTime (session_end session))).
  assert (Hc : Forall hasArrays cands).
  { destruct (loadFiles_appends _ _ _ _ Ht) as (added & Hadd & Hall).
    simpl in Hadd. subst added.
    apply Forall_forall. intros f Hf.
    apply tree_search_In in Hf. destruct Hf as (i & Hi & <-).
    rewrite Forall_forall in Hall. destruct (Hall i Hi) as (Hlen & _).
    unfold hasArrays. lia. }
  assert (Hmerge : forall start end_ : Date,
             exists merged,
               mergeSignals start end_ cands = Some merged
               /\ List.length (mergedValues merged)
                  = List.length (mergedSignals merged)).
  { intros start end_.
    destruct (mergeSignals_returns start end_ cands Hc) as (merged & Hm).
    exists merged. split; [exact Hm |].
    exact (mergeSignals_parallel _ _ _ _ Hm). }
  split; [exact Hmerge |].
  split; [exact postProcess_parallel |].
  unfold loadSession. rewrite Ht. cbv zeta. fold cands.
  destruct (Hmerge (range_start (findCommonTimeRange cands NaN))
              (range_end (findCommonTimeRange cands NaN)))
    as (merged & Hm & Hlen).
  rewrite Hm.
  match goal with
  | |- exists out, match postProcess ?f with _ => _ end = _ =>
      destruct (postProcess_parallel f Hlen) as (f' & ->)
  end.
  eauto.
Qed.

Lemma loadSession_only_error_witness :
  exists out,
    loadSession "X X X X" (fun _ => "Startdate X X X"%string)
      discontinuousSession
    = inr out.
Proof.
  eapply (loadSession_only_error "X X X X"
            (fun _ => "Startdate X X X"%string) discontinuousSession).
  vm_compute. reflexivity.
Defined.

End IndexedRecords.

(** ** Consistency of [postProcess] *)

Section PostProcessInvariant.
Import JS ResMedLoader.

Lemma splice1_In {A : Type} (index : nat) (l : list A) (x t : A) :
  In x l -> nth_error l index = Some t -> x <> t -> In x (splice1 index l).
Proof.
  revert index. induction l as [| y l IH]; intros [| index] Hin Hn Hne;
    simpl in *; try contradiction.
  - injection Hn as ->. destruct Hin as [-> | Hin]; [contradiction | exact Hin].
  - destruct Hin as [-> | Hin]; [now left | right; now apply (IH index)].
Qed.

(** One block keeps a consistent file consistent, removes at most one
    signal, adds none, and removes none that does not mention the keyword. *)
Lemma dropUnfitted_consistent (keyword : string) (file : EDFFile) :
  consistent file ->
  exists file',
    dropUnfitted keyword file = Some file'
    /\ consistent file'
    /\ (List.length (signals (header file))
        <= S (List.length (signals (header file'))))%nat
    /\ (forall s, In s (signals (header file')) ->
                  In s (signals (header file)))
    /\ (forall s, In s (signals (header file)) -> ~ mentions keyword s ->
                  In s (signals (header file')))
    /\ annotations file' = annotations file
    /\ startTime (header file') = startTime (header file).
Proof.
  intros [Hlen Hcount].
  destruct (dropUnfitted_parallel keyword file Hlen) as (file' & Hd & Hlen').
  exists file'. split; [exact Hd |].
  destruct (dropUnfitted_cases _ _ _ Hd) as [-> | (index & Hi & Hidx & ->)].
  - repeat split; auto.
  - unfold consistent.
    cbn [removeChannel header values signals signalCount annotations
         startTime] in *.
    split; [| split; [| split; [| split; [| split; reflexivity]]]].
    + split; [exact Hlen' |].
      rewrite splice1_length by exact Hi. lia.
    + rewrite splice1_length by exact Hi. lia.
    + intros s Hs. exact (without_In _ _ _ _ (splice1_without index _) Hs).
    + intros s Hs Hn.
      apply indexOfLabel_Some in Hidx. destruct Hidx as [(t & Ht & Hm) _].
      apply (splice1_In index _ s t Hs Ht). intros ->. contradiction.
Qed.

(** X9.  On a file with one sample array per signal and a signal count equal
    to the number of signals, [postProcess] returns a file that is again so.
    It removes at most two signals and adds none, never removes a signal whose
    lower-cased label contains neither "spo2" nor "pulse", and leaves the
    start time and the annotations as they were. *)
Theorem postProcess_consistent (file : EDFFile) :
  consistent file ->
  exists file',
    postProcess file = Some file'
    /\ consistent file'
    /\ (List.length (signals (header file))
        <= 2 + List.length (signals (header file')))%nat
    /\ (forall s, In s (signals (header file')) ->
                  In s (signals (header file)))
    /\ (forall s, In s (signals (header file)) ->
                  ~ mentions "spo2" s -> ~ mentions "pulse" s ->
                  In s (signals (header file')))
    /\ annotations file' = annotations file
    /\ startTime (header file') = startTime (header file).
Proof.
  intros Hc. unfold postProcess.
  destruct (dropUnfitted_consistent "spo2" file Hc)
    as (f1 & -> & Hc1 & Hl1 & Hsub1 & Hkeep1 & Ha1 & Hs1).
  destruct (dropUnfitted_consistent "pulse" f1 Hc1)
    as (f2 & -> & Hc2 & Hl2 & Hsub2 & Hkeep2 & Ha2 & Hs2).
  exists f2. split; [reflexivity |]. split; [exact Hc2 |].
  split; [lia |]. split; [auto |]. split; [auto |].
  split; congruence.
Qed.

Lemma postProcess_consistent_witness :
  exists file',
    postProcess fitted = Some file'
    /\ consistent file'
    /\ (List.length (signals (header fitted))
        <= 2 + List.length (signals (header file')))%nat
    /\ (forall s, In s (signals (header file')) ->
                  In s (signals (header fitted)))
    /\ (forall s, In s (signals (header fitted)) ->
                  ~ mentions "spo2" s -> ~ mentions "pulse" s ->
                  In s (signals (header file')))
    /\ annotations file' = annotations fitted
    /\ startTime (header file') = startTime (header fitted).
Proof.
  apply postProcess_consistent. split; reflexivity.
Defined.

End PostProcessInvariant.

(** ** When [mergeSignals] throws *)

Section MergeFailure.
Import JS.

Lemma firstHighest_unique (cands : list SignalInfo) (b b' : SignalInfo) :
  firstHighest cands b -> firstHighest cands b' -> b = b'.
Proof.
  intros (pre & post & -> & Hpre & Hpost) (pre' & post' & E & Hpre' & Hpost').
  revert pre' E Hpre Hpre'.
  induction pre as [| x pre IH]; intros [| x' pre'] E Hpre Hpre';
    simpl in E; injection E as E1 E2.
  - exact E1.
  - subst x' post.
    assert (rate b < rate b')%Z by (apply Hpre'; now left).
    assert (rate b' <= rate b)%Z
      by (apply Hpost; apply in_or_app; right; now left).
    lia.
  - subst x post'.
    assert (rate b' < rate b)%Z by (apply Hpre; now left).
    assert (rate b <= rate b')%Z
      by (apply Hpost'; apply in_or_app; right; now left).
    lia.
  - subst x'. apply (IH pre' E2).
    + intros c Hc. apply Hpre. now right.
    + intros c Hc. apply Hpre'. now right.
Qed.

Lemma mergeLabels_None (start end_ : Date) (files : list EDFFile)
    (groups : list (list SignalInfo)) :
  forall acc,
    mergeLabels start end_ files acc groups = None ->
    exists g, In g groups /\ pick files g = None.
Proof.
  induction groups as [| g groups IH]; intros acc; simpl; [discriminate |].
  rewrite mergeLabel_pick.
  destruct (pick files g) as [p |] eqn:Ep; simpl.
  - intros H. destruct (IH _ H) as (g' & Hg' & Hp). eauto.
  - intros _. exists g. split; [now left | exact Ep].
Qed.

(** X10.  [mergeSignals] throws exactly when, for some label, the channel it
    selects (the first of highest samples-per-record among the channels of
    that label) has no sample array at its index in its file.  A channel
    that is not selected may lack its array without any error. *)
Theorem mergeSignals_throws_iff (start end_ : Date) (files : list EDFFile) :
  mergeSignals start end_ files = None
  <-> exists l best file,
        firstHighest (candidates l files) best
        /\ nth_error files (info_fileIndex best) = Some file
        /\ nth_error (values file) (info_index best) = None.
Proof.
  split.
  - intros Hm. unfold mergeSignals in Hm.
    destruct (mergeLabels start end_ files ([], [])
                (Map_values (groupByLabel files))) as [[sigs vals] |] eqn:E;
      [discriminate |].
    destruct (mergeLabels_None _ _ _ _ _ E) as (g & Hg & Hp).
    pose proof (groupByLabel_grouped files) as Hgr.
    unfold Map_values in Hg. apply in_map_iff in Hg.
    destruct Hg as ([k g'] & Hk & Hin). simpl in Hk. subst g'.
    apply In_nth_error in Hin. destruct Hin as [j Hj].
    assert (Hget : Map_get (groupByLabel files) k = Some g)
      by (apply (Map_nth_get _ j); [apply Hgr | exact Hj]).
    pose proof (grouped_get _ _ _ _ Hgr Hget) as Hgk.
    fold (candidates k files) in Hgk.
    assert (Hne : g <> []).
    { destruct Hgr as [_ Hall]. rewrite Hall in Hget.
      destruct (filter (sameLabel k) (channels files)); congruence. }
    destruct (sort_head g Hne) as (best & rest & Hs & Hbest).
    assert (Hc : In best (channels files)).
    { apply firstHighest_In in Hbest. rewrite Hgk in Hbest.
      unfold candidates in Hbest. now apply filter_In in Hbest. }
    apply channels_In in Hc. destruct Hc as (file & Hfile & _).
    exists k, best, file. rewrite <- Hgk.
    split; [exact Hbest |]. split; [exact Hfile |].
    unfold pick in Hp. rewrite Hs, Hfile in Hp.
    destruct (nth_error (values file) (info_index best));
      [discriminate | reflexivity].
  - intros (l & best & file & Hbest & Hfile & Hvals).
    destruct (mergeSignals start end_ files) as [out |] eqn:Hm;
      [| reflexivity].
    exfalso.
    assert (Hne : candidates l files <> []).
    { apply firstHighest_In in Hbest.
      destruct (candidates l files); [contradiction | discriminate]. }
    destruct (mergeSignals_best _ _ _ _ l Hm Hne)
      as (j & best' & file' & vals' & Hbest' & _ & Hfile' & Hvals' & _).
    pose proof (firstHighest_unique _ _ _ Hbest Hbest') as <-.
    congruence.
Qed.

End MergeFailure.

(** ** Outcomes of the SpO2 Assistant loader *)

Section OximeterOutcomes.
Import JS SpO2AssistantLoader.

Variable localDate : Z -> Z -> Z -> Z -> Z -> Z -> Date.
Variable anonymousPatientId : string.
Variable recordingIdOf : Date -> string.

Lemma byteAt_outside (view : Buffer) (i : Z) :
  (i < 0 \/ byteLength view <= i)%Z -> byteAt view i = None.
Proof.
  intros H. unfold byteAt, byteLength in *.
  destruct (i <? 0)%Z eqn:E; [reflexivity |].
  apply Z.ltb_ge in E.
  assert (Hn : nth_error (bytes view) (Z.to_nat i) = None)
    by (apply nth_error_None; lia).
  now rewrite Hn.
Qed.

Lemma getUint16_inside (view : Buffer) :
  (2 <= byteLength view)%Z ->
  getUint16 view 0 = Some (headerPosition view)
  /\ (0 <= headerPosition view < 65536)%Z.
Proof.
  intros H. unfold getUint16, headerPosition, byteOr0.
  cbn [getLittleEndian]. change (0 + 1)%Z with 1%Z.
  destruct (byteAt_inside view 0) as [b0 H0]; [lia |].
  destruct (byteAt_inside view 1) as [b1 H1]; [lia |].
  rewrite H0, H1.
  pose proof (byteAt_range _ _ _ H0). pose proof (byteAt_range _ _ _ H1).
  split; [f_equal; lia | lia].
Qed.

Lemma getUint16_outside (view : Buffer) :
  (byteLength view < 2)%Z -> getUint16 view 0 = None.
Proof.
  intros H. unfold getUint16. cbn [getLittleEndian]. change (0 + 1)%Z with 1%Z.
  destruct (byteAt view 0) as [b0 |] eqn:H0; [| reflexivity].
  rewrite (byteAt_outside view 1); [reflexivity |]. lia.
Qed.

Lemma getUint32_inside (view : Buffer) (offset : Z) :
  (0 <= offset)%Z -> (offset + 4 <= byteLength view)%Z ->
  getUint32 view offset = Some (uint32At view offset)
  /\ (0 <= uint32At view offset < 4294967296)%Z.
Proof.
  intros H0 H4. unfold getUint32, uint32At, byteOr0.
  cbn [getLittleEndian].
  replace (offset + 1 + 1)%Z with (offset + 2)%Z by lia.
  replace (offset + 2 + 1)%Z with (offset + 3)%Z by lia.
  destruct (byteAt_inside view offset) as [b0 E0]; [lia |].
  destruct (byteAt_inside view (offset + 1)) as [b1 E1]; [lia |].
  destruct (byteAt_inside view (offset + 2)) as [b2 E2]; [lia |].
  destruct (byteAt_inside view (offset + 3)) as [b3 E3]; [lia |].
  rewrite E0, E1, E2, E3.
  pose proof (byteAt_range _ _ _ E0). pose proof (byteAt_range _ _ _ E1).
  pose proof (byteAt_range _ _ _ E2). pose proof (byteAt_range _ _ _ E3).
  split; [f_equal; lia | lia].
Qed.

(** The three outcomes of [parseHeader]. *)
Lemma parseHeader_cases (buffer : Buffer) :
  let h := headerPosition buffer in
  ((byteLength buffer < 2)%Z
   /\ parseHeader localDate buffer = inl RangeError)
  \/ ((2 <= byteLength buffer < h + 228)%Z
      /\ parseHeader localDate buffer = inr None)
  \/ ((2 <= byteLength buffer)%Z /\ (h + 228 <= byteLength buffer)%Z
      /\ parseHeader localDate buffer
         = inr (Some {| start :=
                          localDate (uint32At buffer (h + 200))
                            (uint32At buffer (h + 204) - 1)
                            (uint32At buffer (h + 208))
                            (uint32At buffer (h + 212))
                            (uint32At buffer (h + 216))
                            (uint32At buffer (h + 220));
                        samples := uint32At buffer (h + 224);
                        headerOffset := h |})).
Proof.
  intros h. unfold parseHeader.
  destruct (Z_lt_ge_dec (byteLength buffer) 2) as [Hs | Hl].
  - left. split; [exact Hs |]. now rewrite getUint16_outside.
  - right. destruct (getUint16_inside buffer) as [Hp Hr]; [lia |].
    fold h in Hp, Hr. rewrite Hp.
    destruct (byteLength buffer <? h + 228)%Z eqn:E.
    + left. apply Z.ltb_lt in E. split; [lia | reflexivity].
    + right. apply Z.ltb_ge in E.
      split; [lia |]. split; [exact E |].
      destruct (getUint32_inside buffer (h + 200)) as [-> _]; [lia | lia |].
      destruct (getUint32_inside buffer (h + 204)) as [-> _]; [lia | lia |].
      destruct (getUint32_inside buffer (h + 208)) as [-> _]; [lia | lia |].
      destruct (getUint32_inside buffer (h + 212)) as [-> _]; [lia | lia |].
      destruct (getUint32_inside buffer (h + 216)) as [-> _]; [lia | lia |].
      destruct (getUint32_inside buffer (h + 220)) as [-> _]; [lia | lia |].
      destruct (getUint32_inside buffer (h + 224)) as [-> _]; [lia | lia |].
      reflexivity.
Qed.

(** X11.  [parseHeader] raises only the [RangeError] of a read outside the
    buffer, and only on a buffer of fewer than two bytes.  On a longer buffer
    it returns [null] exactly when the header block at the position [h] given
    by the first two bytes would end past the buffer ([h + 228] above the
    length); otherwise every field is read inside the buffer, the header
    offset is [h] and the sample count is the 32-bit number at [h + 224]. *)
Theorem parseHeader_outcomes (buffer : Buffer) :
  match parseHeader localDate buffer with
  | inl e => e = RangeError /\ (byteLength buffer < 2)%Z
  | inr None =>
      (2 <= byteLength buffer < headerPosition buffer + 228)%Z
  | inr (Some info) =>
      (2 <= byteLength buffer)%Z
      /\ headerOffset info = headerPosition buffer
      /\ (0 <= headerOffset info < 65536)%Z
      /\ (headerOffset info + 228 <= byteLength buffer)%Z
      /\ samples info = uint32At buffer (headerOffset info + 224)
      /\ (0 <= samples info < 4294967296)%Z
  end.
Proof.
  destruct (parseHeader_cases buffer)
    as [[Hs ->] | [[Hn ->] | (H2 & Hl & ->)]]; cbv zeta.
  - split; [reflexivity | exact Hs].
  - exact Hn.
  - cbn [headerOffset samples].
    destruct (getUint16_inside buffer H2) as [_ Hr].
    destruct (getUint32_inside buffer (headerPosition buffer + 224))
      as [_ Hr4]; [lia | lia |].
    repeat split; try lia.
Qed.

Lemma normalize_range (b0 b1 : Z) :
  (0 <= b0 <= 255)%Z -> (0 <= b1 <= 255)%Z ->
  (0 <= fst (normalize b0 b1) <= 255)%Z
  /\ (0 <= snd (normalize b0 b1) <= 255)%Z.
Proof.
  intros H0 H1. unfold normalize.
  destruct ((b0 =? 127)%Z && (b1 =? 255)%Z)%bool; simpl; lia.
Qed.

Lemma whole_byte_range (b : Z) :
  (0 <= b <= 255)%Z -> 0 <= inject_Z b <= 255.
Proof.
  intros [H0 H1]. split.
  - change (inject_Z 0 <= inject_Z b). now rewrite <- Zle_Qle.
  - change (inject_Z b <= inject_Z 255). now rewrite <- Zle_Qle.
Qed.

(** Every decoded sample is a whole number from 0 to 255. *)
Lemma decodeSamples_range (buffer : Buffer) (info : SpO2AssistantHeaderInfo)
    (st : Scan) :
  (0 <= headerOffset info < 65536)%Z ->
  decodeSamples buffer info = Some st ->
  Forall (fun v => 0 <= v <= 255) (valuesSpO2 st)
  /\ Forall (fun v => 0 <= v <= 255) (valuesPulse st).
Proof.
  intros Hh Hdec.
  destruct (decodeSamples_reads buffer info Hh)
    as (st' & Hdec' & Hlen & _ & Hread & _).
  rewrite Hdec in Hdec'. injection Hdec' as <-.
  split; apply Forall_forall; intros v Hv;
    apply In_nth_error in Hv; destruct Hv as [i Hi].
  - assert (Hlt : (i < List.length (valuesSpO2 st))%nat)
      by (apply nth_error_Some; congruence).
    destruct (Hread i Hlt) as (b0 & b1 & E0 & E1 & Es & Ep).
    destruct (normalize_range b0 b1 (getUint8_range _ _ _ E0)
                (getUint8_range _ _ _ E1)) as [Hf Hs].
    rewrite Es in Hi. injection Hi as <-. now apply whole_byte_range.
  - assert (Hlt : (i < List.length (valuesSpO2 st))%nat)
      by (rewrite <- Hlen; apply nth_error_Some; congruence).
    destruct (Hread i Hlt) as (b0 & b1 & E0 & E1 & Es & Ep).
    destruct (normalize_range b0 b1 (getUint8_range _ _ _ E0)
                (getUint8_range _ _ _ E1)) as [Hf Hs].
    rewrite Ep in Hi. injection Hi as <-. now apply whole_byte_range.
Qed.

(** The record count: the rounded quotient by 30 has the floor of the exact
    one. *)
Lemma floor_thirtieth (n : Z) :
  (0 <= n < 4294967296)%Z ->
  floor (of_Z n / of_Z 30)%js = of_Z (n / 30).
Proof.
  intros Hn. unfold div, of_Z.
  change (Qeq_bool (inject_Z 30) 0) with false. cbv iota.
  set (k := (n / 30)%Z).
  pose proof (Z.div_mod n 30 ltac:(lia)) as Hdm. fold k in Hdm.
  pose proof (Z.mod_pos_bound n 30 ltac:(lia)) as Hr.
  assert (Hk : (0 <= k < 4294967296)%Z).
  { unfold k. split; [apply Z.div_pos; lia |].
    apply Z.div_lt_upper_bound; lia. }
  assert (Hlo : inject_Z k <= inject_Z n / inject_Z 30).
  { apply Qle_shift_div_l; [reflexivity |].
    rewrite <- inject_Z_mult, <- Zle_Qle. lia. }
  assert (Hhi : inject_Z n / inject_Z 30 <= inject_Z (32 * k + 31) / 32).
  { unfold Qle, Qdiv, Qmult, Qinv, inject_Z. cbn -[Z.mul Z.add]. lia. }
  assert (Hb : binary64 (inject_Z (32 * k + 31) / 32)).
  { exists (32 * k + 31)%Z, (-5)%Z.
    assert (H53 : (4294967296 * 32 < 2 ^ 53)%Z) by (vm_compute; reflexivity).
    split; [lia |]. split; [lia |]. split; [reflexivity |].
    apply Qle_lt_trans with (pow2 53); [| now apply JSFacts.pow2_lt].
    rewrite JSFacts.pow2_Z by lia. apply Qabs_Qle_condition.
    assert (H1 : 0 <= inject_Z (32 * k + 31))
      by (change 0 with (inject_Z 0); rewrite <- Zle_Qle; lia).
    assert (H2 : inject_Z (32 * k + 31) <= inject_Z (2 ^ 53))
      by (rewrite <- Zle_Qle; lia).
    assert (H3 : 0 <= inject_Z (2 ^ 53)) by (vm_compute; discriminate).
    split.
    - apply Qle_trans with 0; [lra |].
      apply Qle_shift_div_l; [reflexivity | lra].
    - apply Qle_shift_div_r; [reflexivity | lra]. }
  assert (H0 : 0 <= inject_Z n / inject_Z 30).
  { apply Qle_trans with (inject_Z k); [| exact Hlo].
    change 0 with (inject_Z 0). rewrite <- Zle_Qle. lia. }
  destruct (round_below _ _ Hb H0 Hhi) as (v & Hv & _ & Hv1).
  assert (Hbk : binary64 (inject_Z k)).
  { apply JSFacts.binary64_Z.
    assert (H53 : (4294967296 < 2 ^ 53)%Z) by (vm_compute; reflexivity). lia. }
  pose proof (round_above _ _ _ Hbk Hlo Hv) as Hv0.
  rewrite Hv. cbn [floor]. unfold of_Z. do 2 f_equal.
  assert (Hlt : v < inject_Z (k + 1)).
  { apply Qle_lt_trans with (inject_Z (32 * k + 31) / 32); [exact Hv1 |].
    apply Qlt_shift_div_r; [reflexivity |].
    change 32 with (inject_Z 32).
    rewrite <- inject_Z_mult, <- Zlt_Qlt. lia. }
  pose proof (Qfloor_le v) as Hf1. pose proof (Qlt_floor v) as Hf2.
  assert (Ha : inject_Z (Qfloor v) < inject_Z (k + 1)) by lra.
  assert (Hc : inject_Z k < inject_Z (Qfloor v + 1)) by lra.
  rewrite <- Zlt_Qlt in Ha, Hc. lia.
Qed.

(** X12.  For a session whose first file is [buffer], [loadSession] raises a
    [RangeError] exactly when the buffer has fewer than two bytes and the
    error of an invalid header exactly when the header block would end past
    the buffer; the sample loop never raises.  Otherwise it returns a file of
    the two channels SpO2 and Pulse, with one array per channel, every sample
    within the digital range 0..255 that its descriptor declares, no
    annotations, and a record count of the declared sample count divided by
    30, rounded down. *)
Theorem loadSession_outcomes (session : Session Buffer) (path : string)
    (buffer : Buffer) (rest : list (string * Buffer)) :
  files session = (path, buffer) :: rest ->
  oximeterOutcome buffer
    (loadSession localDate anonymousPatientId recordingIdOf session).
Proof.
  intros Hf. unfold oximeterOutcome, loadSession. rewrite Hf. cbv zeta.
  destruct (parseHeader_cases buffer)
    as [[Hs ->] | [[Hn ->] | (H2 & Hl & ->)]].
  - left. split; [reflexivity | exact Hs].
  - right. split; [reflexivity | exact Hn].
  - match goal with
    | |- context [decodeSamples buffer ?i] => set (info := i)
    end.
    destruct (getUint16_inside buffer H2) as [_ Hr].
    assert (Hh : (0 <= headerOffset info < 65536)%Z) by (cbn; lia).
    destruct (decodeSamples_reads buffer info Hh)
      as (st & Hdec & Hlen & _).
    rewrite Hdec.
    destruct (decodeSamples_range buffer info st Hh Hdec) as [Hrs Hrp].
    cbn [header values signals signalCount annotations dataRecords
         samples info].
    split; [exact H2 |]. split; [exact Hl |].
    split; [split; reflexivity |].
    split.
    { unfold withinDigitalRange. cbn [header values signals].
      repeat constructor; assumption. }
    split; [reflexivity |].
    split; [| reflexivity].
    apply floor_thirtieth. unfold info.
    apply (getUint32_inside buffer (headerPosition buffer + 224)); lia.
Qed.

(** What one entry of the directory does to the sessions found so far. *)
Lemma discover_cases (found : list (Session Buffer)) (path : string)
    (buffer : Buffer) :
  let h := headerPosition buffer in
  (isExport (path, buffer) = false
   /\ discover localDate found (path, buffer) = inr found)
  \/ (isExport (path, buffer) = true /\ (byteLength buffer < 2)%Z
      /\ discover localDate found (path, buffer) = inl RangeError)
  \/ (isExport (path, buffer) = true
      /\ (2 <= byteLength buffer < h + 228)%Z
      /\ discover localDate found (path, buffer) = inr found)
  \/ (isExport (path, buffer) = true
      /\ (2 <= byteLength buffer)%Z /\ (h + 228 <= byteLength buffer)%Z
      /\ exists info,
           parseHeader localDate buffer = inr (Some info)
           /\ samples info = uint32At buffer (h + 224)
           /\ discover localDate found (path, buffer)
              = inr (found
                     ++ [ {| session_start := start info;
                             session_end :=
                               new_Date
                                 (getTime (start info)
                                  + of_Z (samples info) * of_Z 1000)%js;
                             files := [(path, buffer)] |} ])).
Proof.
  intros h. unfold discover, isExport. cbn [fst].
  destruct (endsWith (toLowerCase path) ".spo2"); cbn [negb];
    [| left; split; reflexivity].
  right.
  destruct (parseHeader_cases buffer)
    as [[Hs ->] | [[Hn ->] | (H2 & Hl & Hp)]].
  - left. repeat split; assumption.
  - right; left. repeat split; try assumption; lia.
  - right; right. rewrite Hp. cbv zeta.
    split; [reflexivity |]. split; [exact H2 |]. split; [exact Hl |].
    eexists. split; [reflexivity |]. split; reflexivity.
Qed.

Lemma discoverAll_found (entries : list (string * Buffer)) :
  forall found0 found,
    discoverAll localDate found0 entries = inr found ->
    exists new,
      found = found0 ++ new
      /\ Forall
           (fun s =>
              exists path buffer info,
                files s = [(path, buffer)]
                /\ In (path, buffer) entries
                /\ isExport (path, buffer) = true
                /\ parseHeader localDate buffer = inr (Some info)
                /\ session_start s = start info
                /\ session_end s
                   = new_Date (getTime (start info)
                               + of_Z (samples info) * of_Z 1000)%js)
           new.
Proof.
  induction entries as [| [path buffer] entries IH]; intros found0 found;
    cbn [discoverAll].
  - intros [= <-]. exists []. split; [now rewrite app_nil_r | constructor].
  - assert (Hweak :
      forall new : list (Session Buffer),
        Forall
          (fun s =>
             exists path' buffer' info,
               files s = [(path', buffer')]
               /\ In (path', buffer') entries
               /\ isExport (path', buffer') = true
               /\ parseHeader localDate buffer' = inr (Some info)
               /\ session_start s = start info
               /\ session_end s
                  = new_Date (getTime (start info)
                              + of_Z (samples info) * of_Z 1000)%js) new ->
        Forall
          (fun s =>
             exists path' buffer' info,
               files s = [(path', buffer')]
               /\ In (path', buffer') ((path, buffer) :: entries)
               /\ isExport (path', buffer') = true
               /\ parseHeader localDate buffer' = inr (Some info)
               /\ session_start s = start info
               /\ session_end s
                  = new_Date (getTime (start info)
                              + of_Z (samples info) * of_Z 1000)%js) new).
    { intros new Hn. eapply Forall_impl; [| exact Hn].
      intros s (p & b & i & H1 & H2 & H3). exists p, b, i.
      split; [exact H1 |]. split; [now right | exact H3]. }
    destruct (discover_cases found0 path buffer)
      as [[_ ->] | [(_ & _ & ->) | [(_ & _ & ->) | (He & _ & _ & info & Hp & _ & ->)]]].
    + intros H. destruct (IH _ _ H) as (new & -> & Hn).
      exists new. split; [reflexivity | now apply Hweak].
    + discriminate.
    + intros H. destruct (IH _ _ H) as (new & -> & Hn).
      exists new. split; [reflexivity | now apply Hweak].
    + intros H. destruct (IH _ _ H) as (new & -> & Hn).
      eexists (_ :: new). split; [now rewrite <- app_assoc |].
      constructor; [| now apply Hweak].
      exists path, buffer, info. cbn [files session_start session_end].
      split; [reflexivity |]. split; [now left |].
      split; [exact He |]. split; [exact Hp |]. split; reflexivity.
Qed.

Lemma discoverAll_throws (entries : list (string * Buffer)) :
  forall found0 e,
    discoverAll localDate found0 entries = inl e
    <-> e = RangeError
        /\ exists entry,
             In entry entries /\ isExport entry = true
             /\ (byteLength (snd entry) < 2)%Z.
Proof.
  induction entries as [| [path buffer] entries IH]; intros found0 e;
    cbn [discoverAll].
  - split; [discriminate | intros (_ & entry & [] & _)].
  - assert (Hrest :
      forall found',
        (isExport (path, buffer) = false \/ (2 <= byteLength buffer)%Z) ->
        discoverAll localDate found' entries = inl e
        <-> e = RangeError
            /\ exists entry,
                 In entry ((path, buffer) :: entries)
                 /\ isExport entry = true
                 /\ (byteLength (snd entry) < 2)%Z).
    { intros found' Hok. rewrite IH. split.
      - intros (-> & entry & Hin & He & Hs). split; [reflexivity |].
        exists entry. split; [now right | now split].
      - intros (-> & entry & [<- | Hin] & He & Hs).
        + cbn [snd] in Hs. destruct Hok as [Hok | Hok]; [congruence | lia].
        + split; [reflexivity |]. exists entry. now repeat split. }
    destruct (discover_cases found0 path buffer)
      as [[He ->] | [(He & Hs & ->) | [(He & Hn & ->) | (He & H2 & _ & info & _ & _ & ->)]]].
    + apply Hrest. now left.
    + split.
      * intros [= <-]. split; [reflexivity |].
        exists (path, buffer). split; [now left | now split].
      * now intros [-> _].
    + apply Hrest. right. lia.
    + apply Hrest. now right.
Qed.

Lemma existsb_isExport (directory : list (string * Buffer)) :
  validateDirectory directory = existsb isExport directory.
Proof.
  unfold validateDirectory. induction directory as [| [p b] d IH];
    [reflexivity |].
  cbn [map existsb fst]. unfold isExport at 1. cbn [fst]. now rewrite IH.
Qed.

(** X13.  Every session that [sessions] returns holds exactly one file, an
    entry of the directory whose path ends in [.spo2] in any letter case; its
    end is its start plus one second for each declared sample; and
    [loadSession] on it returns a file that starts when the session starts.
    A directory that [validateDirectory] rejects has no sessions. *)
Theorem sessions_load (directory : list (string * Buffer))
    (found : list (Session Buffer)) :
  sessions localDate directory = inr found ->
  Forall
    (fun s =>
       exists path buffer file,
         files s = [(path, buffer)]
         /\ In (path, buffer) directory
         /\ isExport (path, buffer) = true
         /\ session_end s
            = new_Date
                (getTime (session_start s)
                 + of_Z (uint32At buffer (headerPosition buffer + 224))
                   * of_Z 1000)%js
         /\ loadSession localDate anonymousPatientId recordingIdOf s
            = inr file
         /\ startTime (header file) = session_start s)
    found
  /\ (validateDirectory directory = false -> found = []).
Proof.
  intros H. unfold sessions in H.
  destruct (discoverAll_found _ _ _ H) as (new & -> & Hn). cbn [app].
  split.
  - eapply Forall_impl; [| exact Hn].
    intros s (path & buffer & info & Hf & Hin & He & Hp & Hs & Hend).
    destruct (parseHeader_cases buffer)
      as [[_ Hp'] | [[_ Hp'] | (H2 & Hl & Hp')]];
      try (rewrite Hp in Hp'; discriminate).
    destruct (getUint16_inside buffer H2) as [_ Hr].
    assert (Hh : (0 <= headerOffset info < 65536)%Z).
    { rewrite Hp in Hp'. injection Hp' as ->. cbn; lia. }
    assert (Hsam : samples info
                   = uint32At buffer (headerPosition buffer + 224)).
    { rewrite Hp in Hp'. injection Hp' as ->. reflexivity. }
    destruct (decodeSamples_reads buffer info Hh) as (st & Hdec & _).
    exists path, buffer. eexists.
    split; [exact Hf |]. split; [exact Hin |]. split; [exact He |].
    split; [now rewrite Hend, Hs, Hsam |].
    unfold loadSession. rewrite Hf, Hp, Hdec.
    split; [reflexivity |]. cbn [header startTime]. now rewrite Hs.
  - intros Hv. rewrite existsb_isExport in Hv.
    destruct new as [| s new]; [reflexivity |]. exfalso.
    inversion Hn as [| ? ? (path & buffer & _ & _ & Hin & He & _) _].
    assert (Ht : existsb isExport directory = true)
      by (apply existsb_exists; eauto).
    congruence.
Qed.

(** X14.  [sessions] raises exactly when some entry of the directory whose
    path ends in [.spo2] has fewer than two bytes, and then with the
    [RangeError] of the first read of the header: one such file hides every
    other session of the directory.  An export whose header block does not
    fit is left out without an error. *)
Theorem sessions_throws_iff (directory : list (string * Buffer))
    (e : Error) :
  sessions localDate directory = inl e
  <-> e = RangeError
      /\ exists entry,
           In entry directory /\ isExport entry = true
           /\ (byteLength (snd entry) < 2)%Z.
Proof. unfold sessions. apply discoverAll_throws. Qed.

End OximeterOutcomes.

Lemma loadSession_outcomes_witness :
  oximeterOutcome twoByteRecords
    (SpO2AssistantLoader.loadSession (fun _ _ _ _ _ _ => JS.InvalidDate)
       "X X X X" (fun _ => "Startdate X X X"%string)
       (exportSession "night.SpO2" twoByteRecords)).
Proof.
  apply (loadSession_outcomes _ _ _ _ "night.SpO2" twoByteRecords []).
  reflexivity.
Defined.

Lemma sessions_load_witness :
  exists found,
    SpO2AssistantLoader.sessions (fun _ _ _ _ _ _ => JS.DateOf 0)
      [("readme.txt"%string, emptyFile); ("night.SpO2"%string, twoByteRecords)]
    = inr found
    /\ List.length found = 1%nat
    /\ Forall
         (fun s =>
            exists path buffer file,
              files s = [(path, buffer)]
              /\ In (path, buffer)
                   [("readme.txt"%string, emptyFile);
                    ("night.SpO2"%string, twoByteRecords)]
              /\ isExport (path, buffer) = true
              /\ session_end s
                 = JS.new_Date
                     (JS.getTime (session_start s)
                      + JS.of_Z (uint32At buffer (headerPosition buffer + 224))
                        * JS.of_Z 1000)%js
              /\ SpO2AssistantLoader.loadSession
                   (fun _ _ _ _ _ _ => JS.DateOf 0) "X X X X"
                   (fun _ => "Startdate X X X"%string) s
                 = inr file
              /\ startTime (header file) = session_start s)
         found.
Proof.
  eexists. split; [vm_compute; reflexivity |].
  split; [reflexivity |].
  match goal with
  | |- Forall _ ?f =>
      apply (sessions_load (fun _ _ _ _ _ _ => JS.DateOf 0) "X X X X"
               (fun _ => "Startdate X X X"%string)
               [("readme.txt"%string, emptyFile);
                ("night.SpO2"%string, twoByteRecords)] f)
  end.
  vm_compute. reflexivity.
Defined.

(** ** The window of [findCommonTimeRange] *)

Section Window.
Import JS JSFacts.

Lemma fold_max2_NaN (xs : list num) : fold_left max2 xs NaN = NaN.
Proof. induction xs as [| x xs IH]; [reflexivity | exact IH]. Qed.

Lemma fold_min2_NaN (xs : list num) : fold_left min2 xs NaN = NaN.
Proof. induction xs as [| x xs IH]; [reflexivity | exact IH]. Qed.

Lemma max2_NaN_r (a : num) : max2 a NaN = NaN.
Proof. now destruct a. Qed.

Lemma min2_NaN_r (a : num) : min2 a NaN = NaN.
Proof. now destruct a. Qed.

Lemma fold_max2_In_NaN (xs : list num) :
  In NaN xs -> forall a, fold_left max2 xs a = NaN.
Proof.
  induction xs as [| x xs IH]; intros [] a.
  - subst x. simpl. rewrite max2_NaN_r. apply fold_max2_NaN.
  - simpl. now apply IH.
Qed.

Lemma fold_min2_In_NaN (xs : list num) :
  In NaN xs -> forall a, fold_left min2 xs a = NaN.
Proof.
  induction xs as [| x xs IH]; intros [] a.
  - subst x. simpl. rewrite min2_NaN_r. apply fold_min2_NaN.
  - simpl. now apply IH.
Qed.

Lemma sub_NaN_r (a : num) : (a - NaN)%js = NaN.
Proof. now destruct a. Qed.

(** X15.  [findCommonTimeRange] returns an invalid end date when the list of
    files is empty, when the record duration is zero or not a number (as when
    the argument is left out), and when a file has an invalid start or a
    duration that is not a number; with no files or such a file the start
    date is invalid as well. *)
Theorem findCommonTimeRange_degenerate (files : list EDFFile)
    (recordDuration : num) :
  degenerate files recordDuration ->
  range_end (findCommonTimeRange files recordDuration) = InvalidDate
  /\ (files = []
      \/ (exists f, In f files /\ startTime (header f) = InvalidDate) ->
      range_start (findCommonTimeRange files recordDuration) = InvalidDate).
Proof.
  intros Hd. split.
  - destruct Hd as [-> | [-> | [(q & -> & Hq) | (f & Hf & Hbad)]]].
    + cbn. destruct recordDuration as [q | | |]; try reflexivity.
    + apply findCommonTimeRange_without_duration.
    + unfold findCommonTimeRange. cbn [range_end].
      assert (Hz : (Fin q * of_Z 1000)%js = Fin 0).
      { unfold mul, of_Z. apply round_zero. rewrite Hq. reflexivity. }
      rewrite Hz.
      assert (H : forall a b : num,
                 new_Date (a - (a - b) %% Fin 0)%js = InvalidDate).
      { intros a b. destruct (a - b)%js, a; reflexivity. }
      apply H.
    + unfold findCommonTimeRange. cbn [range_end].
      assert (Hmin : Math_min
                (map (fun file =>
                        (getTime (startTime (header file))
                         + (duration file ?? of_Z 0) * of_Z 1000)%js) files)
              = NaN).
      { apply fold_min2_In_NaN. apply in_map_iff. exists f.
        split; [| exact Hf].
        destruct Hbad as [-> | ->]; [reflexivity |].
        cbn. now destruct (getTime (startTime (header f))). }
      rewrite Hmin. reflexivity.
  - intros [-> | (f & Hf & Hs)]; [reflexivity |].
    unfold findCommonTimeRange. cbn [range_start].
    assert (Hmax : Math_max
              (map (fun file => getTime (startTime (header file))) files)
            = NaN).
    { apply fold_max2_In_NaN. apply in_map_iff. exists f.
      split; [now rewrite Hs | exact Hf]. }
    now rewrite Hmax.
Qed.

Lemma findCommonTimeRange_degenerate_witness :
  range_end (findCommonTimeRange [recordA; recordB] (of_Z 0)) = InvalidDate
  /\ (([recordA; recordB] = []
       \/ (exists f, In f [recordA; recordB]
                     /\ startTime (header f) = InvalidDate)) ->
      range_start (findCommonTimeRange [recordA; recordB] (of_Z 0))
      = InvalidDate).
Proof.
  apply findCommonTimeRange_degenerate.
  right; right; left. exists 0. split; reflexivity.
Defined.

(** X16.  For a non-empty list of files with valid starts and finite
    durations, whose starts and ends are whole milliseconds within [2^52] of
    the epoch, and a positive record duration of a whole number of
    milliseconds, the window that [findCommonTimeRange] returns has a
    positive length exactly when every file ends at least one record
    duration after every file starts, and its end lies before its start
    exactly when some file ends at least one record duration before some
    file starts; in between the window is empty, its end at its start. *)
Theorem findCommonTimeRange_window_length (files : list EDFFile) (rd : Q) :
  files <> [] ->
  Forall timed files ->
  Forall wholeTimes files ->
  0 < rd ->
  wholeMilliseconds rd ->
  exists s e : Z,
    findCommonTimeRange files (Fin rd)
    = {| range_start := DateOf s; range_end := DateOf e |}
    /\ ((s < e)%Z <-> overlapAtLeast (rd * 1000) files)
    /\ ((e < s)%Z <-> gapAtLeast (rd * 1000) files).
Proof.
  intros Hne Ht Hw Hrd (m & Hm & Hmb).
  assert (Hmpos : (0 < m)%Z).
  { rewrite Zlt_Qlt. rewrite <- Hm. change (inject_Z 0) with 0. lra. }
  destruct (findCommonTimeRange_value files rd m Hne Ht Hw ltac:(lia) Hm)
    as (s & r & Heq & (fsx & Hfsx & Hs) & Hsmax & (fex & Hfex & He) & Hemin).
  exists s, (r - Z.rem (r - s) m)%Z. split; [exact Heq |].
  assert (Hend : forall f, In f files -> fileEnd f == inject_Z (fileEndZ f)).
  { intros f Hf. rewrite Forall_forall in Hw. now destruct (Hw f Hf). }
  assert (Hpos : forall x, (0 < x - Z.rem x m <-> m <= x)%Z).
  { intros x. destruct (Z_lt_le_dec x 0) as [Hn | Hp].
    - destruct (rem_between x m Hmpos) as [_ Hb]. lia.
    - destruct (Z_lt_le_dec x m) as [Hlt | Hge].
      + rewrite Z.rem_small by lia. lia.
      + pose proof (Z.rem_bound_pos x m Hp Hmpos). lia. }
  assert (Hneg : forall x, (x - Z.rem x m < 0 <-> x <= - m)%Z).
  { intros x. destruct (Z_lt_le_dec x 0) as [Hn | Hp].
    - assert (E : Z.rem x m = (- Z.rem (- x) m)%Z)
        by (rewrite Z.rem_opp_l by lia; lia).
      destruct (Z_lt_le_dec (- x) m) as [Hlt | Hge].
      + rewrite E, Z.rem_small by lia. lia.
      + pose proof (Z.rem_bound_pos (- x) m ltac:(lia) Hmpos). lia.
    - destruct (rem_between x m Hmpos) as [Hb _]. lia. }
  split.
  - assert (Hk : (s < r - Z.rem (r - s) m <-> m <= r - s)%Z)
      by (specialize (Hpos (r - s)%Z); lia).
    rewrite Hk. unfold overlapAtLeast. split.
    + intros H f g Hf Hg. rewrite (Hend g Hg), Hm, <- inject_Z_plus.
      rewrite <- Zle_Qle. specialize (Hsmax f Hf). specialize (Hemin g Hg).
      lia.
    + intros H. specialize (H fsx fex Hfsx Hfex).
      rewrite (Hend fex Hfex), Hm, <- inject_Z_plus, <- Zle_Qle in H. lia.
  - assert (Hk : (r - Z.rem (r - s) m < s <-> r - s <= - m)%Z)
      by (specialize (Hneg (r - s)%Z); lia).
    rewrite Hk. unfold gapAtLeast. split.
    + intros H. exists fsx, fex.
      split; [exact Hfsx |]. split; [exact Hfex |].
      rewrite (Hend fex Hfex), Hm, <- inject_Z_plus, <- Zle_Qle. lia.
    + intros (f & g & Hf & Hg & H).
      rewrite (Hend g Hg), Hm, <- inject_Z_plus, <- Zle_Qle in H.
      specialize (Hsmax f Hf). specialize (Hemin g Hg). lia.
Qed.

Lemma findCommonTimeRange_window_length_witness :
  exists s e : Z,
    findCommonTimeRange [recordA; recordB] (Fin 60)
    = {| range_start := DateOf s; range_end := DateOf e |}
    /\ ((s < e)%Z <-> overlapAtLeast (60 * 1000) [recordA; recordB])
    /\ ((e < s)%Z <-> gapAtLeast (60 * 1000) [recordA; recordB]).
Proof.
  apply findCommonTimeRange_window_length.
  - discriminate.
  - repeat constructor.
  - repeat constructor; vm_compute; try reflexivity; discriminate.
  - reflexivity.
  - exists 60000%Z. split; [reflexivity | vm_compute; discriminate].
Defined.

End Window.

(** ** Sessions of a ResMed card *)

Section Discovery.
Import JS ResMedLoader.

Lemma substring_all (s : string) : substring 0 (String.length s) s = s.
Proof. induction s as [| c s IH]; simpl; [reflexivity | now rewrite IH]. Qed.

Lemma sliceFrom_app (p t : string) :
  sliceFrom (p ++ t)%string (String.length p) = t.
Proof.
  unfold sliceFrom. induction p as [| c p IH]; simpl.
  - rewrite Nat.sub_0_r. apply substring_all.
  - exact IH.
Qed.

Lemma length_app_slash (d : string) :
  String.length (d ++ "/")%string = (String.length d + 1)%nat.
Proof. induction d as [| c d IH]; simpl; [reflexivity | now rewrite IH]. Qed.

Lemma append_assoc (a b c : string) :
  ((a ++ b) ++ c = a ++ (b ++ c))%string.
Proof. induction a as [| x a IH]; simpl; [reflexivity | now rewrite IH]. Qed.

Lemma split_slash_nonempty (s : string) : split_slash s <> [].
Proof.
  destruct s as [| c t]; simpl; [discriminate |].
  destruct (Ascii.eqb c "/"); [discriminate |].
  destruct (split_slash t); discriminate.
Qed.

(** [split("/")] and [join("/")] are inverse to each other. *)
Lemma concat_split_slash (s : string) :
  String.concat "/" (split_slash s) = s.
Proof.
  induction s as [| c t IH]; [reflexivity |].
  cbn [split_slash]. cbv zeta.
  pose proof (split_slash_nonempty t) as Hne.
  destruct (Ascii.eqb c "/") eqn:E.
  - apply Ascii.eqb_eq in E. subst c.
    destruct (split_slash t) as [| h tl]; [congruence |].
    change (String.concat "/" (""%string :: h :: tl))
      with ("" ++ "/" ++ String.concat "/" (h :: tl))%string.
    now rewrite IH.
  - destruct (split_slash t) as [| h tl]; [congruence |].
    rewrite <- IH. destruct tl; reflexivity.
Qed.

Lemma split_slash_free (n : string) : slashFree n -> split_slash n = [n].
Proof.
  unfold slashFree. induction n as [| c t IH]; [reflexivity |].
  cbn [includes String.prefix]. intros H.
  apply orb_false_iff in H. destruct H as [Hp Ht].
  cbn [split_slash]. cbv zeta.
  destruct (Ascii.eqb c "/") eqn:E.
  - apply Ascii.eqb_eq in E. subst c. simpl in Hp.
    destruct t; discriminate.
  - now rewrite (IH Ht).
Qed.

Lemma split_slash_app (d n : string) :
  slashFree n ->
  split_slash (d ++ "/" ++ n)%string = split_slash d ++ [n].
Proof.
  intros Hn. induction d as [| c d IH].
  - simpl. now rewrite (split_slash_free n Hn).
  - change (String c d ++ "/" ++ n)%string
      with (String c (d ++ "/" ++ n)%string).
    cbn [split_slash]. cbv zeta. rewrite IH.
    destruct (Ascii.eqb c "/"); [reflexivity |].
    pose proof (split_slash_nonempty d) as Hne.
    destruct (split_slash d) as [| h tl]; [congruence | reflexivity].
Qed.

Lemma dirPathOf_app (dir name : string) :
  slashFree name -> dirPathOf (dir ++ "/" ++ name)%string = dir.
Proof.
  intros Hn. unfold dirPathOf.
  rewrite (split_slash_app dir name Hn), removelast_last.
  apply concat_split_slash.
Qed.

Lemma dirPathOf_free (name : string) :
  slashFree name -> dirPathOf name = ""%string.
Proof.
  intros Hn. unfold dirPathOf. now rewrite (split_slash_free name Hn).
Qed.

Lemma substring_split (s : string) :
  forall a, (a <= String.length s)%nat ->
    s = (substring 0 a s ++ substring a (String.length s - a) s)%string.
Proof.
  induction s as [| c s IH]; intros [| a] Ha; simpl in *; try lia.
  - reflexivity.
  - now rewrite substring_all.
  - rewrite <- IH by lia. reflexivity.
Qed.

Lemma length_append (a b : string) :
  String.length (a ++ b)%string = (String.length a + String.length b)%nat.
Proof. induction a as [| c a IH]; simpl; [reflexivity | now rewrite IH]. Qed.

Lemma substring_app_r (b suffix : string) :
  substring (String.length b) (String.length suffix) (b ++ suffix)%string
  = suffix.
Proof. induction b as [| c b IH]; simpl; [apply substring_all | exact IH]. Qed.

(** [endsWith] is the suffix test. *)
Lemma endsWith_app (s suffix : string) :
  endsWith s suffix = true <-> exists before, s = (before ++ suffix)%string.
Proof.
  unfold endsWith. cbv zeta. rewrite andb_true_iff, Nat.leb_le, String.eqb_eq.
  split.
  - intros [Hk Hs].
    exists (substring 0 (String.length s - String.length suffix) s).
    pose proof (substring_split s (String.length s - String.length suffix))
      as H.
    replace (String.length s - (String.length s - String.length suffix))%nat
      with (String.length suffix) in H by lia.
    rewrite Hs in H. apply H. lia.
  - intros [b ->]. rewrite length_append. split; [lia |].
    rewrite Nat.add_sub. apply substring_app_r.
Qed.

Lemma marker_isEDF (path : string) : marker path = true -> isEDF path = true.
Proof.
  unfold marker, isEDF. rewrite !endsWith_app. intros [b ->].
  exists (b ++ "_brp")%string. now rewrite append_assoc.
Qed.

Lemma filter_none {A : Type} (f : A -> bool) (l : list A) :
  (forall x, In x l -> f x = false) -> filter f l = [].
Proof.
  induction l as [| x l IH]; intros H; simpl; [reflexivity |].
  rewrite (H x) by now left. apply IH. intros y Hy. apply H. now right.
Qed.

Lemma siblings_In (directory : list (string * File)) (path name : string)
    (f : File) :
  In (name, f) (siblings directory path)
  <-> In ((dirPathOf path ++ "/" ++ name)%string, f) directory
      /\ isEDF (dirPathOf path ++ "/" ++ name)%string = true.
Proof.
  unfold siblings. cbv zeta. rewrite in_map_iff. split.
  - intros ([p f'] & E & Hin). apply filter_In in Hin.
    destruct Hin as [Hin Hc]. apply andb_true_iff in Hc.
    destruct Hc as [Hp He]. unfold startsWith in Hp.
    apply prefix_app in Hp. destruct Hp as [after ->].
    injection E as E1 ->.
    rewrite <- length_app_slash, sliceFrom_app in E1. subst after.
    rewrite append_assoc in Hin, He. now split.
  - intros [Hin He].
    exists ((dirPathOf path ++ "/" ++ name)%string, f). split.
    + rewrite <- length_app_slash, <- append_assoc, sliceFrom_app.
      reflexivity.
    + apply filter_In. split; [exact Hin |].
      apply andb_true_iff. split; [| exact He].
      unfold startsWith. apply prefix_app. exists name.
      now rewrite append_assoc.
Qed.

Lemma discover_app (directory : list (string * File))
    (found : list (Session File)) (entry : string * File) :
  discover directory found entry = found ++ discover directory [] entry.
Proof.
  destruct entry as [path file]. unfold discover.
  destruct (dataRecords (readHeader file) <=? of_Z 0)%js;
    [now rewrite app_nil_r | reflexivity].
Qed.

Lemma fold_discover (directory entries : list (string * File)) :
  forall found,
    fold_left (discover directory) entries found
    = found ++ flat_map (discover directory []) entries.
Proof.
  induction entries as [| entry entries IH]; intros found;
    cbn [fold_left flat_map].
  - now rewrite app_nil_r.
  - now rewrite IH, (discover_app directory found), app_assoc.
Qed.

Lemma sessions_In (directory : list (string * File)) (s : Session File) :
  In s (sessions directory)
  <-> exists path file,
        In (path, file) directory
        /\ marker path = true
        /\ (dataRecords (readHeader file) <=? of_Z 0)%js = false
        /\ s = {| session_start := startTime (readHeader file);
                  session_end :=
                    new_Date (endOfRecords (readHeader file) file);
                  files := siblings directory path |}.
Proof.
  unfold sessions. cbv zeta. rewrite fold_discover. cbn [app].
  rewrite in_flat_map. split.
  - intros ([path file] & Hin & Hs). apply filter_In in Hin.
    destruct Hin as [Hin Hm]. exists path, file.
    unfold discover in Hs.
    destruct (dataRecords (readHeader file) <=? of_Z 0)%js;
      [destruct Hs |].
    destruct Hs as [<- | []]. repeat split; assumption.
  - intros (path & file & Hin & Hm & Hr & ->).
    exists (path, file). split.
    + apply filter_In. split; assumption.
    + unfold discover. rewrite Hr. now left.
Qed.

(** X17.  Every session that [sessions] returns comes from an entry of the
    directory whose path ends in [_brp.edf], in any letter case, and whose
    record count is not zero or less; it starts at the start of that file,
    and its files are exactly the entries of the directory below the folder
    of that file whose path ends in [.edf], each keyed by the rest of its
    path.  When the marker file lies in a folder, the session holds the
    marker file itself under its own name. *)
Theorem sessions_files (directory : list (string * File))
    (s : Session File) :
  In s (sessions directory) ->
  exists path file,
    In (path, file) directory
    /\ marker path = true
    /\ ~ nonPositiveCount file
    /\ session_start s = startTime (readHeader file)
    /\ filesBelow (dirPathOf path) directory s
    /\ (forall dir name,
          path = (dir ++ "/" ++ name)%string -> slashFree name ->
          In (name, file) (files s)).
Proof.
  intros Hs. apply sessions_In in Hs.
  destruct Hs as (path & file & Hin & Hm & Hr & ->).
  exists path, file. split; [exact Hin |]. split; [exact Hm |].
  split; [unfold nonPositiveCount; congruence |].
  split; [reflexivity |]. split.
  - intros name f. cbn [files]. apply siblings_In.
  - intros dir name -> Hn. cbn [files]. apply siblings_In.
    rewrite (dirPathOf_app dir name Hn).
    split; [exact Hin |]. now apply marker_isEDF.
Qed.

(** X18.  A marker file at the top of the directory, with no slash in its
    path, has the empty string as its folder, so that only entries whose
    path starts with a slash count as its files: in a directory without such
    paths its session is returned with no files at all, not even the marker
    file. *)
Theorem sessions_top_level (directory : list (string * File))
    (path : string) (file : File) :
  In (path, file) directory ->
  marker path = true ->
  slashFree path ->
  ~ nonPositiveCount file ->
  (forall p f, In (p, f) directory -> startsWith p "/" = false) ->
  exists s,
    In s (sessions directory)
    /\ session_start s = startTime (readHeader file)
    /\ files s = [].
Proof.
  intros Hin Hm Hfree Hr Hroot.
  eexists. split.
  - apply sessions_In. exists path, file.
    split; [exact Hin |]. split; [exact Hm |].
    split; [| reflexivity].
    unfold nonPositiveCount in Hr.
    now destruct (dataRecords (readHeader file) <=? of_Z 0)%js.
  - cbn [session_start files]. split; [reflexivity |].
    unfold siblings. cbv zeta. rewrite (dirPathOf_free path Hfree).
    rewrite filter_none; [reflexivity |].
    intros [p f] Hp. change ("" ++ "/")%string with "/"%string.
    now rewrite (Hroot p f Hp).
Qed.

End Discovery.

Lemma sessions_files_witness :
  exists path file,
    In (path, file) card
    /\ marker path = true
    /\ ~ nonPositiveCount file
    /\ session_start cardSession
       = startTime (ResMedLoader.readHeader file)
    /\ filesBelow (ResMedLoader.dirPathOf path) card cardSession
    /\ (forall dir name,
          path = (dir ++ "/" ++ name)%string -> slashFree name ->
          In (name, file) (files cardSession)).
Proof.
  apply (sessions_files card cardSession).
  vm_compute. left. reflexivity.
Defined.

Lemma sessions_top_level_witness :
  exists s,
    In s (ResMedLoader.sessions dayFolder)
    /\ session_start s
       = startTime (ResMedLoader.readHeader (reader 60 1 []))
    /\ files s = [].
Proof.
  apply (sessions_top_level dayFolder "a_BRP.edf" (reader 60 1 [])).
  - now left.
  - reflexivity.
  - reflexivity.
  - unfold nonPositiveCount. vm_compute. discriminate.
  - intros p f [[= <- <-] | [[= <- <-] | []]]; reflexivity.
Defined.

(** ** Sources of the merged annotations *)

Section Onsets.
Import JS.

(** X19.  Every annotation of the merged output stems from an annotation
    with a finite onset, of a file with a valid start, whose absolute time
    [fileStart + onset * 1000], as computed in binary64 arithmetic, is a
    finite time between the start and the end of the window.  So an output
    with an annotation has a window of valid dates whose end is not before
    its start. *)
Theorem mergeSignals_onsets (start end_ : Date) (files : list EDFFile)
    (out : Merged) (a' : EDFAnnotation) :
  mergeSignals start end_ files = Some out ->
  In a' (mergedAnnotations out) ->
  keptInWindow start end_ files a'.
Proof.
  intros Hm Hin.
  destruct (mergeSignals_picks _ _ _ _ Hm) as (picks & _ & _ & _ & Ha).
  rewrite Ha, mergeAnnotations_flat_map in Hin.
  apply in_flat_map in Hin. destruct Hin as (file & Hfile & Hin).
  apply in_map_iff in Hin. destruct Hin as (a & <- & Hin).
  apply filter_In in Hin. destruct Hin as [Hina Hw].
  apply inWindow_within in Hw. unfold withinWindow in Hw.
  destruct start as [ws |]; [| contradiction].
  destruct end_ as [we |]; [| contradiction].
  destruct (absoluteTime file a) as [t | | |] eqn:Et; try contradiction.
  destruct Hw as [Hlo Hhi].
  assert (Hfin : exists fs o,
             startTime (header file) = DateOf fs /\ onset a = Fin o).
  { unfold absoluteTime in Et.
    destruct (startTime (header file)) as [fs |]; [| discriminate].
    destruct (onset a) as [o | | |]; try discriminate.
    exists fs, o. split; reflexivity. }
  destruct Hfin as (fs & o & Hfs & Ho).
  exists ws, we, fs, o, t, file, a.
  split; [reflexivity |]. split; [reflexivity |].
  split; [rewrite Zle_Qle; lra |].
  split; [exact Hfile |]. split; [exact Hina |].
  split; [exact Hfs |]. split; [exact Ho |].
  split; [exact Et |]. split; [exact Hlo |]. split; [exact Hhi | reflexivity].
Qed.

Lemma mergeSignals_onsets_witness :
  keptInWindow (DateOf 0) (DateOf 60000) [annotated]
    (retime (DateOf 0) annotated (note (3 # 2) "Hypopnea")).
Proof.
  destruct (mergeSignals (DateOf 0) (DateOf 60000) [annotated])
    as [out |] eqn:E; [| vm_compute in E; discriminate].
  apply (mergeSignals_onsets (DateOf 0) (DateOf 60000) [annotated] out).
  - exact E.
  - vm_compute in E. injection E as <-. now left.
Defined.

End Onsets.
